(** * lib/ls.js: the dependency-tree report

    A shallow embedding of [lib/ls.js].  The report walks the graph that the
    actual-tree provider has loaded, breadth first; it tags the objects it
    meets with symbol-keyed properties ([_parent], [_include], [_depth], ...),
    collects problems, and prints either an archy tree or a flat list of
    paths.

    The JavaScript mutates shared objects, so the embedding threads an
    explicit store: object identities are references, the symbol-keyed
    properties live in a finite map from references, and the objects the walk
    creates (placeholders for missing dependencies, deduped stand-ins, result
    items) live in append-only tables.  An exception is an explicit
    outcome: a [TypeError] raised by the JavaScript, or what a call into a
    library throws ([node.satisfies] and [npa] throw on a string that
    npm-package-arg does not parse). *)

From stdpp Require Import gmap strings list sorting.
From Stdlib Require Import ZArith.

Set Warnings "-register-all".

Local Open Scope string_scope.
Local Open Scope Z_scope.
Local Open Scope nat_scope.

(** ** Exceptions *)

(** What the JavaScript throws: a [TypeError] of the engine, the two errors
    that [ls] makes, with their message and code, and the errors of the
    libraries, with their code. *)
Inductive Exn :=
| TypeError
| LsError (message code : string)
| LibError (code : string).

(** A call into a library: it returns, or it throws. *)
Inductive Call (A : Type) :=
| Returns (a : A)
| Raises (e : Exn).
Arguments Returns {A} a.
Arguments Raises {A} e.

(** ** What the graph provider exposes *)

(** [edge.type] *)
Inductive EdgeType := TProd | TDev | TOptional | TPeer | TPeerOptional.

Global Instance EdgeType_eq_dec : EqDecision EdgeType.
Proof. solve_decision. Defined.

(** The manifest object [node.package]: the keys the report reads, and how
    many other keys it has (for [Object.keys(node.package).length]). *)
Record Package := {
  pkg_name : option string;
  pkg_version : option string;
  pkg_description : option string;
  pkg_other_keys : nat
}.

Definition empty_package : Package :=
  {| pkg_name := None; pkg_version := None; pkg_description := None;
     pkg_other_keys := 0 |}.

(** One entry of [node.errors] *)
Record NodeError := { err_code : string; err_path : string }.

(** An edge of [node.edgesOut].  The kind flags are the provider's getters;
    [edge_to] and [edge_from] are node identities. *)
Record Edge := {
  edge_name : string;
  edge_spec : string;
  edge_type : EdgeType;
  edge_dev : bool;
  edge_peer : bool;
  edge_peerOptional : bool;
  edge_optional : bool;
  edge_missing : bool;
  edge_invalid : bool;
  edge_to : option nat;
  edge_from : nat
}.

(** An [Arborist.Node].  [edgesOut] and [children] are Maps in the source;
    only their [values()] in insertion order are read.  The method
    [satisfies] parses its argument with npm-package-arg, which throws on a
    string it cannot parse. *)
Record Node := {
  node_package : Package;
  node_path : string;
  node_realpath : string;
  node_resolved : option string;
  node_extraneous : bool;
  node_isLink : bool;
  node_isRoot : bool;
  node_errors : list NodeError;
  node_edgesOut : list Edge;
  node_children : list nat;
  node_satisfies : string → Call bool
}.

Definition empty_node : Node :=
  {| node_package := empty_package; node_path := ""; node_realpath := "";
     node_resolved := None; node_extraneous := false; node_isLink := false;
     node_isRoot := false; node_errors := []; node_edgesOut := [];
     node_children := []; node_satisfies := λ _, Returns false |}.

Global Instance Node_inhabited : Inhabited Node := populate empty_node.

(** Modelled from the spec: the [pkgid] getter of the provider's Node class
    is not among the sources; the glossary gives its format,
    name [@] version, and an absent name or version reads as empty. *)
Definition node_pkgid (n : Node) : string :=
  default "" (pkg_name (node_package n)) +:+ "@" +:+
  default "" (pkg_version (node_package n)).

(** The loaded graph: a table of nodes; a node identity is an index. *)
Abbreviation Graph := (list Node).

(** ** Configuration *)

(** [npm.flatOptions.depth]: a number, [Infinity] included. *)
Inductive MaxDepth := Finite (d : Z) | Infinity.

Record Config := {
  color : bool;
  depth : MaxDepth;
  long : bool;
  parseable : bool;
  unicode : bool;
  dev : bool;
  development : bool;
  link : bool;
  only : option string;
  prod : bool;
  production : bool;
  prefix : string;
  globalDir : string
}.

(** What the tree printer receives: a string, or an object with a label and
    nodes. *)
Inductive Archy := AString (s : string) | AObj (lbl : string) (ns : list Archy).

(** The runtime and the libraries the report calls.  [npa_type] is
    [npa(...).type]: npm-package-arg throws on a string it cannot parse. *)
Record Runtime := {
  EOL : string;
  resolve : string → string → string;
  trim : string → string;
  archy : Archy → bool → string;
  npa_type : string → Call string;
  localeCompare : string → string → Z;
  chalk_yellow_bgBlack : string → string;
  chalk_red_bgBlack : string → string;
  chalk_green_bgBlack : string → string
}.

(** ** The store *)

(** Object identity: a node of the graph, or an object literal created
    during the walk. *)
Inductive Ref := RNode (n : nat) | RObj (k : nat).

Global Instance Ref_eq_dec : EqDecision Ref.
Proof. solve_decision. Defined.

Global Instance Ref_inhabited : Inhabited Ref := populate (RNode 0).

Global Instance Ref_countable : Countable Ref.
Proof.
  refine (inj_countable'
    (λ r, match r with RNode n => inl n | RObj k => inr k end)
    (λ s, match s with inl n => RNode n | inr k => RObj k end) _).
  by intros [].
Defined.

(** [node instanceof Arborist.Node] *)
Definition is_node (r : Ref) : bool :=
  match r with RNode _ => true | RObj _ => false end.

(** The own properties of the two object literals of the source:
    [{ name, pkgid, [_missing] }] and [{ pkgid, package, [_dedupe] }]. *)
Inductive Synth :=
| Placeholder (name pkgid : string)
| Deduped (pkgid : string) (package : option Package).

Global Instance Synth_inhabited : Inhabited Synth :=
  populate (Deduped "" None).

(** The symbol-keyed properties of an object; an unset one reads as
    [undefined] ([None], or [false] where only truthiness is read).
    [_parent] holds the result item of the parent, the [nodeResult] that
    [getChildren] receives. *)
Record Fields := {
  _depth : option nat;
  _dedupe : bool;
  _include : bool;
  _invalid : bool;
  _missing : option string;
  _parent : option nat;
  _type : option EdgeType
}.

Definition no_fields : Fields :=
  {| _depth := None; _dedupe := false; _include := false; _invalid := false;
     _missing := None; _parent := None; _type := None |}.

(** A result item [{ label, nodes: [] }], as [visit] makes it; [nodes]
    holds the items pushed under it.  The ancestor loop of [shouldInclude]
    writes [_include] on items and reads their [_parent], which no
    statement of the source assigns. *)
Record Item := {
  label : string;
  nodes : list nat;
  item_include : bool;
  item_parent : option nat
}.

Global Instance Item_inhabited : Inhabited Item :=
  populate {| label := ""; nodes := []; item_include := false;
              item_parent := None |}.

(** The store: the symbol-keyed properties, the objects and the result
    items made so far, the two Sets of [ls], and the queue and the map of
    the breadth-first driver. *)
Record State := {
  heap : gmap Ref Fields;
  synth : list Synth;
  items : list Item;
  seen : list Ref;
  problems : list string;
  queue : list Ref;
  tv_seen : gmap Ref nat
}.

(** How a run ends.  [Diverge] stands for a loop that was not granted
    enough steps; the walk is shown never to end so. *)
Inductive Res (A : Type) :=
| Ok (a : A)
| Throw (e : Exn)
| Diverge.
Arguments Ok {A} a.
Arguments Throw {A} e.
Arguments Diverge {A}.

(** State and exception monad of the walk *)
Definition M (A : Type) : Type := State → Res (A * State).

Definition ret {A} (a : A) : M A := λ st, Ok (a, st).

Definition bind {A B} (c : M A) (k : A → M B) : M B :=
  λ st, match c st with
        | Ok (a, st') => k a st'
        | Throw e => Throw e
        | Diverge => Diverge
        end.

Definition throw {A} (e : Exn) : M A := λ _, Throw e.
Definition get : M State := λ st, Ok (st, st).
Definition modify (f : State → State) : M unit := λ st, Ok (tt, f st).

Notation "'let*' x ':=' c 'in' k" := (bind c (λ x, k))
  (at level 10, x pattern, c at level 100, k at level 200).
Notation "c ';;' k" := (bind c (λ _, k))
  (at level 100, k at level 200, right associativity).

Fixpoint mapM {A B} (f : A → M B) (l : list A) : M (list B) :=
  match l with
  | [] => ret []
  | x :: l' => let* y := f x in let* ys := mapM f l' in ret (y :: ys)
  end.

Definition fields_of (st : State) (r : Ref) : Fields :=
  default no_fields (heap st !! r).

(** Updates of one component of the store *)
Definition upd_fields (r : Ref) (f : Fields → Fields) (st : State) : State :=
  {| heap := <[r := f (fields_of st r)]> (heap st); synth := synth st;
     items := items st; seen := seen st; problems := problems st;
     queue := queue st; tv_seen := tv_seen st |}.
Definition push_synth (o : Synth) (st : State) : State :=
  {| heap := delete (RObj (length (synth st))) (heap st);
     synth := (synth st ++ [o])%list;
     items := items st; seen := seen st; problems := problems st;
     queue := queue st; tv_seen := tv_seen st |}.
Definition upd_items (f : list Item → list Item) (st : State) : State :=
  {| heap := heap st; synth := synth st;
     items := f (items st); seen := seen st; problems := problems st;
     queue := queue st; tv_seen := tv_seen st |}.
Definition upd_seen (f : list Ref → list Ref) (st : State) : State :=
  {| heap := heap st; synth := synth st;
     items := items st; seen := f (seen st); problems := problems st;
     queue := queue st; tv_seen := tv_seen st |}.
Definition upd_problems (f : list string → list string) (st : State) : State :=
  {| heap := heap st; synth := synth st;
     items := items st; seen := seen st; problems := f (problems st);
     queue := queue st; tv_seen := tv_seen st |}.
Definition upd_queue (f : list Ref → list Ref) (st : State) : State :=
  {| heap := heap st; synth := synth st;
     items := items st; seen := seen st; problems := problems st;
     queue := f (queue st); tv_seen := tv_seen st |}.
Definition upd_tv_seen (f : gmap Ref nat → gmap Ref nat) (st : State) : State :=
  {| heap := heap st; synth := synth st;
     items := items st; seen := seen st; problems := problems st;
     queue := queue st; tv_seen := f (tv_seen st) |}.

Definition set_fields (r : Ref) (f : Fields → Fields) : M unit :=
  modify (upd_fields r f).

(** An object literal: the next free slot of the table, with no
    symbol-keyed property yet *)
Definition alloc (o : Synth) : M Ref :=
  λ st, Ok (RObj (length (synth st)), push_synth o st).

Definition set_items (f : list Item → list Item) : M unit :=
  modify (upd_items f).

(** [Set.prototype.add]: insertion order is kept, a member is not added
    again. *)
Definition set_add {A} `{EqDecision A} (x : A) (s : list A) : list A :=
  if decide (x ∈ s) then s else (s ++ [x])%list.

(** Setters of the symbol-keyed properties *)
Definition with_depth (v : option nat) (f : Fields) : Fields :=
  {| _depth := v; _dedupe := _dedupe f; _include := _include f;
     _invalid := _invalid f; _missing := _missing f; _parent := _parent f;
     _type := _type f |}.
Definition with_dedupe (v : bool) (f : Fields) : Fields :=
  {| _depth := _depth f; _dedupe := v; _include := _include f;
     _invalid := _invalid f; _missing := _missing f; _parent := _parent f;
     _type := _type f |}.
Definition with_include (v : bool) (f : Fields) : Fields :=
  {| _depth := _depth f; _dedupe := _dedupe f; _include := v;
     _invalid := _invalid f; _missing := _missing f; _parent := _parent f;
     _type := _type f |}.
Definition with_invalid (v : bool) (f : Fields) : Fields :=
  {| _depth := _depth f; _dedupe := _dedupe f; _include := _include f;
     _invalid := v; _missing := _missing f; _parent := _parent f;
     _type := _type f |}.
Definition with_missing (v : option string) (f : Fields) : Fields :=
  {| _depth := _depth f; _dedupe := _dedupe f; _include := _include f;
     _invalid := _invalid f; _missing := v; _parent := _parent f;
     _type := _type f |}.
Definition with_parent (v : option nat) (f : Fields) : Fields :=
  {| _depth := _depth f; _dedupe := _dedupe f; _include := _include f;
     _invalid := _invalid f; _missing := _missing f; _parent := v;
     _type := _type f |}.
Definition with_type (v : option EdgeType) (f : Fields) : Fields :=
  {| _depth := _depth f; _dedupe := _dedupe f; _include := _include f;
     _invalid := _invalid f; _missing := _missing f; _parent := _parent f;
     _type := v |}.

Definition item_with_include (v : bool) (it : Item) : Item :=
  {| label := label it; nodes := nodes it; item_include := v;
     item_parent := item_parent it |}.
Definition item_push (child : nat) (it : Item) : Item :=
  {| label := label it; nodes := (nodes it ++ [child])%list;
     item_include := item_include it; item_parent := item_parent it |}.

(** JavaScript truthiness of a string, and a template literal's rendering
    of a possibly undefined string *)
Definition truthy (s : string) : bool := negb (String.eqb s "").
Definition show (s : option string) : string := default "undefined" s.

(** An object as the report reads it *)
Inductive Obj := ONode (n : Node) | OSynth (s : Synth).

Definition obj_pkgid (o : Obj) : string :=
  match o with
  | ONode n => node_pkgid n
  | OSynth (Placeholder _ p) => p
  | OSynth (Deduped p _) => p
  end.

Definition obj_path (o : Obj) : option string :=
  match o with ONode n => Some (node_path n) | OSynth _ => None end.

Definition obj_realpath (o : Obj) : option string :=
  match o with ONode n => Some (node_realpath n) | OSynth _ => None end.

Definition obj_package (o : Obj) : option Package :=
  match o with
  | ONode n => Some (node_package n)
  | OSynth (Placeholder _ _) => None
  | OSynth (Deduped _ p) => p
  end.

Definition obj_extraneous (o : Obj) : bool :=
  match o with ONode n => node_extraneous n | OSynth _ => false end.

Definition obj_isLink (o : Obj) : bool :=
  match o with ONode n => node_isLink n | OSynth _ => false end.

Definition obj_resolved (o : Obj) : option string :=
  match o with ONode n => node_resolved n | OSynth _ => None end.

Definition obj_errors (o : Obj) : option (list NodeError) :=
  match o with ONode n => Some (node_errors n) | OSynth _ => None end.

(** [/^dev(elopment)?$/.test(only)] and [/^prod(uction)?$/.test(only)] *)
Definition test_dev (o : option string) : bool :=
  match o with
  | Some s => String.eqb s "dev" || String.eqb s "development"
  | None => false
  end.
Definition test_prod (o : option string) : bool :=
  match o with
  | Some s => String.eqb s "prod" || String.eqb s "production"
  | None => false
  end.

(** [node[_depth] > depth]; an unset depth compares false *)
Definition depth_gt (d : option nat) (m : MaxDepth) : bool :=
  match d, m with
  | Some k, Finite z => bool_decide (z < Z.of_nat k)%Z
  | _, _ => false
  end.

(** [Array.prototype.some] with an effectful callback *)
Fixpoint some {A} (f : A → M bool) (l : list A) : M bool :=
  match l with
  | [] => ret false
  | x :: l' => let* b := f x in if b : bool then ret true else some f l'
  end.

(** [Array.prototype.sort] with a comparator: a stable sort; an element stays
    before the ones it does not compare greater than. *)
Fixpoint sort_insert {A} (cmp : A → A → Z) (x : A) (l : list A) : list A :=
  match l with
  | [] => [x]
  | y :: l' => if bool_decide (cmp x y ≤ 0)%Z then x :: y :: l'
               else y :: sort_insert cmp x l'
  end.

Fixpoint sort {A} (cmp : A → A → Z) (l : list A) : list A :=
  match l with
  | [] => []
  | x :: l' => sort_insert cmp x (sort cmp l')
  end.

(** [String.prototype.join] *)
Fixpoint join (sep : string) (l : list string) : string :=
  match l with
  | [] => ""
  | [x] => x
  | x :: l' => x +:+ sep +:+ join sep l'
  end.

Section Ls.

Context (rt : Runtime) (cfg : Config) (g : Graph) (tree : nat)
        (args : list string).

Definition deref (st : State) (r : Ref) : Obj :=
  match r with
  | RNode n => ONode (g !!! n)
  | RObj k => OSynth (synth st !!! k)
  end.

(** [npa(node.resolved)] is not guarded: what it throws leaves
    [isGitNode]. *)
Definition isGitNode (o : Obj) : Call bool :=
  match obj_resolved o with
  | Some r =>
      if truthy r
      then match npa_type rt r with
           | Returns type =>
               Returns (String.eqb type "git" || String.eqb type "hosted")
           | Raises e => Raises e
           end
      else Returns false
  | None => Returns false
  end.

Definition missingMsg (f : Fields) : string :=
  "UNMET " +:+
  (if decide (_type f = Some TOptional) then "OPTIONAL " else "") +:+
  "DEPENDENCY ".

(** [node[_missing]] is a string: truthy when set and not empty *)
Definition is_missing (f : Fields) : bool :=
  match _missing f with Some s => truthy s | None => false end.

Definition printable (o : Obj) : string :=
  match o with
  | ONode n =>
      if node_isRoot n
      then
        let p := node_package n in
        let hasNoPackageJson :=
          match pkg_name p, pkg_version p, pkg_description p,
                pkg_other_keys p with
          | None, None, None, 0 => true
          | _, _, _, _ => false
          end in
        if hasNoPackageJson then node_path n
        else node_pkgid n +:+ (if long cfg then EOL rt else " ") +:+ node_path n
      else node_pkgid n
  | OSynth _ => obj_pkgid o
  end.

Definition problem_of (o : Obj) (f : Fields) : string :=
  if is_missing f
  then "missing: " +:+ obj_pkgid o +:+ ", required by " +:+ show (_missing f)
  else if _invalid f
  then "invalid: " +:+ obj_pkgid o +:+ " " +:+ show (obj_path o)
  else if obj_extraneous o
  then "extraneous: " +:+ obj_pkgid o +:+ " " +:+ show (obj_path o)
  else "".

(** The label is built first, part by part: the call of [isGitNode] can
    throw what [npa] throws, and the last part reads
    [node.package.description], a [TypeError] on an object without
    [package]. *)
Definition getHumanOutputItem (o : Obj) (f : Fields) : Res (string * string) :=
  match isGitNode o with
  | Raises e => Throw e
  | Returns git =>
      let head :=
        (if is_missing f
         then (if color cfg then chalk_yellow_bgBlack rt (missingMsg f)
               else missingMsg f)
         else "") +:+
        printable o +:+
        (if _dedupe f then " deduped" else "") +:+
        (if _invalid f
         then (if color cfg then chalk_red_bgBlack rt " invalid"
               else " invalid")
         else "") +:+
        (if obj_extraneous o
         then (if color cfg then chalk_green_bgBlack rt " extraneous"
               else " extraneous")
         else "") +:+
        (if git : bool then " (" +:+ show (obj_resolved o) +:+ ")" else "") +:+
        (if obj_isLink o then " -> " +:+ show (obj_realpath o) else "") in
      if long cfg
      then match obj_package o with
           | Some p =>
               Ok (head +:+ EOL rt +:+ default "" (pkg_description p),
                   problem_of o f)
           | None => Throw TypeError
           end
      else Ok (head, problem_of o f)
  end.

(** [node[_type] = edge.type] on a null [edge.to] is a [TypeError]. *)
Definition edgesToNodes (edge : Edge) : M Ref :=
  let name := edge_name edge in
  let spec := edge_spec edge in
  let pkgid := name +:+ "@" +:+ spec in
  let* node :=
    (if edge_missing edge ||
        (edge_optional edge && negb (bool_decide (is_Some (edge_to edge))))
     then
       let* r := alloc (Placeholder name pkgid) in
       set_fields r (with_missing (Some (node_pkgid (g !!! edge_from edge)))) ;;
       ret (Some r)
     else ret (RNode <$> edge_to edge)) in
  match node with
  | None => throw TypeError
  | Some r =>
      set_fields r (with_type (Some (edge_type edge))) ;;
      set_fields r (with_invalid (edge_invalid edge)) ;;
      ret r
  end.

(** [while (p) { p[_include] = true; p = p[_parent] }] over result items *)
Fixpoint mark_parents (fuel : nat) (p : option nat) : M unit :=
  match p with
  | None => ret tt
  | Some i =>
      match fuel with
      | 0 => λ _, Diverge
      | S fuel' =>
          set_items (alter (item_with_include true) i) ;;
          let* st := get in
          mark_parents fuel' (item_parent (items st !!! i))
      end
  end.

(** Only a Node has the method [satisfies]: on an object made during the
    walk the call is a [TypeError].  On a Node the call is not guarded: what
    it throws leaves [shouldInclude]. *)
Definition shouldInclude (node : Ref) (spec : string) : M bool :=
  let* st := get in
  match deref st node with
  | OSynth _ => throw TypeError
  | ONode n =>
      match node_satisfies n spec with
      | Raises e => throw e
      | Returns true =>
          (if negb (parseable cfg)
           then mark_parents (S (length (items st)))
                  (_parent (fields_of st node))
           else ret tt) ;;
          ret true
      | Returns false => ret false
      end
  end.

Definition filterByPositionalArgs (node : Ref) : M bool :=
  match args with
  | [] => ret true
  | _ :: _ => some (shouldInclude node) args
  end.

Definition filterDev (node : Ref) : bool :=
  bool_decide (node = RNode tree) &&
  (dev cfg || development cfg || test_dev (only cfg)).
Definition filterProd (node : Ref) : bool :=
  bool_decide (node = RNode tree) &&
  (prod cfg || production cfg || test_prod (only cfg)).
Definition filterLink (node : Ref) : bool :=
  bool_decide (node = RNode tree) && link cfg.

Definition edge_kept (node : Ref) (edge : Edge) : bool :=
  (if filterDev node then edge_dev edge else true) &&
  (if filterProd node
   then negb (edge_dev edge) && negb (edge_peer edge) &&
        negb (edge_peerOptional edge)
   else true) &&
  (if filterLink node
   then match edge_to edge with
        | Some t => node_isLink (g !!! t)
        | None => false
        end
   else true).

(** The second [.map] of [getChildren] *)
Definition augment (node : Ref) (nodeResult : nat) (i : Ref) : M Ref :=
  let* st := get in
  let* i :=
    (if decide (i ∈ seen st)
     then
       let o := deref st i in
       let* r := alloc (Deduped (obj_pkgid o) (obj_package o)) in
       set_fields r (with_dedupe true) ;;
       ret r
     else ret i) in
  set_fields i (with_parent (Some nodeResult)) ;;
  let* inc := filterByPositionalArgs i in
  set_fields i (with_include inc) ;;
  let* st := get in
  set_fields i (with_depth (S <$> _depth (fields_of st node))) ;;
  ret i.

Definition by_pkgid (st : State) (a b : Ref) : Z :=
  localeCompare rt (obj_pkgid (deref st a)) (obj_pkgid (deref st b)).

Definition getChildren (node : Ref) (nodeResult : nat) : M (list Ref) :=
  let* st := get in
  match node with
  | RObj _ => ret []
  | RNode n =>
      if depth_gt (_depth (fields_of st node)) (depth cfg) then ret []
      else
        let* l1 :=
          mapM edgesToNodes
            (filter (λ e, edge_kept node e = true)
               (node_edgesOut (g !!! n))) in
        let l2 :=
          (l1 ++ (RNode <$> filter (λ c, node_extraneous (g !!! c) = true)
                              (node_children (g !!! n))))%list in
        let* l3 := mapM (augment node nodeResult) l2 in
        let* st := get in
        ret (sort (by_pkgid st) l3)
  end.

Definition visit (node : Ref) : M nat :=
  modify (upd_seen (set_add node)) ;;
  let* st := get in
  match getHumanOutputItem (deref st node) (fields_of st node) with
  | Throw e => throw e
  | Diverge => λ _, Diverge
  | Ok (lbl, problem) =>
      let item := length (items st) in
      set_items (λ its, (its ++ [{| label := lbl; nodes := [];
                                    item_include := false;
                                    item_parent := None |}])%list) ;;
      (if truthy problem
       then modify (upd_problems (set_add problem))
       else ret tt) ;;
      let* st := get in
      (match _include (fields_of st node), _parent (fields_of st node) with
       | true, Some p => set_items (alter (item_push item) p)
       | _, _ => ret tt
       end) ;;
      let* st := get in
      (match _parent (fields_of st node) with
       | None => set_fields node (with_depth (Some 0))
       | Some _ => ret tt
       end) ;;
      ret item
  end.

(** Modelled from the spec: the breadth-first driver [breadth] comes from the
    treeverse package, which is not among the sources.  It keeps a queue and
    its own map of visited objects: an object taken from the queue is visited
    once, the root first and then each level in order; its children are
    asked for right after its visit and appended to the queue; the driver
    returns what the visit of the root returned. *)
Definition visitNode (r : Ref) : M unit :=
  let* st := get in
  match tv_seen st !! r with
  | Some _ => ret tt
  | None =>
      let* res := visit r in
      modify (upd_tv_seen <[r := res]>) ;;
      let* kids := getChildren r res in
      modify (upd_queue (λ q, (q ++ kids)%list))
  end.

(** [while (queue.length)]: [fuel] bounds the turns of the loop. *)
Fixpoint next (fuel : nat) : M unit :=
  λ st,
    match queue st with
    | [] => Ok (tt, st)
    | r :: q =>
        match fuel with
        | 0 => Diverge
        | S fuel' =>
            (visitNode r ;; next fuel') (upd_queue (λ _, q) st)
        end
    end.

Definition breadth (fuel : nat) : M (option nat) :=
  modify (upd_queue (λ q, (q ++ [RNode tree])%list)) ;;
  next fuel ;;
  let* st := get in
  ret (tv_seen st !! RNode tree).

(** Enough steps for any walk of the graph: one for the root and one for
    each child a node can hand out. *)
Definition out_degree (n : Node) : nat :=
  length (node_edgesOut n) + length (node_children n).

Definition walk_fuel : nat := 1 + sum_list (out_degree <$> g).

(** The store before the walk: [tree[_include] = args.length === 0] *)
Definition init : State :=
  {| heap :=
       {[ RNode tree := with_include (bool_decide (args = [])) no_fields ]};
     synth := []; items := []; seen := []; problems := [];
     queue := []; tv_seen := ∅ |}.

Definition walk : Res (option nat * State) := breadth walk_fuel init.

(** The nested structure handed to archy: an item with the items pushed
    under it, unfolded in [fuel] steps at most *)
Fixpoint to_archy (fuel : nat) (its : list Item) (i : nat) : Archy :=
  match fuel with
  | 0 => AObj (label (its !!! i)) []
  | S fuel' =>
      AObj (label (its !!! i)) (to_archy fuel' its <$> nodes (its !!! i))
  end.

(** [result] after [if (!result.nodes.length) result.nodes = ['(empty)']] *)
Definition result_tree (its : list Item) (result : nat) : Archy :=
  match nodes (its !!! result) with
  | [] => AObj (label (its !!! result)) [AString "(empty)"]
  | ns => AObj (label (its !!! result)) (to_archy (length its) its <$> ns)
  end.

(** One turn of [for (const dep of seen)] *)
Definition parseable_dep (st : State) (dep : Ref) : Res string :=
  let o := deref st dep in
  let f := fields_of st dep in
  match obj_path o with
  | Some p =>
      if truthy p && _include f
      then
        if long cfg
        then
          match obj_errors o with
          | None => Throw TypeError
          | Some errs =>
              Ok (p +:+ ":" +:+ obj_pkgid o +:+
                  (if bool_decide (Some p ≠ obj_realpath o)
                   then ":" +:+ show (obj_realpath o) else "") +:+
                  (if obj_extraneous o then ":EXTRANEOUS" else "") +:+
                  (if negb (bool_decide (length errs = 0)) &&
                      negb (String.eqb p (resolve rt (globalDir cfg) ".."))
                   then ":ERROR" else "") +:+
                  (if _invalid f then ":INVALID" else "") +:+
                  EOL rt)
          end
        else Ok (p +:+ EOL rt)
      else Ok ""
  | None => Ok ""
  end.

Fixpoint parseable_loop (st : State) (deps : list Ref) (out : string) :
    Res string :=
  match deps with
  | [] => Ok out
  | dep :: deps' =>
      match parseable_dep st dep with
      | Ok s => parseable_loop st deps' (out +:+ s)
      | Throw e => Throw e
      | Diverge => Diverge
      end
  end.

Definition is_rootError (e : NodeError) : bool :=
  String.eqb (err_code e) "EJSONPARSE" &&
  String.eqb (err_path e) (resolve rt (prefix cfg) "package.json").

(** What the caller observes: the calls of [output], [process.exitCode],
    and how the promise settles. *)
Record Outcome := {
  printed : list string;
  exitCode : option nat;
  completion : Res unit
}.

(** After the rendering: the two classified failures *)
Definition settle (st : State) : Res unit :=
  match filter (λ e, is_rootError e = true) (node_errors (g !!! tree)) with
  | _ :: _ => Throw (LsError "Failed to parse root package.json" "EJSONPARSE")
  | [] =>
      match problems st with
      | [] => Ok tt
      | _ :: _ => Throw (LsError (join (EOL rt) (problems st)) "ELSPROBLEMS")
      end
  end.

Definition render (st : State) (result : nat) : Res string :=
  if parseable cfg
  then match parseable_loop st (seen st) "" with
       | Ok out => Ok (trim rt out)
       | Throw e => Throw e
       | Diverge => Diverge
       end
  else Ok (archy rt (result_tree (items st) result) (unicode cfg)).

Definition exit_status (st : State) (result : nat) : option nat :=
  match nodes (items st !!! result), args with
  | [], _ :: _ => Some 1
  | _, _ => None
  end.

Definition ls : Outcome :=
  match walk with
  | Throw e => {| printed := []; exitCode := None; completion := Throw e |}
  | Diverge => {| printed := []; exitCode := None; completion := Diverge |}
  | Ok (None, _) =>
      {| printed := []; exitCode := None; completion := Throw TypeError |}
  | Ok (Some result, st) =>
      match render st result with
      | Ok out =>
          {| printed := [out]; exitCode := exit_status st result;
             completion := settle st |}
      | Throw e =>
          {| printed := []; exitCode := exit_status st result;
             completion := Throw e |}
      | Diverge =>
          {| printed := []; exitCode := exit_status st result;
             completion := Diverge |}
      end
  end.

(** ** Invariants of the walk *)

(** How a run ends: [Q] on a result, [E] on an exception, and it ends. *)
Definition wp {A} (E : Prop) (r : Res A) (Q : A → Prop) : Prop :=
  match r with
  | Ok a => Q a
  | Throw _ => E
  | Diverge => False
  end.

Definition no_parent (it : Item) : Prop := item_parent it = None.

(** An object literal that was really created *)
Definition ref_ok (st : State) (r : Ref) : Prop :=
  match r with
  | RNode _ => True
  | RObj k => k < length (synth st)
  end.

(** The depths the walk hands out under the configured limit *)
Definition bound (k : nat) : Prop :=
  match depth cfg with
  | Finite d => (Z.of_nat k ≤ Z.max 0 (d + 1))%Z
  | Infinity => True
  end.

Definition has_depth (st : State) (r : Ref) : Prop :=
  is_Some (_depth (fields_of st r)).

(** Ready to be visited: the root (no parent yet), or a child with its
    depth *)
Definition placed (st : State) (r : Ref) : Prop :=
  _parent (fields_of st r) = None ∨ has_depth st r.

(** What an item is apart from the mark of the ancestor loop *)
Definition item_core (it : Item) : string * list nat * option nat :=
  (label it, nodes it, item_parent it).

Record Inv (st : State) : Prop := {
  inv_items : Forall no_parent (items st);
  inv_forward : ∀ k it c, items st !! k = Some it → c ∈ nodes it →
                k < c < length (items st);
  inv_parents : ∀ r p, _parent (fields_of st r) = Some p →
                p < length (items st);
  inv_seen : NoDup (seen st);
  inv_problems : NoDup (problems st);
  inv_bound : ∀ r k, _depth (fields_of st r) = Some k → bound k;
  inv_fresh : ∀ r, r ∈ seen st ∨ r ∈ queue st → ref_ok st r;
  inv_seen_depth : ∀ r, r ∈ seen st → has_depth st r;
  inv_queue : ∀ r, r ∈ queue st → placed st r
}.

(** What asking for the children of a node may change *)
Record grows (st st' : State) : Prop := {
  g_items : item_core <$> items st' = item_core <$> items st;
  g_seen : seen st' = seen st;
  g_problems : problems st' = problems st;
  g_queue : queue st' = queue st;
  g_tv_seen : tv_seen st' = tv_seen st;
  g_synth : length (synth st) ≤ length (synth st');
  g_has_depth : ∀ r, ref_ok st r → has_depth st r → has_depth st' r;
  g_placed : ∀ r, ref_ok st r → placed st r → placed st' r;
  g_bound : ∀ r k, _depth (fields_of st' r) = Some k →
            _depth (fields_of st r) = Some k ∨ bound k;
  g_parent : ∀ r p, _parent (fields_of st' r) = Some p →
             _parent (fields_of st r) = Some p ∨ p < length (items st);
  g_seen_depth : ∀ r, r ∈ seen st →
                 _depth (fields_of st' r) = _depth (fields_of st r)
}.

(** While the children of [node] are produced: [node] has been visited,
    its result item exists and its depth is within the limit. *)
Definition LInv (node : Ref) (nodeResult : nat) (st : State) : Prop :=
  Inv st ∧ node ∈ seen st ∧ nodeResult < length (items st) ∧
  ∃ k, _depth (fields_of st node) = Some k ∧
       depth_gt (Some k) (depth cfg) = false.

(** The steps still to come: the queue, and what the nodes not yet visited
    can hand out *)
Fixpoint weight_from (m : gmap Ref nat) (k : nat) (l : list Node) : nat :=
  match l with
  | [] => 0
  | n :: l' =>
      (match m !! RNode k with Some _ => 0 | None => out_degree n end) +
      weight_from m (S k) l'
  end.

Definition measure (st : State) : nat :=
  length (queue st) + weight_from (tv_seen st) 0 g.

(** Inputs on which nothing can be raised: no positional filters, the
    short form, every edge without a target is missing or optional, and
    [npa] parses the [resolved] of every node. *)
Definition edge_wf (e : Edge) : bool :=
  edge_missing e || edge_optional e || bool_decide (is_Some (edge_to e)).

Definition resolved_ok (n : Node) : bool :=
  match isGitNode (ONode n) with Returns _ => true | Raises _ => false end.

Definition calm : Prop :=
  args = [] ∧ long cfg = false ∧
  Forall (λ n, Forall (λ e, edge_wf e = true) (node_edgesOut n)) g ∧
  Forall (λ n, resolved_ok n = true) g.

(** ** The flat rendering, as the specification words it *)

Definition parseable_line (n : Node) (f : Fields) : string :=
  node_path n +:+
  (if long cfg
   then ":" +:+ node_pkgid n +:+
        (if bool_decide (node_realpath n ≠ node_path n)
         then ":" +:+ node_realpath n else "") +:+
        (if node_extraneous n then ":EXTRANEOUS" else "") +:+
        (if bool_decide (node_errors n ≠ []) &&
            bool_decide (node_path n ≠ resolve rt (globalDir cfg) "..")
         then ":ERROR" else "") +:+
        (if _invalid f then ":INVALID" else "")
   else "") +:+
  EOL rt.

(** The visited nodes that are marked included and have a path, in the
    order of their visits *)
Definition parseable_deps (st : State) : list nat :=
  omap (λ r, match r with
             | RNode n =>
                 if truthy (node_path (g !!! n)) && _include (fields_of st r)
                 then Some n else None
             | RObj _ => None
             end) (seen st).

Fixpoint concat_lines (l : list string) : string :=
  match l with
  | [] => ""
  | x :: l' => x +:+ concat_lines l'
  end.

Definition parseable_spec (st : State) : string :=
  trim rt (concat_lines
    ((λ n, parseable_line (g !!! n) (fields_of st (RNode n))) <$>
     parseable_deps st)).

(** ** The edge filters, as the specification words them *)

Definition dev_only : bool :=
  dev cfg || development cfg || test_dev (only cfg).
Definition prod_only : bool :=
  prod cfg || production cfg || test_prod (only cfg).
Definition link_only : bool := link cfg.

Definition root_keeps (e : Edge) : bool :=
  (if dev_only then edge_dev e else true) &&
  (if prod_only
   then negb (edge_dev e || edge_peer e || edge_peerOptional e) else true) &&
  (if link_only
   then match edge_to e with
        | Some t => node_isLink (g !!! t)
        | None => false
        end
   else true).

(** ** What the walk reaches *)

(** The edges for which [edgesToNodes] makes a placeholder *)
Definition unmet (e : Edge) : bool :=
  edge_missing e ||
  (edge_optional e && negb (bool_decide (is_Some (edge_to e)))).

(** The nodes that [getChildren] hands out for the node [n]: the targets of
    the kept edges that are not unmet, and the extraneous children. *)
Definition child_of (n m : nat) : Prop :=
  (∃ e, e ∈ node_edgesOut (g !!! n) ∧ edge_kept (RNode n) e = true ∧
        unmet e = false ∧ edge_to e = Some m) ∨
  (m ∈ node_children (g !!! n) ∧ node_extraneous (g !!! m) = true).

Inductive reach : nat → Prop :=
| reach_root : reach tree
| reach_step n m : reach n → child_of n m → reach m.

(** A filter that the node satisfies *)
Definition yes (c : Call bool) : bool :=
  match c with Returns b => b | Raises _ => false end.

(** What [filterByPositionalArgs] answers for an object; with filters, the
    call raises on an object made during the walk. *)
Definition included (r : Ref) : bool :=
  match args, r with
  | [], _ => true
  | _ :: _, RNode n =>
      existsb (λ spec, yes (node_satisfies (g !!! n) spec)) args
  | _ :: _, RObj _ => false
  end.

(** How [Array.prototype.some] asks the filters one after the other: it
    stops at the first that the node satisfies, or at the first that
    [satisfies] throws on. *)
Fixpoint asked (f : string → Call bool) (l : list string) : Call bool :=
  match l with
  | [] => Returns false
  | spec :: l' =>
      match f spec with
      | Raises e => Raises e
      | Returns true => Returns true
      | Returns false => asked f l'
      end
  end.

(** What the positional filters answer for a node *)
Definition answer (n : nat) : Call bool :=
  match args with
  | [] => Returns true
  | _ :: _ => asked (node_satisfies (g !!! n)) args
  end.

(** What the libraries can throw on this graph and these filters:
    [satisfies] on a filter, [npa] on the [resolved] of a node. *)
Definition raised (e : Exn) : Prop :=
  (∃ n spec, spec ∈ args ∧ node_satisfies (g !!! n) spec = Raises e) ∨
  (∃ n, isGitNode (ONode (g !!! n)) = Raises e).

(** A depth at which [getChildren] still hands out children *)
Definition within (k : nat) : Prop := depth_gt (Some k) (depth cfg) = false.

(** The placeholder that stands for the unmet edge [e] *)
Definition tagged (st : State) (y : Ref) (e : Edge) : Prop :=
  ∃ k, y = RObj k ∧
       synth st !! k =
         Some (Placeholder (edge_name e) (edge_name e +:+ "@" +:+ edge_spec e)) ∧
       _missing (fields_of st y) = Some (node_pkgid (g !!! edge_from e)).

Definition missing_problem (e : Edge) : string :=
  "missing: " +:+ (edge_name e +:+ "@" +:+ edge_spec e) +:+
  ", required by " +:+ node_pkgid (g !!! edge_from e).

Definition invalid_problem (n : nat) : string :=
  "invalid: " +:+ node_pkgid (g !!! n) +:+ " " +:+ node_path (g !!! n).

Definition extraneous_problem (n : nat) : string :=
  "extraneous: " +:+ node_pkgid (g !!! n) +:+ " " +:+ node_path (g !!! n).

(** A tree without problems: nothing extraneous, and every edge has its
    target and is neither missing nor invalid. *)
Definition healthy : Prop :=
  Forall (λ n, node_extraneous n = false ∧
               Forall (λ e, edge_missing e = false ∧ edge_invalid e = false ∧
                            is_Some (edge_to e)) (node_edgesOut n)) g.

(** ** How the marks, the items and the two Sets hang together *)

(** The [c]-th visited object was pushed under the item [p] *)
Definition under (st : State) (p c : nat) : bool :=
  bool_decide (_parent (fields_of st (seen st !!! c)) = Some p) &&
  _include (fields_of st (seen st !!! c)).

(** What holds of the store at every step of the walk *)
Record Shape (st : State) : Prop := {
  sh_root_parent : _parent (fields_of st (RNode tree)) = None;
  sh_root_include :
    _include (fields_of st (RNode tree)) = bool_decide (args = []);
  sh_root_depth :
    RNode tree ∈ seen st → _depth (fields_of st (RNode tree)) = Some 0;
  sh_include : ∀ r p, _parent (fields_of st r) = Some p →
               _include (fields_of st r) = included r;
  sh_parent : ∀ r p, _parent (fields_of st r) = Some p →
              ∃ n k, tv_seen st !! RNode n = Some p ∧
                     _depth (fields_of st (RNode n)) = Some k ∧ within k ∧
                     _depth (fields_of st r) = Some (S k);
  sh_index : ∀ r i, tv_seen st !! r = Some i → seen st !! i = Some r;
  sh_items : length (items st) = length (seen st);
  sh_nodes : ∀ p, p < length (items st) →
             nodes (items st !!! p) =
             filter (λ c, under st p c = true) (seq 0 (length (seen st)));
  sh_node_missing : ∀ n, _missing (fields_of st (RNode n)) = None
}.

(** What producing the children of a node leaves as it is *)
Record steady (st st' : State) : Prop := {
  sd_seen : seen st' = seen st;
  sd_problems : problems st' = problems st;
  sd_queue : queue st' = queue st;
  sd_tv_seen : tv_seen st' = tv_seen st;
  sd_items : item_core <$> items st' = item_core <$> items st;
  sd_synth : synth st `prefix_of` synth st';
  sd_depth : ∀ r, r ∈ seen st →
             _depth (fields_of st' r) = _depth (fields_of st r);
  sd_parent : ∀ r, r ∈ seen st →
              _parent (fields_of st' r) = _parent (fields_of st r);
  sd_include : ∀ r, r ∈ seen st →
               _include (fields_of st' r) = _include (fields_of st r);
  sd_missing : ∀ r, ref_ok st r →
               _missing (fields_of st' r) = _missing (fields_of st r);
  sd_hung : ∀ r, ref_ok st r → is_Some (_parent (fields_of st r)) →
            is_Some (_parent (fields_of st' r));
  sd_objs : ∀ k, k < length (synth st) →
            _dedupe (fields_of st' (RObj k)) = _dedupe (fields_of st (RObj k)) ∧
            _invalid (fields_of st' (RObj k)) =
              _invalid (fields_of st (RObj k)) ∧
            _type (fields_of st' (RObj k)) = _type (fields_of st (RObj k))
}.

(** Where an object made during the walk comes from, and the marks it
    carries: a placeholder stands for an unmet edge, kept by the filters, of
    a visited node; a deduped stand-in stands for a node that was visited
    before the stand-in was made. *)
Definition made_ok (st : State) (k : nat) (o : Synth) : Prop :=
  match o with
  | Placeholder name pkgid =>
      ∃ n e, RNode n ∈ seen st ∧ e ∈ node_edgesOut (g !!! n) ∧
             edge_kept (RNode n) e = true ∧ unmet e = true ∧
             name = edge_name e ∧
             pkgid = edge_name e +:+ "@" +:+ edge_spec e ∧
             _missing (fields_of st (RObj k)) =
               Some (node_pkgid (g !!! edge_from e)) ∧
             _invalid (fields_of st (RObj k)) = edge_invalid e ∧
             _type (fields_of st (RObj k)) = Some (edge_type e) ∧
             _dedupe (fields_of st (RObj k)) = false
  | Deduped p pkg =>
      ∃ n i, seen st !! i = Some (RNode n) ∧
             p = node_pkgid (g !!! n) ∧
             pkg = Some (node_package (g !!! n)) ∧
             (∀ j, seen st !! j = Some (RObj k) → i < j) ∧
             _dedupe (fields_of st (RObj k)) = true ∧
             _missing (fields_of st (RObj k)) = None ∧
             _invalid (fields_of st (RObj k)) = false
  end.

Definition Made (st : State) : Prop :=
  ∀ k o, synth st !! k = Some o → made_ok st k o.

(** What [edgesToNodes] hands out for an edge, the store being [st0] when
    the children were asked for: a new placeholder for an unmet edge, the
    target otherwise. *)
Definition made_for (st0 s : State) (e : Edge) (y : Ref) : Prop :=
  ref_ok s y ∧
  if unmet e then tagged s y e ∧ ¬ ref_ok st0 y
  else ∃ m, edge_to e = Some m ∧ y = RNode m.

(** What the second [.map] of [getChildren] hands out for [i]: a new object
    when [i] has been visited, [i] itself otherwise. *)
Definition kept_as (st0 : State) (i y : Ref) : Prop :=
  if decide (i ∈ seen st0) then is_node y = false else y = i.

(** The three forms of a collected problem, for the visited object [r] it
    was derived from: [r] is the placeholder of an unmet edge, kept by the
    filters, of a visited node; or a node that an invalid edge, kept by the
    filters, of a visited node leads to; or an extraneous node. *)
Definition problem_form (st : State) (r : Ref) (p : string) : Prop :=
  (∃ n e, RNode n ∈ seen st ∧ e ∈ node_edgesOut (g !!! n) ∧
          edge_kept (RNode n) e = true ∧ unmet e = true ∧
          tagged st r e ∧ p = missing_problem e) ∨
  (∃ n m e, r = RNode n ∧ RNode m ∈ seen st ∧
            e ∈ node_edgesOut (g !!! m) ∧ edge_kept (RNode m) e = true ∧
            unmet e = false ∧ edge_to e = Some n ∧ edge_invalid e = true ∧
            p = invalid_problem n) ∨
  (∃ n, r = RNode n ∧ node_extraneous (g !!! n) = true ∧
        p = extraneous_problem n).

(** What holds of the store between two turns of the driver *)
Record Walked (st : State) : Prop := {
  w_tv : ∀ r, r ∈ seen st → is_Some (tv_seen st !! r);
  w_root : RNode tree ∈ seen st ∨ (seen st = [] ∧ queue st = [RNode tree]);
  w_first : seen st = [] ∨ seen st !! 0 = Some (RNode tree);
  w_hung : ∀ r, r ∈ seen st ∨ r ∈ queue st → r ≠ RNode tree →
           is_Some (_parent (fields_of st r));
  w_reach : ∀ n, RNode n ∈ seen st ∨ RNode n ∈ queue st → reach n;
  w_closed : ∀ n k m, RNode n ∈ seen st →
             _depth (fields_of st (RNode n)) = Some k → within k →
             child_of n m → RNode m ∈ seen st ∨ RNode m ∈ queue st;
  w_unmet : ∀ n k e, RNode n ∈ seen st →
            _depth (fields_of st (RNode n)) = Some k → within k →
            e ∈ node_edgesOut (g !!! n) → edge_kept (RNode n) e = true →
            unmet e = true →
            ∃ y, (y ∈ seen st ∨ y ∈ queue st) ∧ tagged st y e ∧
                 ∃ p, tv_seen st !! RNode n = Some p ∧
                      _parent (fields_of st y) = Some p;
  w_reported : ∀ y e, y ∈ seen st → tagged st y e →
               missing_problem e ∈ problems st;
  w_extraneous : ∀ n, RNode n ∈ seen st → node_extraneous (g !!! n) = true →
                 invalid_problem n ∈ problems st ∨
                 extraneous_problem n ∈ problems st;
  w_source : ∀ p, p ∈ problems st → ∃ r, r ∈ seen st ∧ problem_form st r p;
  w_invalid : ∀ n, _invalid (fields_of st (RNode n)) = true →
              ∃ m e, RNode m ∈ seen st ∧ e ∈ node_edgesOut (g !!! m) ∧
                     edge_kept (RNode m) e = true ∧ unmet e = false ∧
                     edge_to e = Some n ∧ edge_invalid e = true;
  w_filter : args ≠ [] → synth st = [];
  w_long : long cfg = true → ∀ r, r ∈ seen st →
           is_Some (obj_package (deref st r));
  w_healthy : healthy →
              problems st = [] ∧
              ∀ r, is_missing (fields_of st r) = false ∧
                   _invalid (fields_of st r) = false;
  w_made : Made st;
  w_label : ∀ i k, seen st !! i = Some (RObj k) →
            ∃ problem,
              getHumanOutputItem (deref st (RObj k)) (fields_of st (RObj k)) =
              Ok (label (items st !!! i), problem)
}.

(** A computation that raises nothing but a [TypeError] or what a library
    throws *)
Definition tame {A} (c : M A) : Prop :=
  ∀ st e, c st = Throw e → e = TypeError ∨ raised e.

(** What a match does to the store in tree mode: the loop of
    [shouldInclude] marks the item in [_parent], an item has no [_parent]
    of its own, and the loop stops. *)
Definition mark_parent_item (node : Ref) (st : State) : State :=
  match _parent (fields_of st node) with
  | Some p => upd_items (alter (item_with_include true) p) st
  | None => st
  end.

(** ** A concrete runtime and small graphs *)

(** A runtime to run the report on: POSIX line ends and paths, no colours,
    no package from a repository, an [npa] that rejects a string with a
    space in it as an invalid tag name, and a collation that compares
    letters without their case first and puts the lower case first among
    equals, as the locale collations do. *)
Definition nl : string := String (Ascii.ascii_of_nat 10) "".

(** The layout of archy without unicode, for labels of one line *)
Fixpoint archy_lines (pre : string) (a : Archy) : string :=
  match a with
  | AString s => s +:+ nl
  | AObj lbl ns =>
      lbl +:+ nl +:+
      (fix kids (l : list Archy) : string :=
         match l with
         | [] => ""
         | x :: l' =>
             match l' with
             | [] => pre +:+ "`-- " +:+ archy_lines (pre +:+ "  ") x
             | _ :: _ =>
                 pre +:+ "+-- " +:+ archy_lines (pre +:+ "| ") x +:+ kids l'
             end
         end) ns
  end.

Definition is_space (c : Ascii.ascii) : bool :=
  let n := Ascii.nat_of_ascii c in
  (n =? 32) || ((9 <=? n) && (n <=? 13)).

Fixpoint trim_left (s : string) : string :=
  match s with
  | String c s' => if is_space c then trim_left s' else s
  | EmptyString => s
  end.

Fixpoint has_space (s : string) : bool :=
  match s with
  | String c s' => is_space c || has_space s'
  | EmptyString => false
  end.

Definition trim_ascii (s : string) : string :=
  String.rev (trim_left (String.rev (trim_left s))).

Definition fold_case (c : Ascii.ascii) : nat :=
  let n := Ascii.nat_of_ascii c in
  if (65 <=? n) && (n <=? 90) then n + 32 else n.

Fixpoint collate_primary (a b : string) : comparison :=
  match a, b with
  | EmptyString, EmptyString => Eq
  | EmptyString, String _ _ => Lt
  | String _ _, EmptyString => Gt
  | String x a', String y b' =>
      match Nat.compare (fold_case x) (fold_case y) with
      | Eq => collate_primary a' b'
      | c => c
      end
  end.

Definition collate (a b : string) : Z :=
  match collate_primary a b with
  | Lt => (-1)%Z
  | Gt => 1%Z
  | Eq =>
      match String.compare a b with
      | Lt => 1%Z
      | Gt => (-1)%Z
      | Eq => 0%Z
      end
  end.

Fixpoint after_slash (s : string) : string :=
  match s with
  | String c s' => if Nat.eqb (Ascii.nat_of_ascii c) 47 then s' else after_slash s'
  | EmptyString => s
  end.

(** The directory above an absolute path *)
Definition parent_dir (s : string) : string :=
  match String.rev (after_slash (String.rev s)) with
  | EmptyString => "/"
  | d => d
  end.

Definition posix : Runtime :=
  {| EOL := nl;
     resolve := λ a b, if String.eqb b ".." then parent_dir a
                       else a +:+ "/" +:+ b;
     trim := trim_ascii;
     archy := λ a _, archy_lines "" a;
     npa_type := λ s, if has_space s then Raises (LibError "EINVALIDTAGNAME")
                      else Returns "version";
     localeCompare := collate;
     chalk_yellow_bgBlack := λ s, s;
     chalk_red_bgBlack := λ s, s;
     chalk_green_bgBlack := λ s, s |}.

Definition defaults : Config :=
  {| color := false; depth := Infinity; long := false; parseable := false;
     unicode := false; dev := false; development := false; link := false;
     only := None; prod := false; production := false; prefix := "/p";
     globalDir := "/usr/lib/node_modules" |}.

Definition pkg (name version : string) : Package :=
  {| pkg_name := Some name; pkg_version := Some version;
     pkg_description := None; pkg_other_keys := 0 |}.

Definition dep (from : nat) (name spec : string) (to : nat) : Edge :=
  {| edge_name := name; edge_spec := spec; edge_type := TProd;
     edge_dev := false; edge_peer := false; edge_peerOptional := false;
     edge_optional := false; edge_missing := false; edge_invalid := false;
     edge_to := Some to; edge_from := from |}.

Definition missing_dep (from : nat) (name spec : string) : Edge :=
  {| edge_name := name; edge_spec := spec; edge_type := TProd;
     edge_dev := false; edge_peer := false; edge_peerOptional := false;
     edge_optional := false; edge_missing := true; edge_invalid := false;
     edge_to := None; edge_from := from |}.

(** [satisfies] on a node with the given name: a filter with a space in
    it is rejected as an invalid tag name, any other is compared with the
    name. *)
Definition satisfies_name (name spec : string) : Call bool :=
  if has_space spec then Raises (LibError "EINVALIDTAGNAME")
  else Returns (String.eqb spec name).

Definition installed (name version path : string) (root : bool)
    (edges : list Edge) (kids : list nat) : Node :=
  {| node_package := pkg name version; node_path := path;
     node_realpath := path; node_resolved := None; node_extraneous := false;
     node_isLink := false; node_isRoot := root; node_errors := [];
     node_edgesOut := edges; node_children := kids;
     node_satisfies := satisfies_name name |}.

(** A diamond: the root depends on a and b, which both depend on c. *)
Definition diamond : Graph :=
  [ installed "root" "1.0.0" "/p" true
      [dep 0 "a" "^1.0.0" 1; dep 0 "b" "^1.0.0" 2] [1; 2; 3];
    installed "a" "1.0.0" "/p/node_modules/a" false [dep 1 "c" "^1.0.0" 3] [];
    installed "b" "1.0.0" "/p/node_modules/b" false [dep 2 "c" "^1.0.0" 3] [];
    installed "c" "1.0.0" "/p/node_modules/c" false [] [] ].

(** A chain: the root depends on foo, foo on bar. *)
Definition chain : Graph :=
  [ installed "root" "1.0.0" "/p" true [dep 0 "foo" "^1.0.0" 1] [1; 2];
    installed "foo" "1.0.0" "/p/node_modules/foo" false
      [dep 1 "bar" "^1.0.0" 2] [];
    installed "bar" "1.0.0" "/p/node_modules/bar" false [] [] ].

(** c is a direct dependency, met again two levels down. *)
Definition later : Graph :=
  [ installed "root" "1.0.0" "/p" true
      [dep 0 "a" "^1.0.0" 1; dep 0 "c" "^1.0.0" 2] [1; 2];
    installed "a" "1.0.0" "/p/node_modules/a" false [dep 1 "z" "^1.0.0" 3] [];
    installed "c" "1.0.0" "/p/node_modules/c" false [] [];
    installed "z" "1.0.0" "/p/node_modules/z" false [dep 3 "c" "^1.0.0" 2] [] ].

(** The root misses its dependency bar. *)
Definition broken : Graph :=
  [ installed "root" "1.0.0" "/p" true [missing_dep 0 "bar" "^1.0.0"] [] ].

(** The root depends on B and on a. *)
Definition mixed_case : Graph :=
  [ installed "root" "1.0.0" "/p" true
      [dep 0 "B" "^1.0.0" 1; dep 0 "a" "^1.0.0" 2] [1; 2];
    installed "B" "1.0.0" "/p/node_modules/B" false [] [];
    installed "a" "1.0.0" "/p/node_modules/a" false [] [] ].

(** The root has no dependency; stray is installed all the same, and is no
    link. *)
Definition stray : Graph :=
  [ installed "root" "1.0.0" "/p" true [] [1];
    {| node_package := pkg "stray" "1.0.0";
       node_path := "/p/node_modules/stray";
       node_realpath := "/p/node_modules/stray"; node_resolved := None;
       node_extraneous := true; node_isLink := false; node_isRoot := false;
       node_errors := []; node_edgesOut := []; node_children := [];
       node_satisfies := satisfies_name "stray" |} ].

(** The root misses its dependency bar, and stray is installed without
    being a dependency. *)
Definition troubled : Graph :=
  [ installed "root" "1.0.0" "/p" true [missing_dep 0 "bar" "^1.0.0"] [1];
    {| node_package := pkg "stray" "1.0.0";
       node_path := "/p/node_modules/stray";
       node_realpath := "/p/node_modules/stray"; node_resolved := None;
       node_extraneous := true; node_isLink := false; node_isRoot := false;
       node_errors := []; node_edgesOut := []; node_children := [];
       node_satisfies := satisfies_name "stray" |} ].

(** foo was installed from a location that [npa] does not parse. *)
Definition unresolved : Graph :=
  [ installed "root" "1.0.0" "/p" true [dep 0 "foo" "^1.0.0" 1] [1];
    {| node_package := pkg "foo" "1.0.0";
       node_path := "/p/node_modules/foo";
       node_realpath := "/p/node_modules/foo";
       node_resolved := Some "foo bar";
       node_extraneous := false; node_isLink := false; node_isRoot := false;
       node_errors := []; node_edgesOut := []; node_children := [];
       node_satisfies := satisfies_name "foo" |} ].

Definition with_max_depth (d : MaxDepth) (c : Config) : Config :=
  {| color := color c; depth := d; long := long c; parseable := parseable c;
     unicode := unicode c; dev := dev c; development := development c;
     link := link c; only := only c; prod := prod c;
     production := production c; prefix := prefix c;
     globalDir := globalDir c |}.

Definition with_parseable (b : bool) (c : Config) : Config :=
  {| color := color c; depth := depth c; long := long c; parseable := b;
     unicode := unicode c; dev := dev c; development := development c;
     link := link c; only := only c; prod := prod c;
     production := production c; prefix := prefix c;
     globalDir := globalDir c |}.

Definition with_only (o : option string) (c : Config) : Config :=
  {| color := color c; depth := depth c; long := long c;
     parseable := parseable c; unicode := unicode c; dev := dev c;
     development := development c; link := link c; only := o; prod := prod c;
     production := production c; prefix := prefix c;
     globalDir := globalDir c |}.

Definition with_link (b : bool) (c : Config) : Config :=
  {| color := color c; depth := depth c; long := long c;
     parseable := parseable c; unicode := unicode c; dev := dev c;
     development := development c; link := b; only := only c; prod := prod c;
     production := production c; prefix := prefix c;
     globalDir := globalDir c |}.

Definition with_long (b : bool) (c : Config) : Config :=
  {| color := color c; depth := depth c; long := b;
     parseable := parseable c; unicode := unicode c; dev := dev c;
     development := development c; link := link c; only := only c;
     prod := prod c; production := production c; prefix := prefix c;
     globalDir := globalDir c |}.

(** The root's package.json did not parse; foo is installed. *)
Definition unparsed : Graph :=
  [ {| node_package := empty_package; node_path := "/p";
       node_realpath := "/p"; node_resolved := None;
       node_extraneous := false; node_isLink := false; node_isRoot := true;
       node_errors := [{| err_code := "EJSONPARSE";
                          err_path := "/p/package.json" |}];
       node_edgesOut := []; node_children := [1];
       node_satisfies := λ _, Returns false |};
    {| node_package := pkg "foo" "1.0.0";
       node_path := "/p/node_modules/foo";
       node_realpath := "/p/node_modules/foo"; node_resolved := None;
       node_extraneous := true; node_isLink := false; node_isRoot := false;
       node_errors := []; node_edgesOut := []; node_children := [];
       node_satisfies := satisfies_name "foo" |} ].

(** [--depth=0], [--parseable], [--only=devel], [--link], [--long] *)
Definition depth_zero : Config := with_max_depth (Finite 0) defaults.
Definition flat : Config := with_parseable true defaults.
Definition only_devel : Config := with_only (Some "devel") defaults.
Definition links_only : Config := with_link true defaults.
Definition long_form : Config := with_long true defaults.

(** * Reasoning about the walk *)

(** ** Runs *)

Lemma wp_bind {A B} E (c : M A) (k : A → M B) st Q :
  wp E (c st) (λ p, wp E (k p.1 p.2) Q) → wp E (bind c k st) Q.
Proof. unfold bind, wp. by destruct (c st) as [[a st']| |]. Qed.

Lemma wp_mono {A} (E E' : Prop) (r : Res A) (Q Q' : A → Prop) :
  wp E r Q → (E → E') → (∀ a, Q a → Q' a) → wp E' r Q'.
Proof. destruct r; simpl; auto. Qed.

Lemma wp_post {A} E (r : Res A) (Q Q' : A → Prop) :
  wp E r Q → (∀ a, Q a → Q' a) → wp E r Q'.
Proof. intros H HQ. by apply (wp_mono E E r Q Q'). Qed.

Lemma wp_Ok {A} E (r : Res A) Q a : wp E r Q → r = Ok a → Q a.
Proof. by intros H ->. Qed.

Lemma wp_mapM {A B} E (f : A → M B) (I : State → Prop)
    (R : State → State → Prop) (Q : B → State → Prop) l :
  (∀ st, R st st) →
  (∀ a b c, R a b → R b c → R a c) →
  (∀ y st st', Q y st → R st st' → Q y st') →
  (∀ st st', I st → R st st' → I st') →
  (∀ x st, x ∈ l → I st →
     wp E (f x st) (λ p, R st p.2 ∧ Q p.1 p.2)) →
  ∀ st, I st →
    wp E (mapM f l st)
      (λ p, R st p.2 ∧ Forall (λ y, Q y p.2) p.1 ∧ length p.1 = length l).
Proof.
  intros Hrefl Htrans Hstable HI Hstep.
  induction l as [|x l IH]; intros st Hst; simpl.
  { split_and!; [apply Hrefl | constructor | done]. }
  apply wp_bind. eapply wp_post.
  { apply Hstep; [left | done]. }
  intros [y st1] [HR1 HQ1]; simpl in *.
  apply wp_bind. eapply wp_post.
  { apply IH; [|by eapply HI].
    intros x' st' Hx'. apply Hstep. by right. }
  intros [ys st2] (HR2 & HQ2 & Hlen); simpl in *.
  split_and!; [by eapply Htrans | | by rewrite Hlen].
  constructor; [by eapply Hstable | done].
Qed.

Lemma wp_some {A} E (f : A → M bool) (I : State → Prop) l :
  (∀ x st, x ∈ l → I st → wp E (f x st) (λ p, I p.2)) →
  ∀ st, I st → wp E (some f l st) (λ p, I p.2).
Proof.
  intros Hstep. induction l as [|x l IH]; intros st Hst; simpl; [done |].
  apply wp_bind. eapply wp_post.
  { apply Hstep; [left | done]. }
  intros [[] st1] H1; simpl in *; [done |].
  apply IH; [|done]. intros x' st' Hx'. apply Hstep. by right.
Qed.

(** ** The store *)

Lemma fields_of_upd r f st r' :
  fields_of (upd_fields r f st) r' =
  if decide (r = r') then f (fields_of st r) else fields_of st r'.
Proof.
  unfold fields_of at 1. simpl. rewrite lookup_insert.
  by destruct (decide (r = r')).
Qed.

Lemma fields_of_upd_eq r f st :
  fields_of (upd_fields r f st) r = f (fields_of st r).
Proof. rewrite fields_of_upd. by rewrite decide_True. Qed.

Lemma fields_of_upd_ne r f st r' :
  r ≠ r' → fields_of (upd_fields r f st) r' = fields_of st r'.
Proof. intros. rewrite fields_of_upd. by rewrite decide_False. Qed.

Lemma set_add_elem {A} `{EqDecision A} (x y : A) s :
  y ∈ set_add x s ↔ y = x ∨ y ∈ s.
Proof.
  unfold set_add. destruct (decide (x ∈ s)).
  - split; [eauto | intros [-> | ?]; done].
  - rewrite elem_of_app, list_elem_of_singleton. tauto.
Qed.

Lemma set_add_NoDup {A} `{EqDecision A} (x : A) s :
  NoDup s → NoDup (set_add x s).
Proof.
  intros H. unfold set_add. destruct (decide (x ∈ s)); [done |].
  apply NoDup_app. split_and!; [done | | apply NoDup_singleton].
  intros y Hy ->%list_elem_of_singleton. done.
Qed.

Lemma no_parent_lookup (its : list Item) i :
  Forall no_parent its → item_parent (its !!! i) = None.
Proof.
  intros H. rewrite list_lookup_total_alt.
  destruct (its !! i) as [it|] eqn:E; simpl; [|done].
  by eapply (Forall_lookup_1 no_parent).
Qed.

Lemma no_parent_alter (f : Item → Item) (its : list Item) i :
  (∀ it, item_parent (f it) = item_parent it) →
  Forall no_parent its → Forall no_parent (alter f i its).
Proof.
  intros Hf H. apply Forall_alter; [done |].
  intros it _ Hit. unfold no_parent. by rewrite Hf.
Qed.

(** ** The sort *)

Lemma sort_insert_length {A} (cmp : A → A → Z) x l :
  length (sort_insert cmp x l) = S (length l).
Proof.
  induction l as [|y l IH]; simpl; [done |].
  case_bool_decide; simpl; [done | by rewrite IH].
Qed.

Lemma sort_length {A} (cmp : A → A → Z) l : length (sort cmp l) = length l.
Proof.
  induction l as [|x l IH]; simpl; [done |].
  by rewrite sort_insert_length, IH.
Qed.

Lemma sort_insert_perm {A} (cmp : A → A → Z) x l :
  sort_insert cmp x l ≡ₚ x :: l.
Proof.
  induction l as [|y l IH]; simpl; [done |].
  case_bool_decide; [done |]. rewrite IH. apply Permutation_swap.
Qed.

Lemma sort_perm {A} (cmp : A → A → Z) l : sort cmp l ≡ₚ l.
Proof.
  induction l as [|x l IH]; simpl; [done |].
  by rewrite sort_insert_perm, IH.
Qed.

Lemma sort_insert_sorted {A} (cmp : A → A → Z) x l :
  (∀ a b, (cmp a b ≤ 0)%Z ∨ (cmp b a ≤ 0)%Z) →
  Sorted (λ a b, (cmp a b ≤ 0)%Z) l →
  Sorted (λ a b, (cmp a b ≤ 0)%Z) (sort_insert cmp x l).
Proof.
  intros Htotal. induction 1 as [|y l Hs IH Hhd]; simpl.
  - repeat constructor.
  - case_bool_decide as Hxy.
    + constructor; [by constructor | by constructor].
    + constructor; [done |].
      destruct Hhd as [|z l' Hyz]; simpl.
      * constructor. by destruct (Htotal x y).
      * case_bool_decide; constructor; [| done].
        by destruct (Htotal x y).
Qed.

Lemma sort_sorted {A} (cmp : A → A → Z) l :
  (∀ a b, (cmp a b ≤ 0)%Z ∨ (cmp b a ≤ 0)%Z) →
  Sorted (λ a b, (cmp a b ≤ 0)%Z) (sort cmp l).
Proof.
  intros Htotal. induction l as [|x l IH]; simpl; [constructor |].
  by apply sort_insert_sorted.
Qed.

(** ** Steps of a run *)

Lemma wp_ret {A} E (a : A) st (Q : A * State → Prop) :
  Q (a, st) → wp E (ret a st) Q.
Proof. done. Qed.

Lemma wp_bind_ret {A B} E (a : A) (k : A → M B) st Q :
  wp E (k a st) Q → wp E (bind (ret a) k st) Q.
Proof. done. Qed.

Lemma wp_bind_get {B} E (k : State → M B) st Q :
  wp E (k st st) Q → wp E (bind get k st) Q.
Proof. done. Qed.

Lemma wp_bind_modify {B} E f (k : unit → M B) st Q :
  wp E (k tt (f st)) Q → wp E (bind (modify f) k st) Q.
Proof. done. Qed.

Lemma wp_bind_set_fields {B} E r f (k : unit → M B) st Q :
  wp E (k tt (upd_fields r f st)) Q → wp E (bind (set_fields r f) k st) Q.
Proof. done. Qed.

Lemma wp_bind_set_items {B} E f (k : unit → M B) st Q :
  wp E (k tt (upd_items f st)) Q → wp E (bind (set_items f) k st) Q.
Proof. done. Qed.

Lemma wp_bind_alloc {B} E o (k : Ref → M B) st Q :
  wp E (k (RObj (length (synth st))) (push_synth o st)) Q →
  wp E (bind (alloc o) k st) Q.
Proof. done. Qed.

Ltac wp_step :=
  lazymatch goal with
  | |- wp _ (bind (ret _) _ _) _ => apply wp_bind_ret
  | |- wp _ (bind get _ _) _ => apply wp_bind_get
  | |- wp _ (bind (set_fields _ _) _ _) _ => apply wp_bind_set_fields
  | |- wp _ (bind (set_items _) _ _) _ => apply wp_bind_set_items
  | |- wp _ (bind (alloc _) _ _) _ => apply wp_bind_alloc
  | |- wp _ (bind (modify _) _ _) _ => apply wp_bind_modify
  | |- wp _ (ret _ _) _ => apply wp_ret
  end.
Ltac wp_steps := repeat (wp_step; cbn beta iota; cbn [fst snd]).

Lemma fields_of_upd_items f st r :
  fields_of (upd_items f st) r = fields_of st r.
Proof. done. Qed.
Lemma fields_of_push_synth o st r :
  fields_of (push_synth o st) r =
  if decide (RObj (length (synth st)) = r) then no_fields else fields_of st r.
Proof.
  unfold fields_of at 1. simpl. rewrite lookup_delete.
  by destruct (decide (RObj (length (synth st)) = r)).
Qed.
Lemma fields_of_upd_seen f st r :
  fields_of (upd_seen f st) r = fields_of st r.
Proof. done. Qed.
Lemma fields_of_upd_problems f st r :
  fields_of (upd_problems f st) r = fields_of st r.
Proof. done. Qed.
Lemma fields_of_upd_queue f st r :
  fields_of (upd_queue f st) r = fields_of st r.
Proof. done. Qed.
Lemma fields_of_upd_tv_seen f st r :
  fields_of (upd_tv_seen f st) r = fields_of st r.
Proof. done. Qed.

Ltac fields_simpl :=
  repeat first
    [ rewrite fields_of_upd | rewrite fields_of_upd_items
    | rewrite fields_of_push_synth | rewrite fields_of_upd_seen
    | rewrite fields_of_upd_problems | rewrite fields_of_upd_queue
    | rewrite fields_of_upd_tv_seen ];
  repeat case_decide; simplify_eq; simpl.

Lemma upd_items_id st : upd_items (λ _, items st) st = st.
Proof. by destruct st. Qed.

(** ** Items *)

Lemma core_length (a b : list Item) :
  item_core <$> a = item_core <$> b → length a = length b.
Proof. intros H. by rewrite <- (length_fmap item_core a), H, length_fmap. Qed.

Lemma core_lookup (a b : list Item) k x :
  item_core <$> a = item_core <$> b → a !! k = Some x →
  ∃ y, b !! k = Some y ∧ item_core x = item_core y.
Proof.
  intros H Hx.
  assert ((item_core <$> b) !! k = Some (item_core x)) as Hb.
  { by rewrite <- H, list_lookup_fmap, Hx. }
  rewrite list_lookup_fmap in Hb.
  destruct (b !! k) as [y|]; simpl in Hb; [|done].
  exists y. split; [done | congruence].
Qed.

Lemma core_no_parent (a b : list Item) :
  item_core <$> a = item_core <$> b →
  Forall no_parent b → Forall no_parent a.
Proof.
  intros H Hb. apply Forall_lookup. intros k x Hx.
  destruct (core_lookup a b k x H Hx) as (y & Hy & Hc).
  pose proof (Forall_lookup_1 _ _ _ _ Hb Hy) as Hp.
  unfold no_parent in *.
  change (item_parent x) with (item_core x).2. by rewrite Hc.
Qed.

Lemma core_alter (f : Item → Item) (l : list Item) i :
  (∀ it, item_core (f it) = item_core it) →
  item_core <$> alter f i l = item_core <$> l.
Proof.
  intros Hf. revert i. induction l as [|x l IH]; intros [|i]; simpl; [done.. | |].
  - by rewrite Hf.
  - f_equal. apply IH.
Qed.

(** ** The invariants *)

Lemma ref_ok_mono st st' r :
  length (synth st) ≤ length (synth st') → ref_ok st r → ref_ok st' r.
Proof. destruct r; simpl; [done | lia]. Qed.

Lemma grows_refl st : grows st st.
Proof. split; auto. Qed.

Lemma grows_trans a b c : grows a b → grows b c → grows a c.
Proof.
  intros [] []. split; try (etrans; eassumption); auto.
  - intros r Hr Hd. apply g_has_depth1; [by eapply ref_ok_mono | auto].
  - intros r Hr Hd. apply g_placed1; [by eapply ref_ok_mono | auto].
  - intros r k Hk. destruct (g_bound1 r k Hk) as [Hb | ?]; auto.
  - intros r p Hp. destruct (g_parent1 r p Hp) as [Hb | Hlt]; [auto |].
    right. by rewrite <- (core_length _ _ g_items0).
  - intros r Hr. rewrite g_seen_depth1, g_seen_depth0; [done.. |].
    by rewrite g_seen0.
Qed.

(** A reference keeps its depth and parent, or is a child that was just
    placed, or is a new object without either. *)
Lemma grows_intro st st' :
  item_core <$> items st' = item_core <$> items st →
  seen st' = seen st → problems st' = problems st →
  queue st' = queue st → tv_seen st' = tv_seen st →
  length (synth st) ≤ length (synth st') →
  (∀ r, (_depth (fields_of st' r) = _depth (fields_of st r) ∧
         _parent (fields_of st' r) = _parent (fields_of st r)) ∨
        ((r ∉ seen st) ∧
         (∃ k, _depth (fields_of st' r) = Some k ∧ bound k) ∧
         (∃ p, _parent (fields_of st' r) = Some p ∧ p < length (items st))) ∨
        (¬ ref_ok st r ∧ (r ∉ seen st) ∧
         _depth (fields_of st' r) = None ∧
         _parent (fields_of st' r) = None)) →
  grows st st'.
Proof.
  intros Hit Hse Hpr Hqu Htv Hsy Hf. split; try done.
  - intros r Hok Hr. unfold has_depth in *.
    destruct (Hf r) as [[-> _] | [(_ & (k & -> & _) & _) | (Hn & _)]];
      [done | by eexists | done].
  - intros r Hok Hr. unfold placed, has_depth in *.
    destruct (Hf r) as [[-> ->] | [(_ & (k & -> & _) & _) | (Hn & _)]];
      [done | right; by eexists | done].
  - intros r k Hk.
    destruct (Hf r) as [[<- _] | [(_ & (k' & Hk' & Hb) & _) | (_ & _ & Hn & _)]];
      [by left | right; congruence | congruence].
  - intros r p Hp.
    destruct (Hf r) as [[_ <-] | [(_ & _ & (p' & Hp' & Hlt)) | (_ & _ & _ & Hn)]];
      [by left | right; congruence | congruence].
  - intros r Hr.
    destruct (Hf r) as [[-> _] | [(Hn & _) | (_ & Hn & _)]]; done.
Qed.

Lemma grows_Inv st st' : Inv st → grows st st' → Inv st'.
Proof.
  intros [] []. split.
  - by eapply core_no_parent.
  - intros k it c Hk Hc.
    destruct (core_lookup _ _ _ _ g_items0 Hk) as (it0 & Hk0 & Hcore).
    assert (nodes it = nodes it0) as Hn.
    { change (nodes it) with (item_core it).1.2. by rewrite Hcore. }
    rewrite Hn in Hc. rewrite (core_length _ _ g_items0). eauto.
  - intros r p Hp. rewrite (core_length _ _ g_items0).
    destruct (g_parent0 r p Hp); eauto.
  - by rewrite g_seen0.
  - by rewrite g_problems0.
  - intros r k Hk. destruct (g_bound0 r k Hk); eauto.
  - intros r Hr. rewrite g_seen0, g_queue0 in Hr.
    eapply ref_ok_mono; eauto.
  - intros r Hr. rewrite g_seen0 in Hr. auto.
  - intros r Hr. rewrite g_queue0 in Hr. auto.
Qed.

Lemma grows_LInv node res st st' :
  LInv node res st → grows st st' → LInv node res st'.
Proof.
  intros (HI & Hn & Hres & k & Hk & Hgt) Hg. split_and!.
  - by eapply grows_Inv.
  - by rewrite (g_seen _ _ Hg).
  - by rewrite (core_length _ _ (g_items _ _ Hg)).
  - exists k. by rewrite (g_seen_depth _ _ Hg).
Qed.

Lemma depth_gt_bound k :
  depth_gt (Some k) (depth cfg) = false → bound (S k).
Proof.
  unfold depth_gt, bound. destruct (depth cfg) as [d|]; [|done].
  case_bool_decide; [done | lia].
Qed.

Lemma bound_0 : bound 0.
Proof. unfold bound. destruct (depth cfg); [lia | done]. Qed.

Lemma fresh_not_seen st : Inv st → RObj (length (synth st)) ∉ seen st.
Proof.
  intros HI Hin. pose proof (inv_fresh _ HI _ (or_introl Hin)) as Hok.
  simpl in Hok. lia.
Qed.

(** ** The steps still to come *)

Lemma weight_from_insert_le m r x k l :
  weight_from (<[r := x]> m) k l ≤ weight_from m k l.
Proof.
  revert k. induction l as [|n l IH]; intros k; simpl; [done |].
  specialize (IH (S k)).
  destruct (decide (r = RNode k)) as [->|Hne].
  - rewrite lookup_insert_eq. destruct (m !! RNode k); lia.
  - rewrite lookup_insert_ne by done. lia.
Qed.

Lemma weight_from_insert m n x k l :
  m !! RNode n = None → k ≤ n →
  weight_from (<[RNode n := x]> m) k l +
    out_degree (default empty_node (l !! (n - k))) ≤ weight_from m k l.
Proof.
  intros Hm. revert k. induction l as [|nd l IH]; intros k Hk; simpl.
  { unfold out_degree. simpl. lia. }
  destruct (decide (n = k)) as [->|Hne].
  - rewrite lookup_insert_eq, Hm, Nat.sub_diag. simpl.
    pose proof (weight_from_insert_le m (RNode k) x (S k) l). lia.
  - rewrite lookup_insert_ne by congruence.
    replace (n - k) with (S (n - S k)) by lia. simpl.
    specialize (IH (S k)). lia.
Qed.

Lemma weight_from_empty k l : weight_from ∅ k l = sum_list (out_degree <$> l).
Proof.
  revert k. induction l as [|n l IH]; intros k; simpl; [done |].
  by rewrite lookup_empty, IH.
Qed.

Lemma measure_visited st r res kids :
  tv_seen st !! r = None →
  length kids ≤ match r with
                | RNode n => out_degree (g !!! n)
                | RObj _ => 0
                end →
  length (queue st ++ kids) + weight_from (<[r := res]> (tv_seen st)) 0 g ≤
  measure st.
Proof.
  intros Hr Hk. unfold measure. rewrite length_app. destruct r as [n|k].
  - pose proof (weight_from_insert (tv_seen st) n res 0 g Hr) as H.
    rewrite Nat.sub_0_r in H. rewrite list_lookup_total_alt in Hk.
    change (@inhabitant Node _) with empty_node in Hk. lia.
  - pose proof (weight_from_insert_le (tv_seen st) (RObj k) res 0 g). lia.
Qed.

(** ** The callbacks of the walk *)

Section Throws.

(** [E] holds whenever an exception can arise. *)
Variable E : Prop.
Hypothesis HE : ¬ calm → E.

Lemma mark_parents_None fuel : mark_parents fuel None = ret tt.
Proof. by destruct fuel. Qed.

Lemma mark_parents_wp fuel p st :
  Forall no_parent (items st) →
  wp E (mark_parents (S fuel) p st)
    (λ q, ∃ its, q.2 = upd_items (λ _, its) st ∧
                 item_core <$> its = item_core <$> items st).
Proof.
  intros Hits. destruct p as [i|]; simpl.
  - wp_steps.
    rewrite no_parent_lookup by (by apply no_parent_alter).
    rewrite mark_parents_None. wp_steps.
    eexists. split; [done |]. by apply core_alter.
  - exists (items st). by rewrite upd_items_id.
Qed.

Lemma shouldInclude_wp node spec st :
  args ≠ [] → Forall no_parent (items st) →
  wp E (shouldInclude node spec st)
    (λ q, ∃ its, q.2 = upd_items (λ _, its) st ∧
                 item_core <$> its = item_core <$> items st).
Proof.
  intros Hargs Hits. unfold shouldInclude. wp_steps.
  destruct (deref st node) as [n|s].
  - destruct (node_satisfies n spec) as [[]|e].
    + destruct (parseable cfg); cbn [negb].
      * wp_steps. exists (items st). by rewrite upd_items_id.
      * apply wp_bind. eapply wp_post; [by apply mark_parents_wp |].
        intros [[] st'] H. cbn [fst snd] in *. by wp_steps.
    + wp_steps. exists (items st). by rewrite upd_items_id.
    + simpl. apply HE. intros (? & _). done.
  - simpl. apply HE. intros (? & _). done.
Qed.

Lemma filterByPositionalArgs_wp node st :
  Forall no_parent (items st) →
  wp E (filterByPositionalArgs node st)
    (λ q, ∃ its, q.2 = upd_items (λ _, its) st ∧
                 item_core <$> its = item_core <$> items st).
Proof.
  intros Hits. unfold filterByPositionalArgs.
  destruct args as [|a l] eqn:Hargs.
  { wp_steps. exists (items st). by rewrite upd_items_id. }
  rewrite <- Hargs. assert (args ≠ []) as Hne by (by rewrite Hargs).
  clear Hargs.
  eapply (wp_some E _
    (λ s, ∃ its, s = upd_items (λ _, its) st ∧
                 item_core <$> its = item_core <$> items st)).
  - intros x s _ (its & -> & Hits').
    eapply wp_post.
    { apply shouldInclude_wp; [done |]. simpl. by eapply core_no_parent. }
    intros [b s'] (its' & -> & Hc). cbn [fst snd]. exists its'.
    split; [done |]. simpl in Hc. by rewrite Hc.
  - exists (items st). by rewrite upd_items_id.
Qed.

Lemma edgesToNodes_wp e st :
  (edge_wf e = false → E) → Inv st →
  wp E (edgesToNodes e st) (λ p, grows st p.2 ∧ ref_ok p.2 p.1).
Proof.
  intros Hwf HI. unfold edgesToNodes. cbn zeta.
  destruct (edge_missing e ||
            edge_optional e && negb (bool_decide (is_Some (edge_to e))))
    eqn:Hm.
  - apply wp_bind. wp_steps. split.
    + apply grows_intro; simpl; try done.
      * rewrite length_app. lia.
      * intros r. destruct (decide (RObj (length (synth st)) = r)) as [<-|Hr].
        -- right. right. split_and!.
           ++ simpl. lia.
           ++ by apply fresh_not_seen.
           ++ by fields_simpl.
           ++ by fields_simpl.
        -- left. by split; fields_simpl.
    + simpl. rewrite length_app. simpl. lia.
  - wp_steps. destruct (edge_to e) as [t|] eqn:Ht; simpl.
    + wp_steps. split; [|done].
      apply grows_intro; simpl; try done.
      intros r. left. by split; fields_simpl.
    + apply Hwf. unfold edge_wf. rewrite Ht.
      destruct (edge_missing e), (edge_optional e); done.
Qed.

Lemma augment_tail_wp node res i st :
  i ∉ seen st → ref_ok st i → LInv node res st →
  wp E ((set_fields i (with_parent (Some res)) ;;
         let* inc := filterByPositionalArgs i in
         set_fields i (with_include inc) ;;
         let* st := get in
         set_fields i (with_depth (S <$> _depth (fields_of st node))) ;;
         ret i) st)
    (λ p, grows st p.2 ∧ ref_ok p.2 p.1 ∧ has_depth p.2 p.1).
Proof.
  intros Hni Hok (HI & Hn & Hres & k & Hk & Hgt).
  wp_steps. apply wp_bind. eapply wp_post.
  { apply filterByPositionalArgs_wp. simpl. apply HI. }
  intros [inc st'] (its & -> & Hits). cbn [fst snd]. wp_steps.
  assert (i ≠ node) as Hne by (by intros ->).
  split_and!.
  - apply grows_intro; simpl; try done.
    intros r. destruct (decide (i = r)) as [<-|Hr].
    + right. left. split_and!; [done | |].
      * exists (S k). fields_simpl.
        rewrite Hk. split; [done | by apply depth_gt_bound].
      * exists res. by fields_simpl.
    + left. by split; fields_simpl.
  - by destruct i.
  - cbn [fst snd]. unfold has_depth. fields_simpl. rewrite Hk. by eexists.
Qed.

Lemma augment_wp node res i st :
  ref_ok st i → LInv node res st →
  wp E (augment node res i st)
    (λ p, grows st p.2 ∧ ref_ok p.2 p.1 ∧ has_depth p.2 p.1).
Proof.
  intros Hok HL. unfold augment. wp_steps.
  destruct (decide (i ∈ seen st)) as [Hin|Hin]; cbn iota.
  - apply wp_bind. do 3 (wp_step; cbn beta iota; cbn [fst snd]).
    set (o := Deduped _ _).
    set (r := RObj (length (synth st))).
    set (st1 := upd_fields r (with_dedupe true) (push_synth o st)).
    assert (grows st st1) as Hg.
    { apply grows_intro; simpl; try done.
      - rewrite length_app. lia.
      - intros r'. destruct (decide (r = r')) as [<-|Hr].
        + right. right. split_and!.
          * simpl. lia.
          * apply fresh_not_seen, HL.
          * subst st1 r. by fields_simpl.
          * subst st1 r. by fields_simpl.
        + left. subst st1 r. by split; fields_simpl. }
    eapply wp_post.
    { apply augment_tail_wp.
      - simpl. apply fresh_not_seen, HL.
      - simpl. rewrite length_app. simpl. lia.
      - by eapply grows_LInv. }
    intros [r' st'] (Hg' & ? & ?). split_and!; [|done..].
    by eapply grows_trans.
  - wp_step. by apply augment_tail_wp.
Qed.

Lemma calm_edges n e :
  calm → e ∈ node_edgesOut (g !!! n) → edge_wf e = true.
Proof.
  intros (_ & _ & Hg & _) He. rewrite list_lookup_total_alt in He.
  destruct (g !! n) as [nd|] eqn:Hn; simpl in He.
  - apply list_elem_of_lookup_2 in Hn.
    rewrite Forall_forall in Hg. specialize (Hg nd Hn).
    rewrite Forall_forall in Hg. by apply Hg.
  - by apply not_elem_of_nil in He.
Qed.

Lemma getChildren_wp node res st :
  Inv st → node ∈ seen st → res < length (items st) →
  wp E (getChildren node res st)
    (λ p, grows st p.2 ∧
          Forall (λ r, ref_ok p.2 r ∧ has_depth p.2 r) p.1 ∧
          length p.1 ≤ match node with
                       | RNode n => out_degree (g !!! n)
                       | RObj _ => 0
                       end).
Proof.
  intros HI Hseen Hres. unfold getChildren. wp_step.
  destruct node as [n|k]; [|by wp_steps; split_and!; [apply grows_refl|..]].
  destruct (depth_gt _ _) eqn:Hgt.
  { wp_steps. split_and!; [apply grows_refl | done | simpl; lia]. }
  destruct (inv_seen_depth _ HI _ Hseen) as [k Hk]. rewrite Hk in Hgt.
  assert (LInv (RNode n) res st) as HL by (split_and!; eauto).
  apply wp_bind. eapply wp_post.
  { apply (wp_mapM E edgesToNodes (LInv (RNode n) res) grows
             (λ r s, ref_ok s r)).
    - apply grows_refl.
    - apply grows_trans.
    - intros y s s' Hy Hg. eapply ref_ok_mono; [apply Hg | done].
    - intros s s'. apply grows_LInv.
    - intros e s [_ He]%list_elem_of_filter HLs.
      apply edgesToNodes_wp; [|apply HLs]. intros Hwf. apply HE. intros Hc.
      by rewrite (calm_edges n e Hc He) in Hwf.
    - done. }
  intros [l1 st1] (Hg1 & Hl1 & Hlen1). cbn [fst snd] in *. cbn zeta.
  set (l2 := (l1 ++ _)%list).
  apply wp_bind. eapply wp_post.
  { apply (wp_mapM E (augment (RNode n) res)
             (λ s, LInv (RNode n) res s ∧ Forall (ref_ok s) l2) grows
             (λ r s, ref_ok s r ∧ has_depth s r)).
    - apply grows_refl.
    - apply grows_trans.
    - intros y s s' [Hy Hd] Hg. split.
      + eapply ref_ok_mono; [apply Hg | done].
      + by apply Hg.
    - intros s s' [HLs Hf] Hg. split; [by eapply grows_LInv |].
      eapply Forall_impl; [done |]. intros r Hr.
      eapply ref_ok_mono; [apply Hg | done].
    - intros x s Hx [HLs Hf]. eapply wp_post.
      { apply augment_wp; [|done]. rewrite Forall_forall in Hf. by apply Hf. }
      intros [y s'] (? & ? & ?). done.
    - split; [by eapply grows_LInv |]. apply Forall_app. split; [done |].
      apply Forall_fmap, Forall_true. done. }
  intros [l3 st3] (Hg3 & Hl3 & Hlen3). cbn [fst snd] in *. wp_steps.
  split_and!.
  - by eapply grows_trans.
  - by rewrite sort_perm.
  - rewrite sort_length, Hlen3. subst l2.
    rewrite length_app, length_fmap, Hlen1. unfold out_degree.
    pose proof (length_filter (λ e, edge_kept (RNode n) e = true)
                  (node_edgesOut (g !!! n))).
    pose proof (length_filter (λ c, node_extraneous (g !!! c) = true)
                  (node_children (g !!! n))).
    lia.
Qed.

Lemma getHumanOutputItem_Ok o f x :
  getHumanOutputItem o f = Ok x → x.2 = problem_of o f.
Proof.
  unfold getHumanOutputItem. destruct (isGitNode o); [|done].
  destruct (long cfg); [|by intros [= <-]].
  destruct (obj_package o); [by intros [= <-] | done].
Qed.

Lemma getHumanOutputItem_Throw o f e :
  getHumanOutputItem o f = Throw e →
  isGitNode o = Raises e ∨
  (long cfg = true ∧ obj_package o = None ∧ e = TypeError).
Proof.
  unfold getHumanOutputItem. destruct (isGitNode o); [|intros [= ->]; by left].
  destruct (long cfg); [|done].
  destruct (obj_package o); [done |]. intros [= <-]. by right.
Qed.

Lemma getHumanOutputItem_Diverge o f : getHumanOutputItem o f ≠ Diverge.
Proof.
  unfold getHumanOutputItem. destruct (isGitNode o); [|done].
  destruct (long cfg); [|done].
  by destruct (obj_package o).
Qed.

Lemma calm_resolved st r e : calm → isGitNode (deref st r) ≠ Raises e.
Proof.
  intros (_ & _ & _ & Hg). destruct r as [n|k]; [|done]. simpl.
  rewrite list_lookup_total_alt.
  destruct (g !! n) as [nd|] eqn:Hn; simpl; [|done].
  apply list_elem_of_lookup_2 in Hn.
  rewrite Forall_forall in Hg. specialize (Hg nd Hn).
  unfold resolved_ok in Hg. by destruct (isGitNode (ONode nd)).
Qed.

(** The store after a visit, whatever the label and the problem were: the
    new item is the last one, and it went under the parent's item or
    nowhere. *)
Lemma Inv_visit st st' r it :
  Inv st → ref_ok st r → placed st r →
  nodes it = [] → item_parent it = None →
  (items st' = (items st ++ [it])%list ∨
   ∃ p, _parent (fields_of st r) = Some p ∧
        items st' = alter (item_push (length (items st))) p
                      (items st ++ [it])%list) →
  seen st' = set_add r (seen st) →
  NoDup (problems st') →
  queue st' = queue st →
  synth st' = synth st →
  (∀ r', fields_of st' r' =
         match _parent (fields_of st r) with
         | None => if decide (r = r') then with_depth (Some 0) (fields_of st r)
                   else fields_of st r'
         | Some _ => fields_of st r'
         end) →
  Inv st' ∧ r ∈ seen st' ∧ has_depth st' r.
Proof.
  intros HI Hok Hpl Hn Hip Hit Hse Hpr Hqu Hsy Hf.
  assert (∀ r', has_depth st r' → has_depth st' r') as Hmono.
  { intros r' Hr'. unfold has_depth in *. rewrite Hf.
    destruct (_parent (fields_of st r)); [done |].
    case_decide; [by eexists | done]. }
  assert (has_depth st' r) as Hd.
  { destruct Hpl as [Hp | Hd]; [|by apply Hmono].
    unfold has_depth. rewrite Hf, Hp, decide_True by done. by eexists. }
  assert (∀ r', _parent (fields_of st' r') = _parent (fields_of st r'))
    as Hpar.
  { intros r'. rewrite Hf. destruct (_parent (fields_of st r)) eqn:Hp; [done |].
    case_decide; [by subst | done]. }
  assert (Forall no_parent (items st ++ [it])%list) as Hnp.
  { apply Forall_app. split; [apply HI | by repeat constructor]. }
  assert (∀ k x c, (items st ++ [it])%list !! k = Some x → c ∈ nodes x →
            k < c < length (items st)) as Hfw.
  { intros k x c Hk Hc. apply lookup_app_Some in Hk as [Hk | [_ Hk]].
    - by eapply (inv_forward _ HI).
    - apply list_lookup_singleton_Some in Hk as [_ <-].
      rewrite Hn in Hc. by apply not_elem_of_nil in Hc. }
  assert (length (items st') = S (length (items st))) as Hlen.
  { destruct Hit as [-> | (p & _ & ->)];
      rewrite ?length_alter, length_app; simpl; lia. }
  split_and!; [|rewrite Hse; apply set_add_elem; by left | done].
  split.
  - destruct Hit as [-> | (p & _ & ->)]; [done |]. by apply no_parent_alter.
  - intros k x c Hk Hc. rewrite Hlen.
    destruct Hit as [Hit | (p & Hp & Hit)]; rewrite Hit in Hk.
    + specialize (Hfw k x c Hk Hc). lia.
    + pose proof (inv_parents _ HI _ _ Hp) as Hlt.
      rewrite list_lookup_alter in Hk. case_decide as Hkp.
      * subst k.
        destruct ((items st ++ [it])%list !! p) as [y|] eqn:Hy; [|done].
        injection Hk as <-. simpl in Hc.
        apply elem_of_app in Hc as [Hc | ->%list_elem_of_singleton]; [|lia].
        specialize (Hfw p y c Hy Hc). lia.
      * specialize (Hfw k x c Hk Hc). lia.
  - intros r' p. rewrite Hpar, Hlen. intros Hp.
    pose proof (inv_parents _ HI _ _ Hp). lia.
  - rewrite Hse. apply set_add_NoDup, HI.
  - done.
  - intros r' k. rewrite Hf.
    destruct (_parent (fields_of st r)); [apply HI |].
    case_decide; [|apply HI]. simpl. intros [= <-]. apply bound_0.
  - intros r'. rewrite Hse, Hqu, set_add_elem. unfold ref_ok. rewrite Hsy.
    intros [[-> | Hs] | Hq]; [done | |]; apply (inv_fresh _ HI); auto.
  - intros r'. rewrite Hse, set_add_elem.
    intros [-> | Hs]; [done |]. by apply Hmono, HI.
  - intros r'. rewrite Hqu. intros Hq.
    destruct (inv_queue _ HI _ Hq) as [Hp | Hd']; [|right; by apply Hmono].
    destruct (decide (r = r')) as [<-|Hne]; [by right |].
    left. by rewrite Hpar.
Qed.

Lemma visit_wp r st :
  Inv st → ref_ok st r → placed st r →
  wp E (visit r st)
    (λ p, (Inv p.2 ∧ r ∈ seen p.2 ∧ has_depth p.2 r) ∧
          p.1 < length (items p.2) ∧
          queue p.2 = queue st ∧ tv_seen p.2 = tv_seen st).
Proof.
  intros HI Hok Hpl. unfold visit. do 2 wp_step.
  destruct (getHumanOutputItem _ _) as [[lbl problem]| e |] eqn:HG.
  - cbn zeta. wp_step.
    set (it := {| label := lbl; nodes := []; item_include := false;
                  item_parent := None |}).
    assert (∀ st1 : State,
      synth st1 = synth st → queue st1 = queue st →
      tv_seen st1 = tv_seen st → seen st1 = set_add r (seen st) →
      NoDup (problems st1) → items st1 = (items st ++ [it])%list →
      (∀ r', fields_of st1 r' = fields_of st r') →
      wp E
        ((let* st0 := get in
          match _include (fields_of st0 r), _parent (fields_of st0 r) with
          | true, Some p => set_items (alter (item_push (length (items st))) p)
          | _, _ => ret tt
          end ;;
          let* st2 := get in
          match _parent (fields_of st2 r) with
          | Some _ => ret tt
          | None => set_fields r (with_depth (Some 0))
          end ;; ret (length (items st))) st1)
        (λ p, (Inv p.2 ∧ r ∈ seen p.2 ∧ has_depth p.2 r) ∧
              p.1 < length (items p.2) ∧
              queue p.2 = queue st ∧ tv_seen p.2 = tv_seen st)) as Htail.
    { intros st1 Hsy Hqu Htv Hse Hpr Hit Hf. wp_step. rewrite !Hf.
      destruct (_include (fields_of st r)) eqn:Hinc,
               (_parent (fields_of st r)) as [p|] eqn:Hpar;
        wp_steps; rewrite ?fields_of_upd_items, ?Hf, ?Hpar; wp_steps;
        (split; [|split; [|by simpl]]);
        try (simpl; rewrite ?length_alter, Hit, length_app; simpl; lia);
        (apply (Inv_visit st _ r it); simpl; try done);
        try (by left);
        try (right; exists p; by rewrite Hit);
        intros r'; rewrite ?Hpar; fields_simpl; by rewrite ?Hf. }
    destruct (truthy problem); cbn iota; wp_step; apply Htail; simpl;
      try done; try apply HI.
    apply set_add_NoDup, HI.
  - simpl. apply HE. intros Hc.
    apply getHumanOutputItem_Throw in HG as [HG | (Hl & _)].
    + by apply (calm_resolved _ _ _ Hc) in HG.
    + destruct Hc as (_ & Hl' & _). congruence.
  - by apply getHumanOutputItem_Diverge in HG.
Qed.

Lemma Inv_upd_tv_seen f st : Inv st → Inv (upd_tv_seen f st).
Proof. intros []. by split. Qed.

Lemma visitNode_wp r st :
  Inv st → ref_ok st r → placed st r →
  wp E (visitNode r st)
    (λ p, Inv p.2 ∧ measure p.2 ≤ measure st ∧
          is_Some (tv_seen p.2 !! r) ∧
          (∀ r', is_Some (tv_seen st !! r') → is_Some (tv_seen p.2 !! r')) ∧
          (∀ r', r' ∈ queue st → r' ∈ queue p.2)).
Proof.
  intros HI Hok Hpl. unfold visitNode. wp_step.
  destruct (tv_seen st !! r) as [x|] eqn:Hr.
  { wp_steps. split_and!; [done | done | by rewrite Hr | done | done]. }
  apply wp_bind. eapply wp_post; [by apply visit_wp |].
  intros [res st1] ((HI1 & Hs1 & Hd1) & Hres & Hq1 & Ht1). cbn [fst snd] in *.
  wp_step. apply wp_bind. eapply wp_post.
  { apply getChildren_wp; [by apply Inv_upd_tv_seen | done | done]. }
  intros [kids st2] (Hg & Hk & Hlen). cbn [fst snd] in *. wp_steps.
  set (st1' := upd_tv_seen <[r:=res]> st1) in *.
  assert (Inv st2) as HI2.
  { eapply grows_Inv; [|done]. by apply Inv_upd_tv_seen. }
  split_and!.
  - split; simpl; try apply HI2.
    + intros r' [Hs | [Hq | Hq]%elem_of_app].
      * apply (inv_fresh _ HI2). auto.
      * apply (inv_fresh _ HI2). auto.
      * rewrite Forall_forall in Hk. by apply Hk.
    + intros r' [Hq | Hq]%elem_of_app.
      * by apply (inv_queue _ HI2).
      * right. rewrite Forall_forall in Hk. by apply Hk.
  - unfold measure at 1. simpl.
    rewrite (g_queue _ _ Hg), (g_tv_seen _ _ Hg). simpl.
    rewrite Hq1, Ht1. by apply measure_visited.
  - simpl. rewrite (g_tv_seen _ _ Hg). simpl. by rewrite lookup_insert_eq.
  - intros r' Hr'. simpl. rewrite (g_tv_seen _ _ Hg). simpl. rewrite Ht1.
    rewrite lookup_insert. by case_decide.
  - intros r' Hr'. simpl. rewrite (g_queue _ _ Hg). simpl. rewrite Hq1.
    apply elem_of_app. by left.
Qed.

Lemma next_wp fuel st :
  Inv st → measure st ≤ fuel →
  RNode tree ∈ queue st ∨ is_Some (tv_seen st !! RNode tree) →
  wp E (next fuel st)
    (λ p, Inv p.2 ∧ queue p.2 = [] ∧ is_Some (tv_seen p.2 !! RNode tree)).
Proof.
  revert st. induction fuel as [|fuel IH]; intros st HI Hm Hroot.
  - destruct (queue st) as [|r q] eqn:Hq; simpl; rewrite Hq.
    + simpl. split_and!; [done.. |]. destruct Hroot as [Hr|]; [|done].
      by apply not_elem_of_nil in Hr.
    + unfold measure in Hm. rewrite Hq in Hm. simpl in Hm. lia.
  - destruct (queue st) as [|r q] eqn:Hq; simpl; rewrite Hq.
    + simpl. split_and!; [done.. |]. destruct Hroot as [Hr|]; [|done].
      by apply not_elem_of_nil in Hr.
    + set (st1 := upd_queue (λ _, q) st).
      assert (Inv st1) as HI1.
      { split; simpl; try apply HI.
        - intros r' [Hs | Hq']; apply (inv_fresh _ HI); [by left |].
          right. rewrite Hq. by right.
        - intros r' Hq'. apply (inv_queue _ HI). rewrite Hq. by right. }
      apply wp_bind. eapply wp_post.
      { apply visitNode_wp; [done | |].
        - apply (inv_fresh _ HI). right. rewrite Hq. by left.
        - apply (inv_queue _ HI). rewrite Hq. by left. }
      intros [[] st2] (HI2 & Hm2 & Hr2 & Hmono & Hqueue). cbn [fst snd] in *.
      apply IH; [done | |].
      * unfold measure in *. rewrite Hq in Hm. simpl in *. lia.
      * destruct Hroot as [Hr | Hr].
        -- apply elem_of_cons in Hr as [<- | Hr].
           ++ by right.
           ++ left. by apply Hqueue.
        -- right. by apply Hmono.
Qed.

Lemma Inv_init : Inv (upd_queue (λ q, (q ++ [RNode tree])%list) init).
Proof.
  assert (∀ r, _depth (fields_of init r) = None ∧
               _parent (fields_of init r) = None) as Hf.
  { intros r. unfold fields_of, init. simpl.
    destruct (decide (r = RNode tree)) as [->|Hne].
    - by rewrite lookup_singleton_eq.
    - by rewrite lookup_singleton_ne. }
  split; simpl.
  - constructor.
  - intros k it c Hk. by rewrite lookup_nil in Hk.
  - intros r p. rewrite fields_of_upd_queue. by rewrite (proj2 (Hf r)).
  - constructor.
  - constructor.
  - intros r k. rewrite fields_of_upd_queue. by rewrite (proj1 (Hf r)).
  - intros r [Hr | Hr]; [by apply not_elem_of_nil in Hr |].
    by apply list_elem_of_singleton in Hr as ->.
  - intros r Hr. by apply not_elem_of_nil in Hr.
  - intros r _. left. rewrite fields_of_upd_queue. apply Hf.
Qed.

Lemma walk_wp :
  wp E walk (λ p, Inv p.2 ∧ queue p.2 = [] ∧ is_Some p.1).
Proof.
  unfold walk, breadth. wp_step. apply wp_bind. eapply wp_post.
  { apply next_wp.
    - apply Inv_init.
    - unfold measure, walk_fuel. simpl. by rewrite weight_from_empty.
    - left. simpl. by left. }
  intros [[] st] (HI & Hq & Hr). cbn [fst snd] in *. wp_steps. done.
Qed.

End Throws.

(** X1.  The walk ends on every graph, cyclic ones included: the steps
    granted, one per child a node can hand out and one for the root, are
    never used up. *)
Theorem walk_ends : walk ≠ Diverge.
Proof.
  intros H. pose proof (walk_wp True (λ _, I)) as Hw. by rewrite H in Hw.
Qed.

(** What holds of the store when the walk has returned. *)
Lemma walk_Inv res st :
  walk = Ok (res, st) → Inv st ∧ queue st = [] ∧ is_Some res.
Proof.
  intros H. pose proof (walk_wp True (λ _, I)) as Hw. by rewrite H in Hw.
Qed.

(** X2.  Without positional filters, in the short form, when every edge
    without a target is missing or optional and [npa] parses the [resolved]
    of every node, the walk raises nothing: it returns the result item of
    the root. *)
Theorem walk_calm : calm → ∃ res st, walk = Ok (Some res, st).
Proof.
  intros Hc. pose proof (walk_wp False (λ H, H Hc)) as Hw.
  destruct walk as [[res st]| |]; simpl in Hw; [|done..].
  destruct Hw as (_ & _ & [r ->]). eauto.
Qed.

(** ** Strings *)

Lemma append_assoc (a b c : string) : (a +:+ b) +:+ c = a +:+ b +:+ c.
Proof.
  induction a as [|x a IH]; [done |].
  change (String x ((a +:+ b) +:+ c) = String x (a +:+ b +:+ c)).
  by rewrite IH.
Qed.

Lemma append_nil_r (a : string) : a +:+ "" = a.
Proof.
  induction a as [|x a IH]; [done |].
  change (String x (a +:+ "") = String x a). by rewrite IH.
Qed.

Lemma truthy_pkgid n : truthy (node_pkgid n) = true.
Proof.
  unfold node_pkgid.
  destruct (default "" (pkg_name (node_package n))); done.
Qed.

(** ** The flat rendering *)

Lemma parseable_dep_node st n :
  parseable_dep st (RNode n) =
  Ok (if truthy (node_path (g !!! n)) && _include (fields_of st (RNode n))
      then parseable_line (g !!! n) (fields_of st (RNode n)) else "").
Proof.
  unfold parseable_dep, parseable_line. simpl.
  destruct (truthy _ && _); [|done].
  destruct (long cfg); [|by rewrite append_nil_r || done].
  f_equal. rewrite !append_assoc. do 2 f_equal.
  assert (bool_decide (Some (node_path (g !!! n)) ≠ Some (node_realpath (g !!! n)))
          = bool_decide (node_realpath (g !!! n) ≠ node_path (g !!! n))) as ->.
  { apply bool_decide_ext. split; intros H1 H2; apply H1; congruence. }
  assert (negb (bool_decide (length (node_errors (g !!! n)) = 0)) &&
          negb (String.eqb (node_path (g !!! n)) (resolve rt (globalDir cfg) ".."))
          = bool_decide (node_errors (g !!! n) ≠ []) &&
            bool_decide (node_path (g !!! n) ≠ resolve rt (globalDir cfg) ".."))
    as ->.
  { f_equal.
    - destruct (node_errors (g !!! n)); done.
    - destruct (String.eqb_spec (node_path (g !!! n))
                  (resolve rt (globalDir cfg) "..")) as [->|Hne]; simpl.
      + by rewrite bool_decide_false by (intros H; by apply H).
      + by rewrite bool_decide_true. }
  done.
Qed.

Lemma parseable_dep_synth st k : parseable_dep st (RObj k) = Ok "".
Proof. done. Qed.

Lemma parseable_loop_spec st deps out :
  parseable_loop st deps out =
  Ok (out +:+ concat_lines
        ((λ n, parseable_line (g !!! n) (fields_of st (RNode n))) <$>
         omap (λ r, match r with
                    | RNode n =>
                        if truthy (node_path (g !!! n)) &&
                           _include (fields_of st r)
                        then Some n else None
                    | RObj _ => None
                    end) deps)).
Proof.
  revert out. induction deps as [|[n|k] deps IH]; intros out; simpl.
  - by rewrite append_nil_r.
  - rewrite parseable_dep_node, IH.
    destruct (truthy _ && _); simpl.
    + by rewrite append_assoc.
    + by rewrite append_nil_r.
  - rewrite IH. by rewrite append_nil_r.
Qed.

(** ** Runs that returned *)

Lemma bind_Ok {A B} (c : M A) (k : A → M B) st b st'' :
  bind c k st = Ok (b, st'') ↔
  ∃ a st', c st = Ok (a, st') ∧ k a st' = Ok (b, st'').
Proof.
  unfold bind. split.
  - destruct (c st) as [[a st']| |]; [eauto | done | done].
  - by intros (a & st' & -> & H).
Qed.

Lemma mapM_length {A B} (f : A → M B) l st ys st' :
  mapM f l st = Ok (ys, st') → length ys = length l.
Proof.
  revert st ys. induction l as [|x l IH]; intros st ys; simpl.
  - by intros [= <- <-].
  - intros (y & st1 & _ & (ys' & st2 & H2 & [= <- <-])%bind_Ok)%bind_Ok.
    simpl. f_equal. by eapply IH.
Qed.

Lemma getChildren_Ok n res st kids st' :
  getChildren (RNode n) res st = Ok (kids, st') →
  depth_gt (_depth (fields_of st (RNode n))) (depth cfg) = false →
  ∃ l1 st1 l3,
    mapM edgesToNodes
      (filter (λ e, edge_kept (RNode n) e = true) (node_edgesOut (g !!! n))) st
      = Ok (l1, st1) ∧
    mapM (augment (RNode n) res)
      (l1 ++ (RNode <$> filter (λ c, node_extraneous (g !!! c) = true)
                              (node_children (g !!! n)))) st1
      = Ok (l3, st') ∧
    kids = sort (by_pkgid st') l3.
Proof.
  unfold getChildren. intros H Hgt.
  apply bind_Ok in H as (s & s' & [= <- <-] & H). rewrite Hgt in H.
  apply bind_Ok in H as (l1 & st1 & H1 & H).
  apply bind_Ok in H as (l3 & st3 & H3 & H).
  apply bind_Ok in H as (s & s' & [= <- <-] & [= <- <-]).
  by exists l1, st1, l3.
Qed.

Lemma getChildren_cut node res st :
  depth_gt (_depth (fields_of st node)) (depth cfg) = true →
  getChildren node res st = Ok ([], st).
Proof.
  intros Hgt. unfold getChildren, bind, get. rewrite Hgt. by destruct node.
Qed.

Lemma filterByPositionalArgs_synth k st b st' :
  filterByPositionalArgs (RObj k) st = Ok (b, st') → st' = st.
Proof.
  unfold filterByPositionalArgs. destruct args as [|a l].
  - by intros [= _ <-].
  - done.
Qed.

Lemma augment_seen node nodeResult i st r st' :
  augment node nodeResult i st = Ok (r, st') → i ∈ seen st →
  r = RObj (length (synth st)) ∧
  _dedupe (fields_of st' r) = true ∧
  _missing (fields_of st' r) = None ∧
  _invalid (fields_of st' r) = false.
Proof.
  unfold augment. intros H Hin.
  apply bind_Ok in H as (s & s' & [= <- <-] & H).
  rewrite decide_True in H by done.
  apply bind_Ok in H as (r0 & st1 & H1 & H).
  unfold bind, alloc, set_fields, modify, ret in H1. injection H1 as <- <-.
  apply bind_Ok in H as ([] & s2 & [= <-] & H).
  apply bind_Ok in H as (inc & s3 & Hf & H).
  apply filterByPositionalArgs_synth in Hf as ->.
  unfold bind, get, set_fields, modify, ret in H. injection H as <- <-.
  split; [done |]. by split_and!; fields_simpl.
Qed.

Lemma omap_cons {A B} (f : A → option B) x l :
  omap f (x :: l) =
  match f x with Some y => y :: omap f l | None => omap f l end.
Proof. done. Qed.

Lemma NoDup_omap_inj {A B} (f : A → option B) l :
  (∀ x x' y, f x = Some y → f x' = Some y → x = x') →
  NoDup l → NoDup (omap f l).
Proof.
  intros Hinj. induction 1 as [|x l Hx Hl IH]; simpl; [constructor |].
  destruct (f x) as [y|] eqn:Hy; [|done].
  constructor; [|done].
  intros (x' & Hx' & Hy')%list_elem_of_omap.
  by rewrite (Hinj _ _ _ Hy Hy') in Hx.
Qed.

(** ** The nested result *)



(** * The claims *)

(** C1, as amended.  Under a finite maximum depth [d], every visited (hence
    every rendered) traversal node has a depth, and it never exceeds
    [d + 1] (0 when [d] is negative): with [d = 0] the root and its direct
    dependencies are rendered.  A node whose depth exceeds [d] produces
    zero children. *)
Theorem visited_depth_within_limit d res st :
  depth cfg = Finite d →
  walk = Ok (res, st) →
  (∀ r, r ∈ seen st →
     ∃ k, _depth (fields_of st r) = Some k ∧
          (Z.of_nat k ≤ Z.max 0 (d + 1))%Z) ∧
  (∀ s node nodeResult k,
     _depth (fields_of s node) = Some k → (d < Z.of_nat k)%Z →
     getChildren node nodeResult s = Ok ([], s)).
Proof.
  intros Hd Hw. split.
  - intros r Hr. destruct (walk_Inv _ _ Hw) as (HI & _ & _).
    destruct (inv_seen_depth _ HI _ Hr) as [k Hk]. exists k.
    split; [done |]. pose proof (inv_bound _ HI _ _ Hk) as Hb.
    unfold bound in Hb. by rewrite Hd in Hb.
  - intros s node nodeResult k Hk Hlt. apply getChildren_cut.
    rewrite Hk, Hd. simpl. by rewrite bool_decide_true.
Qed.

(** C4, as amended.  The list of children produced for a node is sorted
    ascending by pkgid under the comparison of [localeCompare] (the
    locale's collation, not the byte order), whenever that comparison is
    total. *)
Theorem children_sorted_by_localeCompare node nodeResult st kids st' :
  (∀ a b, (localeCompare rt a b ≤ 0)%Z ∨ (localeCompare rt b a ≤ 0)%Z) →
  getChildren node nodeResult st = Ok (kids, st') →
  Sorted (λ a b, (localeCompare rt (obj_pkgid (deref st' a))
                                   (obj_pkgid (deref st' b)) ≤ 0)%Z) kids.
Proof.
  intros Htotal H. destruct node as [n|k].
  - destruct (depth_gt (_depth (fields_of st (RNode n))) (depth cfg)) eqn:Hgt.
    + rewrite getChildren_cut in H by done. injection H as <- <-. constructor.
    + apply getChildren_Ok in H as (l1 & st1 & l3 & _ & _ & ->); [|done].
      apply (sort_sorted (by_pkgid st')). intros a b. apply Htotal.
  - injection H as <- <-. constructor.
Qed.

Lemma ls_Ok res st :
  walk = Ok (Some res, st) →
  ls = {| printed := [if parseable cfg then parseable_spec st
                      else archy rt (result_tree (items st) res) (unicode cfg)];
          exitCode := exit_status st res;
          completion := settle st |}.
Proof.
  intros Hw. unfold ls, render. rewrite Hw.
  destruct (parseable cfg); [|done].
  by rewrite parseable_loop_spec.
Qed.

(** C7.  In parseable mode the output is, trimmed once, the lines of the
    visited nodes that are marked included and have a path, one line per
    node and in the order of the visits; an object that stands for a
    deduped position gives no line; a line is the path and, in the long
    form, pkgid, the realpath when it differs, EXTRANEOUS, ERROR (not for
    the parent of the global directory) and INVALID, in this order. *)
Theorem parseable_output res st :
  parseable cfg = true →
  walk = Ok (Some res, st) →
  printed ls =
    [trim rt (concat_lines
       ((λ n, parseable_line (g !!! n) (fields_of st (RNode n))) <$>
        parseable_deps st))] ∧
  NoDup (parseable_deps st) ∧
  (∀ n, n ∈ parseable_deps st ↔
        RNode n ∈ seen st ∧ truthy (node_path (g !!! n)) = true ∧
        _include (fields_of st (RNode n)) = true) ∧
  (∀ n f,
     parseable_line n f =
     node_path n +:+
     (if long cfg
      then ":" +:+ node_pkgid n +:+
           (if bool_decide (node_realpath n ≠ node_path n)
            then ":" +:+ node_realpath n else "") +:+
           (if node_extraneous n then ":EXTRANEOUS" else "") +:+
           (if bool_decide (node_errors n ≠ []) &&
               bool_decide (node_path n ≠ resolve rt (globalDir cfg) "..")
            then ":ERROR" else "") +:+
           (if _invalid f then ":INVALID" else "")
      else "") +:+
     EOL rt).
Proof.
  intros Hp Hw. split_and!.
  - rewrite (ls_Ok _ _ Hw). simpl. by rewrite Hp.
  - apply NoDup_omap_inj.
    + intros [n|k] [n'|k'] y H1 H2; try done.
      destruct (truthy _ && _), (truthy _ && _); congruence.
    + apply walk_Inv in Hw as (HI & _). apply HI.
  - intros n. unfold parseable_deps. rewrite list_elem_of_omap. split.
    + intros ([n'|k] & Hin & H); [|done].
      destruct (truthy _ && _) eqn:Hb; [|done]. injection H as ->.
      by apply andb_prop in Hb as [-> ->].
    + intros (Hin & Ht & Hi). exists (RNode n). by rewrite Ht, Hi.
  - done.
Qed.

(** C8, as amended.  The three kind filters apply to the edges of the root
    only: dev-only (on with the dev or development toggle, or when "only"
    is exactly dev or development) keeps the edges marked dev; prod-only
    drops the edges marked dev, peer or peerOptional; link-only keeps the
    edges whose target exists and is a link.  Every edge kept gives one
    child, the extraneous children come on top whatever the filters, and at
    any other node no edge is dropped. *)
Theorem kind_filters_at_root_only :
  (∀ node e,
     edge_kept node e = if decide (node = RNode tree) then root_keeps e
                        else true) ∧
  (∀ n nodeResult st kids st',
     getChildren (RNode n) nodeResult st = Ok (kids, st') →
     depth_gt (_depth (fields_of st (RNode n))) (depth cfg) = false →
     length kids =
       length (filter (λ e, edge_kept (RNode n) e = true)
                 (node_edgesOut (g !!! n))) +
       length (filter (λ c, node_extraneous (g !!! c) = true)
                 (node_children (g !!! n))) ∧
     (n ≠ tree →
      length kids =
        length (node_edgesOut (g !!! n)) +
        length (filter (λ c, node_extraneous (g !!! c) = true)
                  (node_children (g !!! n))))).
Proof.
  assert (∀ node e,
     edge_kept node e = if decide (node = RNode tree) then root_keeps e
                        else true) as Hkept.
  { intros node e. unfold edge_kept, root_keeps, filterDev, filterProd,
      filterLink, dev_only, prod_only, link_only.
    destruct (decide (node = RNode tree)) as [->|Hne].
    - rewrite bool_decide_true by done. simpl.
      destruct (edge_dev e), (edge_peer e), (edge_peerOptional e),
        (dev cfg || development cfg || test_dev (only cfg)),
        (prod cfg || production cfg || test_prod (only cfg)); done.
    - by rewrite bool_decide_false. }
  split; [done |].
  intros n nodeResult st kids st' H Hgt.
  apply getChildren_Ok in H as (l1 & st1 & l3 & H1 & H3 & ->); [|done].
  apply mapM_length in H1, H3.
  rewrite sort_length, H3, length_app, length_fmap, H1.
  split; [done |]. intros Hn. do 2 f_equal.
  clear H1. induction (node_edgesOut (g !!! n)) as [|e l IH]; [done |].
  rewrite filter_cons_True; [by rewrite IH |].
  rewrite Hkept, decide_False; [done | congruence].
Qed.

(** C9.  When the result of the walk has no child entry, the tree shows the
    single literal entry (empty), and the exit status is set to 1 exactly
    when positional filters were given; it is not set otherwise. *)
Theorem empty_result_placeholder res st :
  walk = Ok (Some res, st) →
  nodes (items st !!! res) = [] →
  result_tree (items st) res =
    AObj (label (items st !!! res)) [AString "(empty)"] ∧
  (parseable cfg = false →
   printed ls =
     [archy rt (AObj (label (items st !!! res)) [AString "(empty)"])
        (unicode cfg)]) ∧
  (args ≠ [] → exitCode ls = Some 1) ∧
  (args = [] → exitCode ls = None).
Proof.
  intros Hw He.
  assert (result_tree (items st) res =
          AObj (label (items st !!! res)) [AString "(empty)"]) as Ht.
  { unfold result_tree. by rewrite He. }
  rewrite (ls_Ok _ _ Hw). simpl. unfold exit_status. rewrite He.
  split_and!.
  - done.
  - intros ->. by rewrite Ht.
  - by destruct args.
  - by intros ->.
Qed.

(** C10.  In the parseable rendering an object made during the walk (a
    placeholder for a missing dependency, a deduped stand-in) has no path:
    its turn of the loop adds nothing and reads none of errors, realpath
    and extraneous; the loop never raises, and its output is that of the
    visited nodes alone. *)
Theorem placeholder_never_printed :
  (∀ name pkgid, obj_path (OSynth (Placeholder name pkgid)) = None) ∧
  (∀ st k, parseable_dep st (RObj k) = Ok "") ∧
  (∀ st deps out, ∃ s, parseable_loop st deps out = Ok s) ∧
  (∀ st deps out,
     parseable_loop st deps out =
     parseable_loop st (filter (λ r, is_node r = true) deps) out).
Proof.
  split_and!.
  - done.
  - done.
  - intros st deps out. rewrite parseable_loop_spec. by eexists.
  - intros st deps out. rewrite !parseable_loop_spec. do 4 f_equal.
    induction deps as [|[n|k] deps IH]; [done | |].
    + rewrite filter_cons_True by done. by rewrite !omap_cons, IH.
    + by rewrite filter_cons_False.
Qed.

(** X3.  When the walk has returned, the rendering is printed, once, and
    only then the call settles: a recorded EJSONPARSE error at the root's
    package.json rejects it with code EJSONPARSE; otherwise collected
    problems, whatever the filters matched, reject it with code
    ELSPROBLEMS and the problems joined by the end of line; otherwise it
    resolves. *)
Theorem ls_settles_after_rendering res st :
  walk = Ok (Some res, st) →
  (∃ out, printed ls = [out]) ∧
  completion ls =
    if bool_decide (Exists (λ e, err_code e = "EJSONPARSE" ∧
                                 err_path e = resolve rt (prefix cfg) "package.json")
                      (node_errors (g !!! tree)))
    then Throw (LsError "Failed to parse root package.json" "EJSONPARSE")
    else if bool_decide (problems st = []) then Ok tt
    else Throw (LsError (join (EOL rt) (problems st)) "ELSPROBLEMS").
Proof.
  intros Hw. rewrite (ls_Ok _ _ Hw). simpl. split; [by eexists |].
  unfold settle.
  assert (∀ l : list NodeError,
    filter (λ e, is_rootError e = true) l = [] ↔
    ¬ Exists (λ e, err_code e = "EJSONPARSE" ∧
                   err_path e = resolve rt (prefix cfg) "package.json") l)
    as Hroot.
  { intros l. rewrite <- Forall_Exists_neg. split.
    - intros Hf. apply Forall_forall. intros e He [Hc Hp].
      assert (e ∈ filter (λ e, is_rootError e = true) l) as Hin.
      { apply list_elem_of_filter. split; [|done].
        unfold is_rootError. rewrite Hc, Hp.
        by rewrite String.eqb_refl, String.eqb_refl. }
      rewrite Hf in Hin. by apply not_elem_of_nil in Hin.
    - intros Hf. induction l as [|e l IH]; [done |].
      apply Forall_cons in Hf as [He Hl].
      rewrite filter_cons_False; [by apply IH |].
      unfold is_rootError. intros [H1 H2]%andb_prop. apply He.
      by split; apply String.eqb_eq. }
  destruct (filter _ (node_errors (g !!! tree))) as [|e l] eqn:Hf.
  - rewrite bool_decide_false by (by apply Hroot).
    by destruct (problems st).
  - rewrite bool_decide_true; [done |].
    destruct (decide (Exists (λ e, err_code e = "EJSONPARSE" ∧
                err_path e = resolve rt (prefix cfg) "package.json")
                (node_errors (g !!! tree)))) as [|Hn]; [done |].
    apply Hroot in Hn. congruence.
Qed.

(** ** What each step does to the store *)

Lemma mapM_fold {A B} (f : A → M B) (I : list A → list B → State → Prop)
    l st ys st' :
  mapM f l st = Ok (ys, st') →
  I [] [] st →
  (∀ xs zs x s y s', I xs zs s → x ∈ l → f x s = Ok (y, s') →
     I (xs ++ [x])%list (zs ++ [y])%list s') →
  I l ys st'.
Proof.
  intros Hm H0 Hstep.
  assert (∀ l' xs zs s ys', (∀ x, x ∈ l' → x ∈ l) → I xs zs s →
            mapM f l' s = Ok (ys', st') →
            I (xs ++ l')%list (zs ++ ys')%list st') as Hgen.
  { induction l' as [|x l' IH]; intros xs zs s ys' Hsub HI Hl'.
    - injection Hl' as <- <-. by rewrite !app_nil_r.
    - simpl in Hl'.
      apply bind_Ok in Hl' as (y & s1 & Hy & Hl').
      apply bind_Ok in Hl' as (ys1 & s2 & Hys & [= <- <-]).
      rewrite (cons_middle x xs l'), (cons_middle y zs ys1), !app_assoc.
      apply (IH _ _ s1); [|by eapply Hstep; [|apply Hsub; left|] | done].
      intros x' Hx'. apply Hsub. by right. }
  by apply (Hgen l [] [] st ys).
Qed.

Lemma upd_items_twice f its st :
  upd_items (λ _, its) (upd_items f st) = upd_items (λ _, its) st.
Proof. done. Qed.

Lemma mark_parents_Ok fuel p st u st' :
  mark_parents fuel p st = Ok (u, st') →
  ∃ its, st' = upd_items (λ _, its) st ∧
         item_core <$> its = item_core <$> items st.
Proof.
  revert p st. induction fuel as [|fuel IH]; intros p st H.
  - destruct p; [done |]. injection H as <- <-.
    exists (items st). by rewrite upd_items_id.
  - destruct p as [i|]; simpl in H.
    + apply bind_Ok in H as ([] & s1 & [= <-] & H).
      apply bind_Ok in H as (s & s' & [= <- <-] & H).
      apply IH in H as (its & -> & Hc). exists its. split; [done |].
      rewrite Hc. simpl. by apply core_alter.
    + injection H as <- <-. exists (items st). by rewrite upd_items_id.
Qed.

Lemma shouldInclude_Ok node spec st b st' :
  shouldInclude node spec st = Ok (b, st') →
  (∃ n, node = RNode n ∧ node_satisfies (g !!! n) spec = Returns b) ∧
  (parseable cfg = true → st' = st) ∧
  ∃ its, st' = upd_items (λ _, its) st ∧
         item_core <$> its = item_core <$> items st.
Proof.
  unfold shouldInclude. intros H.
  apply bind_Ok in H as (s & s' & [= <- <-] & H).
  destruct node as [n|k]; [|done]. cbn [deref] in H.
  destruct (node_satisfies (g !!! n) spec) as [[]|e] eqn:Hs; [| |done].
  - apply bind_Ok in H as ([] & s1 & H & [= <- <-]).
    split; [by exists n |].
    destruct (parseable cfg); cbn [negb] in H.
    + injection H as <-. split; [done |].
      exists (items st). by rewrite upd_items_id.
    + split; [done |]. by eapply mark_parents_Ok.
  - injection H as <- <-. split; [by exists n |]. split; [done |].
    exists (items st). by rewrite upd_items_id.
Qed.

Lemma some_shouldInclude_Ok node l st b st' :
  some (shouldInclude node) l st = Ok (b, st') →
  (∀ n, node = RNode n →
        b = existsb (λ spec, yes (node_satisfies (g !!! n) spec)) l) ∧
  (l ≠ [] → is_node node = true) ∧
  (parseable cfg = true → st' = st) ∧
  ∃ its, st' = upd_items (λ _, its) st ∧
         item_core <$> its = item_core <$> items st.
Proof.
  revert st. induction l as [|x l IH]; intros st H; simpl in H.
  - injection H as <- <-. split_and!; [done.. |].
    exists (items st). by rewrite upd_items_id.
  - apply bind_Ok in H as (b1 & s1 & H1 & H).
    apply shouldInclude_Ok in H1 as ((n & -> & Hb1) & Hp1 & its1 & -> & Hc1).
    destruct b1.
    + injection H as <- <-. split_and!.
      * intros ? [= <-]. cbn [existsb]. by rewrite Hb1.
      * done.
      * done.
      * by exists its1.
    + apply IH in H as (Hb & _ & Hp & its & -> & Hc). split_and!.
      * intros ? [= <-]. cbn [existsb]. rewrite Hb1. by apply Hb.
      * done.
      * intros Hpa. rewrite (Hp Hpa). by apply Hp1.
      * exists its. split; [done |]. by rewrite Hc.
Qed.

Lemma filterByPositionalArgs_Ok node st b st' :
  filterByPositionalArgs node st = Ok (b, st') →
  b = included node ∧
  (args ≠ [] → is_node node = true) ∧
  (parseable cfg = true → st' = st) ∧
  ∃ its, st' = upd_items (λ _, its) st ∧
         item_core <$> its = item_core <$> items st.
Proof.
  unfold filterByPositionalArgs, included.
  destruct args as [|a l] eqn:Ha.
  - intros [= <- <-]. split_and!; [done.. |].
    exists (items st). by rewrite upd_items_id.
  - intros (Hb & Hn & Hp & Hits)%some_shouldInclude_Ok.
    specialize (Hn ltac:(done)). destruct node as [n|k]; [|done].
    split_and!; [by apply Hb | done..].
Qed.

Lemma edgesToNodes_Ok e st y st' :
  edgesToNodes e st = Ok (y, st') →
  (unmet e = true ∧ y = RObj (length (synth st)) ∧
   st' = upd_fields y (with_invalid (edge_invalid e))
           (upd_fields y (with_type (Some (edge_type e)))
              (upd_fields y
                 (with_missing (Some (node_pkgid (g !!! edge_from e))))
                 (push_synth
                    (Placeholder (edge_name e)
                       (edge_name e +:+ "@" +:+ edge_spec e)) st)))) ∨
  (unmet e = false ∧ ∃ m, edge_to e = Some m ∧ y = RNode m ∧
   st' = upd_fields y (with_invalid (edge_invalid e))
           (upd_fields y (with_type (Some (edge_type e))) st)).
Proof.
  unfold edgesToNodes, unmet. cbn zeta.
  destruct (edge_missing e || _) eqn:Hm.
  - intros [= <- <-]. by left.
  - destruct (edge_to e) as [m|] eqn:Ht; [|done].
    intros [= <- <-]. right. split; [done |]. by exists m.
Qed.

Lemma augment_Ok node res i st y st' :
  augment node res i st = Ok (y, st') →
  ∃ st0 its,
    (if decide (i ∈ seen st)
     then y = RObj (length (synth st)) ∧
          st0 = upd_fields y (with_dedupe true)
                  (push_synth (Deduped (obj_pkgid (deref st i))
                                 (obj_package (deref st i))) st)
     else y = i ∧ st0 = st) ∧
    item_core <$> its = item_core <$> items st ∧
    (args ≠ [] → is_node y = true) ∧
    st' = upd_fields y
            (with_depth
               (if decide (y = node) then S <$> _depth (fields_of st0 y)
                else S <$> _depth (fields_of st0 node)))
            (upd_fields y (with_include (included y))
               (upd_items (λ _, its)
                  (upd_fields y (with_parent (Some res)) st0))).
Proof.
  unfold augment. intros H.
  apply bind_Ok in H as (s & s' & [= <- <-] & H).
  apply bind_Ok in H as (y' & st0 & H0 & H).
  apply bind_Ok in H as ([] & s1 & [= <-] & H).
  apply bind_Ok in H as (inc & s2 & Hf & H).
  apply bind_Ok in H as ([] & s3 & [= <-] & H).
  apply bind_Ok in H as (s4 & s5 & [= <- <-] & H).
  apply bind_Ok in H as ([] & s6 & [= <-] & [= <- <-]).
  apply filterByPositionalArgs_Ok in Hf as (-> & Hn & _ & its & -> & Hc).
  exists st0, its. split_and!.
  - destruct (decide (i ∈ seen st)); [|by injection H0 as <- <-].
    by injection H0 as <- <-.
  - rewrite Hc. simpl.
    destruct (decide (i ∈ seen st)); [|by injection H0 as <- <-].
    by injection H0 as <- <-.
  - done.
  - f_equal. f_equal. fields_simpl; done.
Qed.

Lemma visit_Ok r st item st' :
  visit r st = Ok (item, st') →
  ∃ lbl problem,
    getHumanOutputItem (deref st r) (fields_of st r) = Ok (lbl, problem) ∧
    item = length (items st) ∧
    seen st' = set_add r (seen st) ∧
    items st' =
      (let its := (items st ++ [{| label := lbl; nodes := [];
                                   item_include := false;
                                   item_parent := None |}])%list in
       match _include (fields_of st r), _parent (fields_of st r) with
       | true, Some p => alter (item_push (length (items st))) p its
       | _, _ => its
       end) ∧
    problems st' =
      (if truthy problem then set_add problem (problems st)
       else problems st) ∧
    queue st' = queue st ∧ tv_seen st' = tv_seen st ∧ synth st' = synth st ∧
    (∀ r', fields_of st' r' =
           match _parent (fields_of st r) with
           | None => if decide (r = r') then with_depth (Some 0) (fields_of st r)
                     else fields_of st r'
           | Some _ => fields_of st r'
           end).
Proof.
  unfold visit. intros H.
  apply bind_Ok in H as ([] & s1 & [= <-] & H).
  apply bind_Ok in H as (s & s' & [= <- <-] & H).
  change (deref (upd_seen (set_add r) st) r) with (deref st r) in H.
  change (fields_of (upd_seen (set_add r) st) r) with (fields_of st r) in H.
  destruct (getHumanOutputItem _ _) as [[lbl problem]| |] eqn:HG; [|done..].
  exists lbl, problem. split; [done |]. cbn zeta in H.
  apply bind_Ok in H as ([] & s1 & [= <-] & H).
  apply bind_Ok in H as ([] & s2 & H2 & H).
  apply bind_Ok in H as (s & s' & [= <- <-] & H).
  apply bind_Ok in H as ([] & s3 & H3 & H).
  apply bind_Ok in H as (s & s' & [= <- <-] & H).
  apply bind_Ok in H as ([] & s4 & H4 & [= <- <-]).
  assert (fields_of s2 = fields_of st ∧ seen s2 = set_add r (seen st) ∧
          synth s2 = synth st ∧ queue s2 = queue st ∧
          tv_seen s2 = tv_seen st ∧
          items s2 = (items st ++ [{| label := lbl; nodes := [];
                                      item_include := false;
                                      item_parent := None |}])%list ∧
          problems s2 = (if truthy problem then set_add problem (problems st)
                         else problems st)) as (Hf2 & ? & ? & ? & ? & Hi2 & ?).
  { destruct (truthy problem); injection H2 as <-; done. }
  rewrite Hf2 in H3.
  assert (fields_of s3 = fields_of st ∧ seen s3 = seen s2 ∧
          synth s3 = synth s2 ∧ queue s3 = queue s2 ∧
          tv_seen s3 = tv_seen s2 ∧ problems s3 = problems s2 ∧
          items s3 =
            match _include (fields_of st r), _parent (fields_of st r) with
            | true, Some p => alter (item_push (length (items st))) p (items s2)
            | _, _ => items s2
            end) as (Hf3 & ? & ? & ? & ? & ? & Hi3).
  { destruct (_include (fields_of st r)), (_parent (fields_of st r));
      injection H3 as <-; done. }
  rewrite Hf3 in H4.
  assert (seen s4 = seen s3 ∧ synth s4 = synth s3 ∧ queue s4 = queue s3 ∧
          tv_seen s4 = tv_seen s3 ∧ problems s4 = problems s3 ∧
          items s4 = items s3 ∧
          ∀ r', fields_of s4 r' =
                match _parent (fields_of st r) with
                | None => if decide (r = r')
                          then with_depth (Some 0) (fields_of st r)
                          else fields_of st r'
                | Some _ => fields_of st r'
                end) as (? & ? & ? & ? & ? & Hi4 & Hf4).
  { destruct (_parent (fields_of st r)); injection H4 as <-.
    - by rewrite Hf3.
    - split_and!; [done.. |]. intros r'. rewrite fields_of_upd, Hf3.
      by case_decide. }
  split_and!; try congruence; [|done].
  rewrite Hi4, Hi3, Hi2. cbn zeta.
  by destruct (_include (fields_of st r)), (_parent (fields_of st r)).
Qed.

Lemma visitNode_Ok r st u st' :
  visitNode r st = Ok (u, st') →
  (is_Some (tv_seen st !! r) ∧ st' = st) ∨
  (tv_seen st !! r = None ∧
   ∃ res s1 kids s2,
     visit r st = Ok (res, s1) ∧
     getChildren r res (upd_tv_seen <[r:=res]> s1) = Ok (kids, s2) ∧
     st' = upd_queue (λ q, (q ++ kids)%list) s2).
Proof.
  unfold visitNode. intros H.
  apply bind_Ok in H as (s & s' & [= <- <-] & H).
  destruct (tv_seen st !! r) as [x|] eqn:Hr.
  - injection H as <- <-. left. by split; [eexists |].
  - right. split; [done |].
    apply bind_Ok in H as (res & s1 & Hv & H).
    apply bind_Ok in H as ([] & s2 & [= <-] & H).
    apply bind_Ok in H as (kids & s3 & Hk & [= <- <-]).
    by exists res, s1, kids, s3.
Qed.

(** Induction over the turns of the driver *)
Lemma next_ind (J : State → Prop) :
  (∀ st r q st', Inv st → J st → queue st = r :: q →
     visitNode r (upd_queue (λ _, q) st) = Ok (tt, st') → J st') →
  ∀ fuel st u st', Inv st → J st → next fuel st = Ok (u, st') →
    Inv st' ∧ J st' ∧ queue st' = [].
Proof.
  intros Hstep. induction fuel as [|fuel IH]; intros st u st' HI HJ H;
    simpl in H; destruct (queue st) as [|r q] eqn:Hq; try done;
    try (injection H as <- <-; done).
  apply bind_Ok in H as ([] & s1 & Hv & H).
  assert (Inv (upd_queue (λ _, q) st)) as HI1.
  { split; simpl; try apply HI.
    - intros r' [Hs | Hq']; apply (inv_fresh _ HI); [by left |].
      right. rewrite Hq. by right.
    - intros r' Hq'. apply (inv_queue _ HI). rewrite Hq. by right. }
  assert (Inv s1) as HI2.
  { pose proof (visitNode_wp True (λ _, I) r _ HI1) as Hw.
    rewrite Hv in Hw. apply Hw.
    - apply (inv_fresh _ HI). right. rewrite Hq. by left.
    - apply (inv_queue _ HI). rewrite Hq. by left. }
  apply (IH s1 u st' HI2); [|done]. apply (Hstep st r q s1 HI HJ Hq Hv).
Qed.

Lemma walk_ind (J : State → Prop) :
  J (upd_queue (λ q, (q ++ [RNode tree])%list) init) →
  (∀ st r q st', Inv st → J st → queue st = r :: q →
     visitNode r (upd_queue (λ _, q) st) = Ok (tt, st') → J st') →
  ∀ res st, walk = Ok (res, st) →
    J st ∧ queue st = [] ∧ res = tv_seen st !! RNode tree.
Proof.
  intros H0 Hstep res st. unfold walk, breadth. intros H.
  apply bind_Ok in H as ([] & s1 & [= <-] & H).
  apply bind_Ok in H as ([] & s2 & Hn & H).
  apply bind_Ok in H as (s & s' & [= <- <-] & [= <- <-]).
  eapply next_ind in Hn as (_ & HJ & Hq); [done | done | | done].
  apply Inv_init.
Qed.

(** ** What producing children leaves as it is *)

Lemma steady_refl st : steady st st.
Proof. by split. Qed.

Lemma steady_ref_ok a b r : steady a b → ref_ok a r → ref_ok b r.
Proof.
  intros Hs. apply ref_ok_mono. by apply prefix_length, Hs.
Qed.

Lemma steady_trans a b c : steady a b → steady b c → steady a c.
Proof.
  intros Hab Hbc.
  assert (∀ r, r ∈ seen a → r ∈ seen b) as Hseen.
  { intros r. by rewrite (sd_seen _ _ Hab). }
  split.
  - by rewrite (sd_seen _ _ Hbc), (sd_seen _ _ Hab).
  - by rewrite (sd_problems _ _ Hbc), (sd_problems _ _ Hab).
  - by rewrite (sd_queue _ _ Hbc), (sd_queue _ _ Hab).
  - by rewrite (sd_tv_seen _ _ Hbc), (sd_tv_seen _ _ Hab).
  - by rewrite (sd_items _ _ Hbc), (sd_items _ _ Hab).
  - etrans; [apply Hab | apply Hbc].
  - intros r Hr. rewrite (sd_depth _ _ Hbc) by auto. by apply Hab.
  - intros r Hr. rewrite (sd_parent _ _ Hbc) by auto. by apply Hab.
  - intros r Hr. rewrite (sd_include _ _ Hbc) by auto. by apply Hab.
  - intros r Hr. rewrite (sd_missing _ _ Hbc) by (by eapply steady_ref_ok).
    by apply Hab.
  - intros r Hr Hp. apply (sd_hung _ _ Hbc); [by eapply steady_ref_ok |].
    by apply Hab.
  - intros k Hk. destruct (sd_objs _ _ Hab k Hk) as (<- & <- & <-).
    apply (sd_objs _ _ Hbc). pose proof (prefix_length _ _ (sd_synth _ _ Hab)).
    lia.
Qed.

Lemma filter_ext_elem {A} (P Q : A → Prop) `{!∀ x, Decision (P x)}
    `{!∀ x, Decision (Q x)} (l : list A) :
  (∀ x, x ∈ l → P x ↔ Q x) → filter P l = filter Q l.
Proof.
  induction l as [|x l IH]; intros Hl; [done |].
  rewrite !filter_cons, IH by (intros; apply Hl; by right).
  apply decide_ext, Hl. by left.
Qed.

Lemma filter_none {A} (P : A → Prop) `{!∀ x, Decision (P x)} (l : list A) :
  (∀ x, x ∈ l → ¬ P x) → filter P l = [].
Proof.
  induction l as [|x l IH]; intros Hl; [done |].
  rewrite filter_cons_False by (apply Hl; by left).
  apply IH. intros y Hy. apply Hl. by right.
Qed.

Lemma core_nodes (a b : list Item) p :
  item_core <$> a = item_core <$> b → nodes (a !!! p) = nodes (b !!! p).
Proof.
  intros Hc. rewrite !list_lookup_total_alt.
  destruct (a !! p) as [x|] eqn:Hx.
  - destruct (core_lookup _ _ _ _ Hc Hx) as (y & -> & Hxy). simpl.
    unfold item_core in Hxy. congruence.
  - apply lookup_ge_None in Hx. rewrite (core_length _ _ Hc) in Hx.
    apply lookup_ge_None in Hx. by rewrite Hx.
Qed.

Lemma under_steady st st' p c :
  steady st st' → c < length (seen st) → under st' p c = under st p c.
Proof.
  intros Hs Hc. unfold under. rewrite (sd_seen _ _ Hs).
  assert (seen st !!! c ∈ seen st) as Hin.
  { apply list_elem_of_lookup_total_2. done. }
  by rewrite (sd_parent _ _ Hs), (sd_include _ _ Hs).
Qed.

Lemma tagged_steady st st' y e :
  steady st st' → ref_ok st y → tagged st y e → tagged st' y e.
Proof.
  intros Hs Hok (k & -> & Hk & Hm). exists k. split_and!; [done | |].
  - destruct (sd_synth _ _ Hs) as [l ->]. by apply lookup_app_l_Some.
  - by rewrite (sd_missing _ _ Hs).
Qed.

Lemma Shape_index_seen st r i :
  Shape st → tv_seen st !! r = Some i → r ∈ seen st.
Proof.
  intros HS Hr. apply (sh_index _ HS) in Hr. by eapply list_elem_of_lookup_2.
Qed.

(** The shape is kept by a step that leaves the visited objects alone and
    hangs what it touches under the item of a visited node within the
    limit. *)
Lemma Shape_steady st st' :
  Shape st → RNode tree ∈ seen st → steady st st' →
  (∀ r p, _parent (fields_of st' r) = Some p →
     (_parent (fields_of st r) = Some p ∧
      _include (fields_of st' r) = _include (fields_of st r) ∧
      _depth (fields_of st' r) = _depth (fields_of st r)) ∨
     (_include (fields_of st' r) = included r ∧
      ∃ n k, tv_seen st !! RNode n = Some p ∧
             _depth (fields_of st (RNode n)) = Some k ∧ within k ∧
             _depth (fields_of st' r) = Some (S k))) →
  Shape st'.
Proof.
  intros HS Hroot Hs Hnew. split.
  - rewrite (sd_parent _ _ Hs) by done. apply HS.
  - rewrite (sd_include _ _ Hs) by done. apply HS.
  - intros _. rewrite (sd_depth _ _ Hs) by done. by apply HS.
  - intros r p Hp. destruct (Hnew r p Hp) as [(Hp' & -> & _) | [Hi _]].
    + by eapply (sh_include _ HS).
    + done.
  - intros r p Hp. rewrite (sd_tv_seen _ _ Hs).
    destruct (Hnew r p Hp) as [(Hp' & _ & Hd) | (_ & n & k & Hn & Hk & Hw & Hd)].
    + destruct (sh_parent _ HS _ _ Hp') as (n & k & Hn & Hk & Hw & Hd').
      exists n, k. split_and!; [done | | done | congruence].
      rewrite (sd_depth _ _ Hs); [done |]. by eapply Shape_index_seen.
    + exists n, k. split_and!; [done | | done | done].
      rewrite (sd_depth _ _ Hs); [done |]. by eapply Shape_index_seen.
  - intros r i. rewrite (sd_tv_seen _ _ Hs), (sd_seen _ _ Hs). apply HS.
  - rewrite (core_length _ _ (sd_items _ _ Hs)), (sd_seen _ _ Hs). apply HS.
  - intros p Hp. rewrite (core_length _ _ (sd_items _ _ Hs)) in Hp.
    rewrite (core_nodes _ _ p (sd_items _ _ Hs)), (sh_nodes _ HS p Hp).
    rewrite (sd_seen _ _ Hs). apply filter_ext_elem.
    intros c [_ Hc]%elem_of_seq. by rewrite (under_steady st st').
  - intros n. rewrite (sd_missing _ _ Hs) by done. apply HS.
Qed.

(** As [fields_simpl], with the case analysis on the goal only *)
Ltac fields_goal :=
  repeat first
    [ rewrite fields_of_upd | rewrite fields_of_upd_items
    | rewrite fields_of_push_synth | rewrite fields_of_upd_seen
    | rewrite fields_of_upd_problems | rewrite fields_of_upd_queue
    | rewrite fields_of_upd_tv_seen ];
  repeat match goal with
         | |- context [decide ?P] => destruct (decide P)
         end;
  simplify_eq; simpl.

Lemma fresh_not_ok st : ¬ ref_ok st (RObj (length (synth st))).
Proof. simpl. lia. Qed.

Lemma edgesToNodes_step e st y st' :
  Inv st → Shape st → RNode tree ∈ seen st →
  edgesToNodes e st = Ok (y, st') →
  Inv st' ∧ grows st st' ∧ steady st st' ∧ Shape st' ∧ ref_ok st' y ∧
  (if unmet e
   then tagged st' y e ∧ ¬ ref_ok st y
   else (∃ m, edge_to e = Some m ∧ y = RNode m) ∧ synth st' = synth st) ∧
  (∀ r, _invalid (fields_of st' r) = true →
        _invalid (fields_of st r) = true ∨ (edge_invalid e = true ∧ r = y)) ∧
  (∀ r, is_missing (fields_of st' r) = true →
        is_missing (fields_of st r) = true ∨ unmet e = true) ∧
  (unmet e = true →
   y = RObj (length (synth st)) ∧
   synth st' =
     (synth st ++ [Placeholder (edge_name e)
                     (edge_name e +:+ "@" +:+ edge_spec e)])%list ∧
   _invalid (fields_of st' y) = edge_invalid e ∧
   _type (fields_of st' y) = Some (edge_type e) ∧
   _dedupe (fields_of st' y) = false) ∧
  (∀ r, r ≠ y → fields_of st' r = fields_of st r).
Proof.
  intros HI HS Hroot H.
  pose proof (edgesToNodes_wp True e st (λ _, I) HI) as Hw.
  rewrite H in Hw. destruct Hw as [Hg Hok]. cbn [fst snd] in *.
  pose proof (fresh_not_seen _ HI) as Hfresh.
  pose proof (fresh_not_ok st) as Hnok.
  assert (steady st st' ∧
          (∀ r p, _parent (fields_of st' r) = Some p →
             _parent (fields_of st r) = Some p ∧
             _include (fields_of st' r) = _include (fields_of st r) ∧
             _depth (fields_of st' r) = _depth (fields_of st r))) as [Hs Hp].
  { apply edgesToNodes_Ok in H as [(Hu & -> & ->) | (Hu & m & Hm & -> & ->)].
    - split.
      + split; simpl; try done.
        * by apply prefix_app_r.
        * intros r Hr. fields_simpl; done.
        * intros r Hr. fields_simpl; done.
        * intros r Hr. fields_simpl; done.
        * intros r Hr. fields_simpl; done.
        * intros r Hr. fields_simpl; done.
        * intros k Hk. fields_simpl; [lia | done].
      + intros r p. fields_simpl; done.
    - split.
      + split; simpl; try done.
        * intros r Hr. by fields_simpl.
        * intros r Hr. by fields_simpl.
        * intros r Hr. by fields_simpl.
        * intros r Hr. by fields_simpl.
        * intros r Hr. by fields_simpl.
        * intros k Hk. by fields_simpl.
      + intros r p. by fields_simpl. }
  split_and!; [by eapply grows_Inv | done | done | | done | |  | | |].
  - apply (Shape_steady st); [done.. |]. intros r p Hr. left. by apply Hp.
  - apply edgesToNodes_Ok in H as [(Hu & -> & ->) | (Hu & m & Hm & -> & ->)];
      rewrite Hu.
    + split; [|done]. eexists. split; [done |]. split.
      * simpl. by rewrite lookup_app_r, Nat.sub_diag.
      * by fields_simpl.
    + split; [by exists m | done].
  - intros r.
    apply edgesToNodes_Ok in H as [(Hu & -> & ->) | (Hu & m & Hm & -> & ->)];
      fields_simpl; destruct (edge_invalid e); auto.
  - intros r. unfold is_missing.
    apply edgesToNodes_Ok in H as [(Hu & -> & ->) | (Hu & m & Hm & -> & ->)];
      fields_simpl; auto.
  - intros Hu.
    apply edgesToNodes_Ok in H as [(_ & -> & ->) | (Hu' & _)]; [|congruence].
    split_and!; [done | done | by fields_simpl..].
  - intros r Hr.
    apply edgesToNodes_Ok in H as [(Hu & -> & ->) | (Hu & m & Hm & -> & ->)];
      by fields_simpl.
Qed.

Lemma augment_step n res i st y st' :
  LInv (RNode n) res st → Shape st → RNode tree ∈ seen st →
  tv_seen st !! RNode n = Some res → ref_ok st i →
  augment (RNode n) res i st = Ok (y, st') →
  LInv (RNode n) res st' ∧ grows st st' ∧ steady st st' ∧ Shape st' ∧
  ref_ok st' y ∧ (y ∉ seen st) ∧ _parent (fields_of st' y) = Some res ∧
  (if decide (i ∈ seen st) then is_node y = false ∧ ¬ ref_ok st y
   else y = i ∧ synth st' = synth st) ∧
  (args ≠ [] → is_node y = true) ∧
  (∀ r, _invalid (fields_of st' r) = true → _invalid (fields_of st r) = true) ∧
  (∀ r, is_missing (fields_of st' r) = true →
        is_missing (fields_of st r) = true) ∧
  (i ∈ seen st →
   y = RObj (length (synth st)) ∧
   synth st' =
     (synth st ++ [Deduped (obj_pkgid (deref st i))
                     (obj_package (deref st i))])%list ∧
   _dedupe (fields_of st' y) = true ∧
   _missing (fields_of st' y) = None ∧
   _invalid (fields_of st' y) = false) ∧
  (∀ r, r ≠ y → fields_of st' r = fields_of st r).
Proof.
  intros HL HS Hroot Htv Hoki H.
  pose proof (augment_wp True (λ _, I) (RNode n) res i st Hoki HL) as Hw.
  rewrite H in Hw. destruct Hw as (Hg & Hok & _). cbn [fst snd] in *.
  destruct HL as (HI & Hn & Hres & k & Hk & Hgt).
  pose proof (fresh_not_seen _ HI) as Hfresh.
  pose proof (fresh_not_ok st) as Hnok.
  apply augment_Ok in H as (st0 & its & H0 & Hc & Hargs & ->).
  assert ((y ∉ seen st) ∧ y ≠ RNode n ∧
          (∀ r, r ≠ y → fields_of st0 r = fields_of st r) ∧
          synth st `prefix_of` synth st0 ∧ seen st0 = seen st ∧
          problems st0 = problems st ∧ queue st0 = queue st ∧
          tv_seen st0 = tv_seen st ∧ items st0 = items st ∧
          (ref_ok st y → fields_of st0 y = fields_of st y) ∧
          (_invalid (fields_of st0 y) = true →
           _invalid (fields_of st y) = true) ∧
          (_missing (fields_of st0 y) = _missing (fields_of st y) ∨
           _missing (fields_of st0 y) = None))
    as (Hy & Hyn & Hf0 & Hpre & Hse0 & Hpr0 & Hq0 & Htv0 & Hit0 & Hfy & Hinv0 &
        Hmis0).
  { destruct (decide (i ∈ seen st)) as [Hin|Hin]; destruct H0 as [-> ->].
    - split_and!; simpl; try done.
      + intros r Hr. by fields_simpl.
      + by apply prefix_app_r.
      + by fields_simpl.
      + right. by fields_simpl.
    - split_and!; try done; [by intros -> | by left]. }
  rewrite decide_False in * by done.
  assert (steady st
            (upd_fields y
               (with_depth (S <$> _depth (fields_of st0 (RNode n))))
               (upd_fields y (with_include (included y))
                  (upd_items (λ _, its)
                     (upd_fields y (with_parent (Some res)) st0))))) as Hs.
  { split; simpl; try done.
    - intros r Hr. fields_goal; try done; by rewrite Hf0.
    - intros r Hr. fields_goal; try done; by rewrite Hf0.
    - intros r Hr. fields_goal; try done; by rewrite Hf0.
    - intros r Hr. fields_goal; [by rewrite Hfy | by rewrite Hf0].
    - intros r Hr Hp. fields_goal; [by eexists | by rewrite Hf0].
    - intros k0 Hk0. fields_goal; [by rewrite Hfy | by rewrite Hf0]. }
  split_and!; try done.
  - split_and!; [by eapply grows_Inv | by rewrite (sd_seen _ _ Hs) | |].
    + by rewrite (core_length _ _ (sd_items _ _ Hs)).
    + exists k. by rewrite (sd_depth _ _ Hs).
  - apply (Shape_steady st); [done.. |]. intros r p.
    destruct (decide (r = y)) as [->|Hne].
    + intros Hp. right. split; [by fields_goal |].
      exists n, k. split_and!; [|done..|].
      * revert Hp. fields_goal. by intros [= <-].
      * fields_goal. by rewrite Hf0, Hk.
    + intros Hp. left. revert Hp. fields_goal. by rewrite !Hf0.
  - by fields_goal.
  - destruct (decide (i ∈ seen st)) as [Hin|Hin]; destruct H0 as [-> ->]; done.
  - intros r. fields_goal; [done | by rewrite Hf0].
  - intros r. unfold is_missing. fields_goal; [|by rewrite Hf0].
    by destruct Hmis0 as [-> | ->].
  - intros Hin. rewrite decide_True in H0 by done. destruct H0 as [-> ->].
    split_and!; [done | done | by fields_goal..].
  - intros r Hr. fields_goal; try done. by apply Hf0.
Qed.

Lemma Forall2_elem_l {A B} (P : A → B → Prop) l k x :
  Forall2 P l k → x ∈ l → ∃ y, y ∈ k ∧ P x y.
Proof.
  intros HF [i Hi]%list_elem_of_lookup_1.
  destruct (Forall2_lookup_l _ _ _ _ _ HF Hi) as (y & Hy & HP).
  exists y. split; [by eapply list_elem_of_lookup_2 | done].
Qed.

Lemma Forall2_elem_r {A B} (P : A → B → Prop) l k y :
  Forall2 P l k → y ∈ k → ∃ x, x ∈ l ∧ P x y.
Proof.
  intros HF [i Hi]%list_elem_of_lookup_1.
  destruct (Forall2_lookup_r _ _ _ _ _ HF Hi) as (x & Hx & HP).
  exists x. split; [by eapply list_elem_of_lookup_2 | done].
Qed.

Lemma made_for_steady st0 s s' e y :
  steady s s' → made_for st0 s e y → made_for st0 s' e y.
Proof.
  intros Hs [Hok H]. split; [by eapply steady_ref_ok |].
  destruct (unmet e); [|done]. destruct H as [Ht Hn].
  split; [by eapply tagged_steady | done].
Qed.

Lemma made_ok_steady st st' k o :
  steady st st' → k < length (synth st) → made_ok st k o → made_ok st' k o.
Proof.
  intros Hs Hk. destruct (sd_objs _ _ Hs k Hk) as (Hd & Hi & Ht).
  pose proof (sd_missing _ _ Hs (RObj k) Hk) as Hm.
  destruct o as [name pkgid | p pkg]; simpl; rewrite (sd_seen _ _ Hs).
  - intros (n & e & ? & ? & ? & ? & ? & ? & ? & ? & ? & ?).
    exists n, e. split_and!; try done; congruence.
  - intros (n & i & ? & ? & ? & ? & ? & ? & ?).
    exists n, i. split_and!; try done; congruence.
Qed.

Lemma Made_steady st st' :
  steady st st' → length (synth st') = length (synth st) →
  Made st → Made st'.
Proof.
  intros Hs Hlen HM k o Hk.
  destruct (sd_synth _ _ Hs) as [l Hl]. rewrite Hl in Hlen.
  rewrite length_app in Hlen. destruct l; [|simpl in Hlen; lia].
  rewrite app_nil_r in Hl. rewrite Hl in Hk.
  apply (made_ok_steady st); [done | by eapply lookup_lt_Some | by apply HM].
Qed.

Lemma Made_push st st' o :
  steady st st' → synth st' = (synth st ++ [o])%list →
  Made st → made_ok st' (length (synth st)) o → Made st'.
Proof.
  intros Hs Hsy HM Ho k o' Hk. rewrite Hsy in Hk.
  apply lookup_app_Some in Hk as [Hk | [Hge Hk]].
  - apply (made_ok_steady st); [done | by eapply lookup_lt_Some | by apply HM].
  - apply list_lookup_singleton_Some in Hk as [Hk <-].
    by replace k with (length (synth st)) by lia.
Qed.

(** The children of a node: what they are, and what producing them does to
    the store. *)
Lemma getChildren_step n res st kids st' :
  Inv st → Shape st → RNode tree ∈ seen st → RNode n ∈ seen st →
  tv_seen st !! RNode n = Some res → res < length (items st) → Made st →
  getChildren (RNode n) res st = Ok (kids, st') →
  Inv st' ∧ steady st st' ∧ Shape st' ∧
  Forall (λ y, ref_ok st' y ∧ (y ∉ seen st) ∧
               _parent (fields_of st' y) = Some res) kids ∧
  (∀ m, RNode m ∈ kids → child_of n m) ∧
  (∀ k, _depth (fields_of st (RNode n)) = Some k → within k →
     (∀ m, child_of n m → RNode m ∈ seen st ∨ RNode m ∈ kids) ∧
     (∀ e, e ∈ node_edgesOut (g !!! n) → edge_kept (RNode n) e = true →
           unmet e = true → ∃ y, y ∈ kids ∧ tagged st' y e)) ∧
  (args ≠ [] → synth st' = synth st) ∧
  (∀ r, _invalid (fields_of st' r) = true →
        _invalid (fields_of st r) = true ∨
        ∃ e, e ∈ node_edgesOut (g !!! n) ∧ edge_invalid e = true ∧
             edge_kept (RNode n) e = true ∧
             ∀ m, r = RNode m → unmet e = false ∧ edge_to e = Some m) ∧
  (∀ r, is_missing (fields_of st' r) = true →
        is_missing (fields_of st r) = true ∨
        ∃ e, e ∈ node_edgesOut (g !!! n) ∧ unmet e = true) ∧
  Made st' ∧
  (∀ k, k < length (synth st) →
        fields_of st' (RObj k) = fields_of st (RObj k)).
Proof.
  intros HI HS Hroot Hn Htv Hres HM H.
  destruct (depth_gt (_depth (fields_of st (RNode n))) (depth cfg)) eqn:Hgt.
  { rewrite getChildren_cut in H by done. injection H as <- <-.
    split_and!; try done; try apply steady_refl; auto.
    - intros m Hm. by apply not_elem_of_nil in Hm.
    - intros k Hk Hw. rewrite Hk in Hgt. unfold within in Hw. congruence. }
  destruct (inv_seen_depth _ HI _ Hn) as [k Hk].
  assert (LInv (RNode n) res st) as HL.
  { split_and!; [done.. |]. exists k. by rewrite <- Hk. }
  apply getChildren_Ok in H as (l1 & st1 & l3 & H1 & H3 & ->); [|done].
  set (es := filter (λ e, edge_kept (RNode n) e = true)
               (node_edgesOut (g !!! n))) in *.
  set (cs := filter (λ c, node_extraneous (g !!! c) = true)
               (node_children (g !!! n))) in *.
  (* the first map *)
  pose proof (mapM_fold edgesToNodes
    (λ xs zs s,
       LInv (RNode n) res s ∧ steady st s ∧ Shape s ∧
       Forall2 (made_for st s) xs zs ∧
       (Forall (λ e, unmet e = false) xs → synth s = synth st) ∧
       (∀ r, _invalid (fields_of s r) = true →
             _invalid (fields_of st r) = true ∨
             ∃ e, e ∈ xs ∧ edge_invalid e = true ∧
                  ∀ m, r = RNode m → unmet e = false ∧ edge_to e = Some m) ∧
       (∀ r, is_missing (fields_of s r) = true →
             is_missing (fields_of st r) = true ∨
             ∃ e, e ∈ xs ∧ unmet e = true) ∧
       Made s ∧
       (∀ k, k < length (synth st) →
             fields_of s (RObj k) = fields_of st (RObj k)))
    es st l1 st1 H1) as P1.
  destruct P1 as (HL1 & Hs1 & HS1 & HF1 & Hsy1 & Hinv1 & Hmis1 & HM1 & Hold1).
  { split_and!; [done | apply steady_refl | done | constructor | done | auto..]. }
  { intros xs zs x s y s'
      (HLs & Hss & HSs & HFs & Hsys & Hinvs & Hmiss & HMs & Holds) Hx Hy.
    destruct (edgesToNodes_step x s y s') as
      (HI' & Hg' & Hs' & HS' & Hok' & Hcase & Hinv' & Hmis' & Hnew' & Hfr');
      [apply HLs | done | by rewrite (sd_seen _ _ Hss) | done |].
    split_and!.
    - by eapply grows_LInv.
    - by eapply steady_trans.
    - done.
    - apply Forall2_app.
      + eapply Forall2_impl; [done |]. intros e z. by apply made_for_steady.
      + constructor; [|constructor]. split; [done |].
        destruct (unmet x); [|apply Hcase]. destruct Hcase as [Ht Hnok].
        split; [done |]. intros Hok. apply Hnok. by eapply steady_ref_ok.
    - intros [Hxs Hux]%Forall_app. apply Forall_inv in Hux.
      rewrite Hux in Hcase. destruct Hcase as [_ ->]. by apply Hsys.
    - intros r Hr. destruct (Hinv' r Hr) as [Ho | [He ->]].
      + destruct (Hinvs r Ho) as [? | (e & He & ?)]; [by left |].
        right. exists e. split; [|done]. apply elem_of_app. by left.
      + right. exists x. split_and!; [apply elem_of_app; right; by left | done |].
        intros m ->. destruct (unmet x).
        * by destruct Hcase as [(? & [=] & _) _].
        * destruct Hcase as [(m' & Hm' & [= <-]) _]. done.
    - intros r Hr. destruct (Hmis' r Hr) as [Ho | He].
      + destruct (Hmiss r Ho) as [? | (e & He & ?)]; [by left |].
        right. exists e. split; [|done]. apply elem_of_app. by left.
      + right. exists x. split; [|done]. apply elem_of_app. right. by left.
    - destruct (unmet x) eqn:Hu.
      + destruct (Hnew' eq_refl) as (-> & Hsy' & Hi' & Ht' & Hd').
        eapply Made_push; [done.. |].
        apply list_elem_of_filter in Hx as [Hkept Hx].
        destruct Hcase as [(k' & [= <-] & _ & Hm') _].
        exists n, x. split_and!; try done.
        rewrite (sd_seen _ _ Hs'), (sd_seen _ _ Hss). done.
      + destruct Hcase as [_ Hsy']. apply (Made_steady s); [done | | done].
        by rewrite Hsy'.
    - intros k0 Hk0. rewrite Hfr'; [by apply Holds |].
      pose proof (prefix_length _ _ (sd_synth _ _ Hss)) as Hle.
      destruct (unmet x) eqn:Hu.
      + destruct (Hnew' eq_refl) as (-> & _). intros [= ->]. lia.
      + destruct Hcase as [(m & _ & ->) _]. done. }
  assert (∀ x, x ∈ l1 → x ∈ seen st → ∃ m, x = RNode m) as Hnode1.
  { intros x Hx Hin. destruct (Forall2_elem_r _ _ _ _ HF1 Hx) as (e & _ & _ & Hc).
    destruct (unmet e).
    - destruct Hc as [_ Hnok]. destruct Hnok. apply (inv_fresh _ HI). by left.
    - destruct Hc as (m & _ & ->). by exists m. }
  (* the second map *)
  set (l2 := (l1 ++ (RNode <$> cs))%list) in *.
  assert (∀ k0, RObj k0 ∈ l2 → length (synth st) ≤ k0) as Hnew2.
  { intros k0 [Hx | Hx]%elem_of_app.
    - destruct (Forall2_elem_r _ _ _ _ HF1 Hx) as (e & _ & _ & Hc).
      destruct (unmet e).
      + destruct Hc as [_ Hnok]. simpl in Hnok. lia.
      + by destruct Hc as (m & _ & [=]).
    - by apply list_elem_of_fmap in Hx as (c & [=] & _). }
  assert (Forall (ref_ok st1) l2) as Hok2.
  { apply Forall_app. split.
    - apply Forall_forall. intros y Hy.
      destruct (Forall2_elem_r _ _ _ _ HF1 Hy) as (e & _ & He). apply He.
    - by apply Forall_fmap, Forall_true. }
  pose proof (mapM_fold (augment (RNode n) res)
    (λ xs zs s,
       LInv (RNode n) res s ∧ steady st1 s ∧ Shape s ∧
       Forall (λ y, ref_ok s y ∧ (y ∉ seen st) ∧
                    _parent (fields_of s y) = Some res) zs ∧
       Forall2 (kept_as st) xs zs ∧
       (args ≠ [] → synth s = synth st1 ∧
                    Forall (λ i, is_node i = true) xs) ∧
       (∀ r, _invalid (fields_of s r) = true →
             _invalid (fields_of st1 r) = true) ∧
       (∀ r, is_missing (fields_of s r) = true →
             is_missing (fields_of st1 r) = true) ∧
       Made s ∧
       (∀ k, k < length (synth st) →
             fields_of s (RObj k) = fields_of st1 (RObj k)))
    l2 st1 l3 st' H3) as P3.
  destruct P3 as
    (HL3 & Hs3 & HS3 & HF3 & HK3 & Hsy3 & Hinv3 & Hmis3 & HM3 & Hold3).
  { split_and!; [done | apply steady_refl | done | constructor | constructor
                 | done | auto..]. }
  { intros xs zs x s y s'
      (HLs & Hss & HSs & HFs & HKs & Hsys & Hinvs & Hmiss & HMs & Holds) Hx Hy.
    assert (seen s = seen st) as Hseen.
    { by rewrite (sd_seen _ _ Hss), (sd_seen _ _ Hs1). }
    destruct (augment_step n res x s y s') as
      (HL' & Hg' & Hs' & HS' & Hok' & Hns' & Hp' & Hcase & Hargs' & Hinv' &
       Hmis' & Hnew' & Hfr');
      [done | done | by rewrite Hseen
       | by rewrite (sd_tv_seen _ _ Hss), (sd_tv_seen _ _ Hs1) | | done |].
    { eapply steady_ref_ok; [done |]. rewrite Forall_forall in Hok2.
      by apply Hok2. }
    rewrite Hseen in Hns', Hcase.
    split_and!.
    - done.
    - by eapply steady_trans.
    - done.
    - apply Forall_app. split.
      + eapply Forall_impl; [done |]. intros z (Hz1 & Hz2 & Hz3).
        split_and!; [by eapply steady_ref_ok | done |].
        destruct (decide (z = y)) as [->|Hne]; [done |]. by rewrite Hfr'.
      + by apply Forall_singleton.
    - apply Forall2_app; [done |]. constructor; [|constructor].
      unfold kept_as. destruct (decide (x ∈ seen st)); [apply Hcase |].
      apply Hcase.
    - intros Ha. destruct (Hsys Ha) as [Hsy Hxs].
      specialize (Hargs' Ha).
      destruct (decide (x ∈ seen st)).
      + destruct Hcase as [Hf _]. congruence.
      + destruct Hcase as [-> ->]. split; [done |].
        apply Forall_app. split; [done |]. by apply Forall_singleton.
    - intros r Hr. by apply Hinvs, Hinv'.
    - intros r Hr. by apply Hmiss, Hmis'.
    - destruct (decide (x ∈ seen st)) as [Hin|Hin].
      + rewrite <- Hseen in Hin.
        destruct (Hnew' Hin) as (-> & Hsy' & Hd' & Hm' & Hi').
        eapply Made_push; [done.. |].
        assert (∃ m, x = RNode m) as [m ->].
        { apply elem_of_app in Hx as [Hx | Hx].
          - apply Hnode1; [done |]. by rewrite <- Hseen.
          - apply list_elem_of_fmap in Hx as (c & -> & _). by exists c. }
        apply list_elem_of_lookup_1 in Hin as [i0 Hi0].
        exists m, i0. rewrite (sd_seen _ _ Hs').
        split_and!; try done.
        intros j Hj. apply list_elem_of_lookup_2 in Hj.
        rewrite Hseen in Hj. done.
      + destruct Hcase as [_ Hsy']. apply (Made_steady s); [done | | done].
        by rewrite Hsy'.
    - intros k0 Hk0. rewrite Hfr'; [by apply Holds |].
      pose proof (prefix_length _ _ (sd_synth _ _ Hss)) as Hle.
      pose proof (prefix_length _ _ (sd_synth _ _ Hs1)) as Hle1.
      destruct (decide (x ∈ seen st)) as [Hin|Hin].
      + rewrite <- Hseen in Hin. destruct (Hnew' Hin) as (-> & _).
        intros [= ->]. lia.
      + destruct Hcase as [-> _]. intros <-.
        specialize (Hnew2 _ Hx). lia. }
  assert (∀ y, y ∈ sort (by_pkgid st') l3 ↔ y ∈ l3) as Hsort.
  { intros y. by rewrite sort_perm. }
  assert (steady st st') as Hs by (by eapply steady_trans).
  split_and!.
  - apply HL3.
  - done.
  - done.
  - rewrite sort_perm. done.
  - intros m [i [Hi Hka]]%Hsort%(Forall2_elem_r _ _ _ _ HK3).
    unfold kept_as in Hka. destruct (decide (i ∈ seen st)); [done |].
    subst i. apply elem_of_app in Hi as [Hi | Hi].
    + destruct (Forall2_elem_r _ _ _ _ HF1 Hi) as (e & He & _ & Hm).
      apply list_elem_of_filter in He as [Hkept He].
      destruct (unmet e) eqn:Hu.
      * by destruct Hm as [(? & [=] & _) _].
      * destruct Hm as (m' & Hm' & [= <-]). left. by exists e.
    + apply list_elem_of_fmap in Hi as (c & [= <-] & Hc).
      apply list_elem_of_filter in Hc as [? ?]. by right.
  - intros k' Hk' Hw. split.
    + intros m Hm.
      assert (RNode m ∈ l2) as Hin.
      { apply elem_of_app. destruct Hm as [(e & He & Hkept & Hu & Hm) | [Hc He]].
        - left.
          assert (e ∈ es) as Hes by (by apply list_elem_of_filter).
          destruct (Forall2_elem_l _ _ _ _ HF1 Hes) as (y & Hy & _ & Hc).
          rewrite Hu in Hc. destruct Hc as (m' & Hm' & ->). congruence.
        - right. apply list_elem_of_fmap. exists m. split; [done |].
          by apply list_elem_of_filter. }
      destruct (Forall2_elem_l _ _ _ _ HK3 Hin) as (y & Hy & Hc).
      unfold kept_as in Hc. destruct (decide (RNode m ∈ seen st)); [by left |].
      subst y. right. by apply Hsort.
    + intros e He Hkept Hu.
      assert (e ∈ es) as Hes by (by apply list_elem_of_filter).
      destruct (Forall2_elem_l _ _ _ _ HF1 Hes) as (y & Hy & Hok & Hc).
      rewrite Hu in Hc. destruct Hc as [Ht Hnok].
      assert (y ∈ l2) as Hin by (apply elem_of_app; by left).
      destruct (Forall2_elem_l _ _ _ _ HK3 Hin) as (y' & Hy' & Hc).
      unfold kept_as in Hc. destruct (decide (y ∈ seen st)) as [Hys|_].
      { destruct Hnok. apply (inv_fresh _ HI). by left. }
      subst y'. exists y. split; [by apply Hsort |].
      by apply (tagged_steady st1 st').
  - intros Ha. destruct (Hsy3 Ha) as [-> Hn2]. apply Hsy1.
    apply Forall_forall. intros e He.
    destruct (Forall2_elem_l _ _ _ _ HF1 He) as (y & Hy & _ & Hc).
    destruct (unmet e); [|done]. destruct Hc as [(k' & -> & _) _].
    rewrite Forall_forall in Hn2. assert (RObj k' ∈ l2) as Hin.
    { apply elem_of_app. by left. }
    by specialize (Hn2 _ Hin).
  - intros r Hr.
    destruct (Hinv1 r (Hinv3 r Hr)) as [? | (e & He & ? & ?)]; [by left |].
    apply list_elem_of_filter in He as [? ?]. right. by exists e.
  - intros r Hr. destruct (Hmis1 r (Hmis3 r Hr)) as [? | (e & He & ?)];
      [by left |].
    right. exists e. split; [|done]. by apply list_elem_of_filter in He as [_ ?].
  - done.
  - intros k0 Hk0. rewrite Hold3 by done. by apply Hold1.
Qed.

(** ** A visit *)

Lemma pushed_nodes (its : list Item) new (par : option nat) (inc : bool) p :
  nodes new = [] → (∀ p', par = Some p' → p' < length its) →
  p ≤ length its →
  nodes ((match inc, par with
          | true, Some p' => alter (item_push (length its)) p' (its ++ [new])
          | _, _ => its ++ [new]
          end)%list !!! p) =
  ((if decide (p < length its) then nodes (its !!! p) else []) ++
   (if bool_decide (par = Some p) && inc then [length its] else []))%list.
Proof.
  intros Hnew Hpar Hp.
  assert (nodes ((its ++ [new])%list !!! p) =
          if decide (p < length its) then nodes (its !!! p) else []) as Hbase.
  { case_decide.
    - by rewrite lookup_total_app_l.
    - rewrite lookup_total_app_r by lia.
      replace (p - length its) with 0 by lia. done. }
  destruct inc, par as [p'|]; rewrite ?andb_false_r, ?app_nil_r; try done.
  - specialize (Hpar p' eq_refl). rewrite andb_true_r.
    rewrite list_lookup_total_alter.
    destruct (decide (p' = p ∧ p' < length (its ++ [new])%list))
      as [[-> _]|Hd].
    + rewrite bool_decide_true by done. simpl. by rewrite Hbase.
    + rewrite bool_decide_false; [by rewrite Hbase, app_nil_r |].
      intros [= ->]. apply Hd. split; [done |]. rewrite length_app. lia.
Qed.

Lemma visit_step r st res s1 :
  Inv st → Shape st → (∀ x, x ∈ seen st → is_Some (tv_seen st !! x)) →
  tv_seen st !! r = None →
  visit r st = Ok (res, s1) →
  Shape (upd_tv_seen <[r:=res]> s1) ∧ (r ∉ seen st) ∧
  seen s1 = (seen st ++ [r])%list ∧ res = length (items st).
Proof.
  intros HI HS Htv Hr H.
  apply visit_Ok in H as
    (lbl & problem & HG & -> & Hse & Hit & Hpr & Hqu & Htv1 & Hsy & Hf).
  assert (r ∉ seen st) as Hnr.
  { intros Hin. destruct (Htv r Hin) as [x Hx]. congruence. }
  assert (seen s1 = (seen st ++ [r])%list) as Hse'.
  { rewrite Hse. unfold set_add. by rewrite decide_False. }
  split_and!; [|done..].
  assert (∀ r', _parent (fields_of s1 r') = _parent (fields_of st r')) as Hpar.
  { intros r'. rewrite Hf. destruct (_parent (fields_of st r)) eqn:Hp; [done |].
    case_decide; [by subst | done]. }
  assert (∀ r', _include (fields_of s1 r') = _include (fields_of st r'))
    as Hinc.
  { intros r'. rewrite Hf. destruct (_parent (fields_of st r)) eqn:Hp; [done |].
    case_decide; [by subst | done]. }
  assert (∀ r', _missing (fields_of s1 r') = _missing (fields_of st r'))
    as Hmis.
  { intros r'. rewrite Hf. destruct (_parent (fields_of st r)) eqn:Hp; [done |].
    case_decide; [by subst | done]. }
  assert (∀ r', r' ≠ r ∨ is_Some (_parent (fields_of st r')) →
            _depth (fields_of s1 r') = _depth (fields_of st r')) as Hdep.
  { intros r' Hne. rewrite Hf.
    destruct (_parent (fields_of st r)) eqn:Hp; [done |].
    case_decide; [|done]. subst r'. rewrite Hp in Hne.
    destruct Hne as [? | [? ?]]; done. }
  assert (length (items s1) = S (length (items st))) as Hlen.
  { rewrite Hit. cbn zeta.
    destruct (_include (fields_of st r)), (_parent (fields_of st r));
      rewrite ?length_alter, length_app; simpl; lia. }
  pose proof (sh_items _ HS) as Hlen0.
  split; simpl; rewrite ?fields_of_upd_tv_seen.
  - rewrite Hpar. apply HS.
  - rewrite Hinc. apply HS.
  - rewrite Hse'. intros [Hin | <-%list_elem_of_singleton]%elem_of_app.
    + rewrite Hdep; [by apply HS |]. left. by intros <-.
    + rewrite Hf, (sh_root_parent _ HS). by rewrite decide_True.
  - intros r' p. rewrite fields_of_upd_tv_seen, Hpar, Hinc. apply HS.
  - intros r' p. rewrite !fields_of_upd_tv_seen, Hpar. intros Hp.
    destruct (sh_parent _ HS _ _ Hp) as (n & k & Hn & Hk & Hw & Hd).
    assert (RNode n ≠ r) as Hne by (intros <-; congruence).
    exists n, k. rewrite fields_of_upd_tv_seen.
    split_and!; [by rewrite Htv1, lookup_insert_ne | by rewrite Hdep; auto
                 | done | rewrite Hdep; [done |]; right; by eexists].
  - intros r' i. rewrite Htv1, Hse'.
    destruct (decide (r = r')) as [<-|Hne].
    + rewrite lookup_insert_eq. intros [= <-].
      rewrite Hlen0. by rewrite lookup_app_r, Nat.sub_diag.
    + rewrite lookup_insert_ne by done. intros Hi.
      by apply lookup_app_l_Some, (sh_index _ HS).
  - rewrite Hlen, Hse', length_app. simpl. lia.
  - intros p Hp. rewrite Hlen in Hp. rewrite Hit. cbn zeta.
    rewrite pushed_nodes; [|done | apply (inv_parents _ HI) | lia].
    rewrite Hse', length_app, Nat.add_1_r, seq_S, filter_app. simpl.
    rewrite <- Hlen0.
    assert (∀ c, c < length (items st) →
              under (upd_tv_seen <[r:=length (items st)]> s1) p c =
              under st p c) as Hu.
    { intros c Hc. unfold under. simpl. rewrite !fields_of_upd_tv_seen.
      rewrite Hse', lookup_total_app_l by lia. by rewrite Hpar, Hinc. }
    assert (under (upd_tv_seen <[r:=length (items st)]> s1) p
              (length (items st)) =
            bool_decide (_parent (fields_of st r) = Some p) &&
            _include (fields_of st r)) as Hul.
    { unfold under. simpl. rewrite !fields_of_upd_tv_seen.
      rewrite Hse', list_lookup_total_middle by done. by rewrite Hpar, Hinc. }
    f_equal.
    + rewrite (filter_ext_elem _ (λ c, under st p c = true)).
      2:{ intros c [_ Hc]%elem_of_seq. by rewrite Hu. }
      destruct (decide (p < length (items st))) as [Hlt|Hlt].
      * rewrite Hlen0. by apply (sh_nodes _ HS).
      * symmetry. apply filter_none. intros c _ [Hc _]%andb_prop.
        apply bool_decide_eq_true in Hc.
        apply (inv_parents _ HI) in Hc. lia.
    + rewrite (filter_singleton _ _ []), Hul.
      destruct (bool_decide _ && _); [by rewrite decide_True |].
      by rewrite decide_False.
  - intros n. rewrite fields_of_upd_tv_seen, Hmis. apply HS.
Qed.

(** ** A turn of the driver *)

Lemma Inv_pop st r q :
  Inv st → queue st = r :: q →
  Inv (upd_queue (λ _, q) st) ∧ ref_ok st r ∧ placed st r.
Proof.
  intros HI Hq. split_and!.
  - split; simpl; try apply HI.
    + intros r' [Hs | Hq']; apply (inv_fresh _ HI); [by left |].
      right. rewrite Hq. by right.
    + intros r' Hq'. apply (inv_queue _ HI). rewrite Hq. by right.
  - apply (inv_fresh _ HI). right. rewrite Hq. by left.
  - apply (inv_queue _ HI). rewrite Hq. by left.
Qed.

Lemma Shape_upd_queue f st : Shape st → Shape (upd_queue f st).
Proof. intros []. by split. Qed.

Lemma deref_prefix a b r :
  synth a `prefix_of` synth b → ref_ok a r → deref b r = deref a r.
Proof.
  intros [l Hl] Hok. destruct r as [n|k]; [done |]. simpl in *.
  by rewrite Hl, lookup_total_app_l.
Qed.

Lemma tagged_back a b y e :
  synth a `prefix_of` synth b → ref_ok a y →
  _missing (fields_of b y) = _missing (fields_of a y) →
  tagged b y e → tagged a y e.
Proof.
  intros [l Hl] Hok Hm (k & -> & Hk & Hmis). exists k.
  split_and!; [done | | congruence].
  rewrite Hl in Hk. simpl in Hok. by rewrite lookup_app_l in Hk.
Qed.

Lemma truthy_append a b : truthy a = true → truthy (a +:+ b) = true.
Proof. by destruct a. Qed.

Lemma set_add_mono {A} `{EqDecision A} (x y : A) s :
  y ∈ s → y ∈ set_add x s.
Proof. intros Hy. apply set_add_elem. by right. Qed.

Lemma healthy_node n :
  healthy →
  node_extraneous (g !!! n) = false ∧
  ∀ e, e ∈ node_edgesOut (g !!! n) →
       unmet e = false ∧ edge_invalid e = false.
Proof.
  intros Hh. rewrite list_lookup_total_alt.
  destruct (g !! n) as [nd|] eqn:Hn; simpl.
  - apply list_elem_of_lookup_2 in Hn.
    unfold healthy in Hh. rewrite Forall_forall in Hh.
    destruct (Hh nd Hn) as [He Hes]. split; [done |].
    intros e Hin. rewrite Forall_forall in Hes.
    destruct (Hes e Hin) as (Hm & Hi & [t Ht]). split; [|done].
    unfold unmet. rewrite Hm, Ht. simpl. by rewrite andb_false_r.
  - split; [done |]. intros e He. by apply not_elem_of_nil in He.
Qed.

(** What a turn that visits [r] does: [st] is the store before [r] leaves
    the queue, [s3] the store when its children have been produced. *)
Lemma core_label (a b : list Item) p :
  item_core <$> a = item_core <$> b → label (a !!! p) = label (b !!! p).
Proof.
  intros Hc. rewrite !list_lookup_total_alt.
  destruct (a !! p) as [x|] eqn:Hx.
  - destruct (core_lookup _ _ _ _ Hc Hx) as (y & -> & Hxy). simpl.
    unfold item_core in Hxy. congruence.
  - apply lookup_ge_None in Hx. rewrite (core_length _ _ Hc) in Hx.
    apply lookup_ge_None in Hx. by rewrite Hx.
Qed.

Lemma pushed_label (its : list Item) c (par : option nat) (inc : bool) i :
  label ((match inc, par with
          | true, Some p => alter (item_push c) p its
          | _, _ => its
          end) !!! i) = label (its !!! i).
Proof.
  destruct inc, par as [p|]; try done.
  rewrite list_lookup_total_alter. by case_decide as Hd; [destruct Hd as [-> _] |].
Qed.

Lemma turn_facts st r q res s1 kids s3 :
  Inv st → Shape st → Walked st → queue st = r :: q →
  tv_seen st !! r = None →
  visit r (upd_queue (λ _, q) st) = Ok (res, s1) →
  getChildren r res (upd_tv_seen <[r:=res]> s1) = Ok (kids, s3) →
  ∃ lbl,
    getHumanOutputItem (deref st r) (fields_of st r) =
      Ok (lbl, problem_of (deref st r) (fields_of st r)) ∧
    (r ∉ seen st) ∧ ref_ok st r ∧
    seen s3 = (seen st ++ [r])%list ∧
    problems s3 =
      (if truthy (problem_of (deref st r) (fields_of st r))
       then set_add (problem_of (deref st r) (fields_of st r)) (problems st)
       else problems st) ∧
    queue s3 = q ∧
    tv_seen s3 = <[r:=res]> (tv_seen st) ∧
    synth st `prefix_of` synth s3 ∧
    (args ≠ [] → synth s3 = synth st) ∧
    Shape s3 ∧
    (∀ x, x ∈ seen st →
          _depth (fields_of s3 x) = _depth (fields_of st x)) ∧
    (∀ x, ref_ok st x →
          _missing (fields_of s3 x) = _missing (fields_of st x)) ∧
    (∀ x, ref_ok st x → is_Some (_parent (fields_of st x)) →
          is_Some (_parent (fields_of s3 x))) ∧
    Forall (λ y, ref_ok s3 y ∧ is_Some (_parent (fields_of s3 y))) kids ∧
    (∀ m, RNode m ∈ kids → ∃ n, r = RNode n ∧ child_of n m) ∧
    (∀ n k, r = RNode n → _depth (fields_of s3 r) = Some k → within k →
       (∀ m, child_of n m →
             RNode m ∈ seen st ∨ RNode m = r ∨ RNode m ∈ kids) ∧
       (∀ e, e ∈ node_edgesOut (g !!! n) → edge_kept (RNode n) e = true →
             unmet e = true →
             ∃ y, y ∈ kids ∧ tagged s3 y e ∧
                  _parent (fields_of s3 y) = Some res)) ∧
    (∀ x, _invalid (fields_of s3 x) = true →
          _invalid (fields_of st x) = true ∨
          ∃ n e, r = RNode n ∧ e ∈ node_edgesOut (g !!! n) ∧
                 edge_invalid e = true ∧ edge_kept (RNode n) e = true ∧
                 ∀ m, x = RNode m → unmet e = false ∧ edge_to e = Some m) ∧
    (∀ x, is_missing (fields_of s3 x) = true →
          is_missing (fields_of st x) = true ∨
          ∃ n e, r = RNode n ∧ e ∈ node_edgesOut (g !!! n) ∧
                 unmet e = true) ∧
    Made s3 ∧
    (∀ i, i < length (items st) →
          label (items s3 !!! i) = label (items st !!! i)) ∧
    label (items s3 !!! length (items st)) = lbl ∧
    (∀ k, k < length (synth st) →
          _dedupe (fields_of s3 (RObj k)) = _dedupe (fields_of st (RObj k)) ∧
          _invalid (fields_of s3 (RObj k)) =
            _invalid (fields_of st (RObj k)) ∧
          _type (fields_of s3 (RObj k)) = _type (fields_of st (RObj k))) ∧
    (∀ k, k < length (synth st) →
          _parent (fields_of s3 (RObj k)) = _parent (fields_of st (RObj k))).
Proof.
  intros HI HS HW Hq Hnone Hv Hg.
  destruct (Inv_pop _ _ _ HI Hq) as (HI0 & Hok & Hpl).
  set (s0 := upd_queue (λ _, q) st) in *.
  pose proof (visit_wp True (λ _, I) r s0 HI0 Hok Hpl) as Hw.
  rewrite Hv in Hw. cbn [fst snd] in Hw.
  destruct Hw as ((HI1 & Hin1 & Hd1) & Hres & Hq1 & Htv1).
  cbn [fst snd] in *.
  destruct (visit_step r s0 res s1 HI0 (Shape_upd_queue _ _ HS) (w_tv _ HW)
              Hnone Hv) as (HS2 & Hnr & Hse1 & Hres').
  apply visit_Ok in Hv as
    (lbl & problem & HG & _ & _ & Hit & Hpr & _ & _ & Hsy & Hf).
  pose proof (getHumanOutputItem_Ok _ _ _ HG) as Hpb. simpl in Hpb.
  subst problem. change (deref s0 r) with (deref st r) in *.
  change (fields_of s0) with (fields_of st) in *.
  change (seen s0) with (seen st) in *.
  change (problems s0) with (problems st) in *.
  change (synth s0) with (synth st) in *.
  change (tv_seen s0) with (tv_seen st) in *.
  change (queue s0) with q in *.
  change (items s0) with (items st) in *.
  set (s2 := upd_tv_seen <[r:=res]> s1) in *.
  assert (Inv s2) as HI2 by (by apply Inv_upd_tv_seen).
  assert (∀ x, _parent (fields_of s2 x) = _parent (fields_of st x)) as Hpar.
  { intros x. unfold s2. rewrite fields_of_upd_tv_seen, Hf.
    destruct (_parent (fields_of st r)) eqn:Hp; [done |].
    case_decide as Hd; [by destruct Hd | done]. }
  assert (∀ x, _missing (fields_of s2 x) = _missing (fields_of st x)) as Hmis.
  { intros x. unfold s2. rewrite fields_of_upd_tv_seen, Hf.
    destruct (_parent (fields_of st r)) eqn:Hp; [done |].
    case_decide as Hd; [by destruct Hd | done]. }
  assert (∀ x, _invalid (fields_of s2 x) = _invalid (fields_of st x)) as Hinv.
  { intros x. unfold s2. rewrite fields_of_upd_tv_seen, Hf.
    destruct (_parent (fields_of st r)) eqn:Hp; [done |].
    case_decide as Hd; [by destruct Hd | done]. }
  assert (∀ x, _dedupe (fields_of s2 x) = _dedupe (fields_of st x)) as Hded.
  { intros x. unfold s2. rewrite fields_of_upd_tv_seen, Hf.
    destruct (_parent (fields_of st r)) eqn:Hp; [done |].
    case_decide as Hd; [by destruct Hd | done]. }
  assert (∀ x, _type (fields_of s2 x) = _type (fields_of st x)) as Htyp.
  { intros x. unfold s2. rewrite fields_of_upd_tv_seen, Hf.
    destruct (_parent (fields_of st r)) eqn:Hp; [done |].
    case_decide as Hd; [by destruct Hd | done]. }
  assert (Made s2) as HM2.
  { intros k o Hk. simpl in Hk. rewrite Hsy in Hk.
    pose proof (w_made _ HW k o Hk) as Ho.
    destruct o as [name pkgid | p pkg]; simpl in *;
      rewrite Hse1, Hmis, Hinv, ?Hded, ?Htyp.
    - destruct Ho as (n & e & Hn & Ho). exists n, e. split; [|done].
      apply elem_of_app. by left.
    - destruct Ho as (n & i & Hi & ? & ? & Hj & ? & ? & ?). exists n, i.
      split_and!; try done; [by apply lookup_app_l_Some |].
      intros j [Hj' | [Hge _]]%lookup_app_Some; [by apply Hj |].
      apply lookup_lt_Some in Hi. lia. }
  assert (∀ x, x ≠ r → _depth (fields_of s2 x) = _depth (fields_of st x))
    as Hdep.
  { intros x Hx. unfold s2. rewrite fields_of_upd_tv_seen, Hf.
    destruct (_parent (fields_of st r)); [done |]. by rewrite decide_False. }
  assert (RNode tree ∈ seen s2) as Hroot2.
  { simpl. rewrite Hse1. apply elem_of_app.
    destruct (w_root _ HW) as [? | [_ Hqt]]; [by left |].
    right. rewrite Hq in Hqt. injection Hqt as -> _. by left. }
  assert (r ∈ seen s2) as Hin2 by done.
  assert (tv_seen s2 !! r = Some res) as Htv2.
  { simpl. by rewrite lookup_insert_eq. }
  assert (Inv s3 ∧ steady s2 s3 ∧ Shape s3 ∧
    Forall (λ y, ref_ok s3 y ∧ (y ∉ seen s2) ∧
                 _parent (fields_of s3 y) = Some res) kids ∧
    (∀ m, RNode m ∈ kids → ∃ n, r = RNode n ∧ child_of n m) ∧
    (∀ n k, r = RNode n → _depth (fields_of s2 r) = Some k → within k →
       (∀ m, child_of n m → RNode m ∈ seen s2 ∨ RNode m ∈ kids) ∧
       (∀ e, e ∈ node_edgesOut (g !!! n) → edge_kept (RNode n) e = true →
             unmet e = true → ∃ y, y ∈ kids ∧ tagged s3 y e)) ∧
    (args ≠ [] → synth s3 = synth s2) ∧
    (∀ x, _invalid (fields_of s3 x) = true →
          _invalid (fields_of s2 x) = true ∨
          ∃ n e, r = RNode n ∧ e ∈ node_edgesOut (g !!! n) ∧
                 edge_invalid e = true ∧ edge_kept (RNode n) e = true ∧
                 ∀ m, x = RNode m → unmet e = false ∧ edge_to e = Some m) ∧
    (∀ x, is_missing (fields_of s3 x) = true →
          is_missing (fields_of s2 x) = true ∨
          ∃ n e, r = RNode n ∧ e ∈ node_edgesOut (g !!! n) ∧
                 unmet e = true) ∧
    Made s3 ∧
    (∀ k, k < length (synth s2) →
          fields_of s3 (RObj k) = fields_of s2 (RObj k)))
    as (HI3 & Hs & HS3 & Hkids & Hk1 & Hk2 & Hsy3 & Hinv3 & Hmis3 & HM3 &
        Hold3).
  { destruct r as [n|k].
    - destruct (getChildren_step n res s2 kids s3 HI2 HS2 Hroot2 Hin2 Htv2 Hres
                  HM2 Hg) as (? & ? & ? & ? & K1 & K2 & ? & Hi & Hm & ? & ?).
      split_and!; try done.
      + intros m Hm'. exists n. split; [done |]. by apply K1.
      + intros n' k [= <-]. apply K2.
      + intros x Hx. destruct (Hi x Hx) as [? | (e & ? & ? & ? & ?)];
          [by left |].
        right. by exists n, e.
      + intros x Hx. destruct (Hm x Hx) as [? | (e & ? & ?)]; [by left |].
        right. by exists n, e.
    - injection Hg as <- <-.
      split_and!; try done; try apply steady_refl; auto.
      intros m Hm. by apply not_elem_of_nil in Hm. }
  exists lbl. split_and!.
  - done.
  - done.
  - done.
  - by rewrite (sd_seen _ _ Hs).
  - by rewrite (sd_problems _ _ Hs).
  - rewrite (sd_queue _ _ Hs). simpl. congruence.
  - rewrite (sd_tv_seen _ _ Hs). simpl. congruence.
  - destruct (sd_synth _ _ Hs) as [l Hl]. exists l. rewrite Hl. simpl.
    congruence.
  - intros Ha. rewrite (Hsy3 Ha). simpl. congruence.
  - done.
  - intros x Hx. rewrite (sd_depth _ _ Hs).
    + apply Hdep. by intros ->.
    + simpl. rewrite Hse1. apply elem_of_app. by left.
  - intros x Hx. rewrite (sd_missing _ _ Hs); [by apply Hmis |].
    destruct x; [done |]. simpl in *. by rewrite Hsy.
  - intros x Hx Hp. apply (sd_hung _ _ Hs).
    + destruct x; [done |]. simpl in *. by rewrite Hsy.
    + by rewrite Hpar.
  - eapply Forall_impl; [done |]. intros y (? & _ & ->). by split; [|eexists].
  - done.
  - intros n k -> Hk Hw.
    rewrite (sd_depth _ _ Hs) in Hk by done.
    destruct (Hk2 n k eq_refl Hk Hw) as [K2 K3]. split.
    + intros m Hm. destruct (K2 m Hm) as [Hin | ?]; [|auto].
      simpl in Hin. rewrite Hse1 in Hin.
      apply elem_of_app in Hin as [? | ->%list_elem_of_singleton]; auto.
    + intros e He Hkept Hu. destruct (K3 e He Hkept Hu) as (y & Hy & Ht).
      exists y. split_and!; [done.. |].
      rewrite Forall_forall in Hkids. by apply Hkids.
  - intros x Hx. destruct (Hinv3 x Hx) as [Hi | ?]; [|by right].
    left. by rewrite <- Hinv.
  - intros x Hx. destruct (Hmis3 x Hx) as [Hi | ?]; [|by right].
    left. unfold is_missing in *. by rewrite <- Hmis.
  - done.
  - intros i Hi. rewrite (core_label _ _ i (sd_items _ _ Hs)). simpl.
    rewrite Hit. cbn zeta. rewrite pushed_label.
    by rewrite lookup_total_app_l.
  - rewrite (core_label _ _ _ (sd_items _ _ Hs)). simpl.
    rewrite Hit. cbn zeta. rewrite pushed_label.
    by rewrite list_lookup_total_middle.
  - intros k Hk. destruct (sd_objs _ _ Hs k) as (-> & -> & ->).
    { simpl. by rewrite Hsy. }
    by rewrite Hded, Hinv, Htyp.
  - intros k Hk. rewrite Hold3 by (simpl; by rewrite Hsy). apply Hpar.
Qed.

Lemma tagged_forward a b y e :
  synth a `prefix_of` synth b → ref_ok a y →
  _missing (fields_of b y) = _missing (fields_of a y) →
  tagged a y e → tagged b y e.
Proof.
  intros [l Hl] Hok Hm (k & -> & Hk & Hmis). exists k.
  split_and!; [done | | congruence].
  rewrite Hl. by apply lookup_app_l_Some.
Qed.

Lemma tagged_problem st y e :
  tagged st y e →
  problem_of (deref st y) (fields_of st y) = missing_problem e.
Proof.
  intros (k & -> & Hk & Hm). unfold problem_of, is_missing. rewrite Hm.
  rewrite truthy_pkgid. simpl.
  by rewrite (list_lookup_total_correct _ _ _ Hk).
Qed.

Lemma truthy_missing_problem e : truthy (missing_problem e) = true.
Proof. done. Qed.

Lemma getHumanOutputItem_long o f x :
  long cfg = true → getHumanOutputItem o f = Ok x → is_Some (obj_package o).
Proof.
  unfold getHumanOutputItem. intros ->. destruct (isGitNode o); [|done].
  destruct (obj_package o); [by eexists | done].
Qed.

Lemma label_marks o f f' :
  _missing f = _missing f' → _dedupe f = _dedupe f' →
  _invalid f = _invalid f' → _type f = _type f' →
  getHumanOutputItem o f = getHumanOutputItem o f'.
Proof.
  intros Hm Hd Hi Ht.
  unfold getHumanOutputItem, problem_of, is_missing, missingMsg.
  by rewrite Hm, Hd, Hi, Ht.
Qed.

Lemma made_placeholder st k name pkgid :
  Made st → synth st !! k = Some (Placeholder name pkgid) →
  ∃ n e, RNode n ∈ seen st ∧ e ∈ node_edgesOut (g !!! n) ∧
         edge_kept (RNode n) e = true ∧ unmet e = true ∧
         tagged st (RObj k) e ∧ is_missing (fields_of st (RObj k)) = true.
Proof.
  intros HM Hk.
  destruct (HM _ _ Hk) as (n & e & Hn & He & Hkept & Hu & -> & -> & Hmi & _).
  exists n, e. split_and!; [done.. | by exists k |].
  unfold is_missing. rewrite Hmi. apply truthy_pkgid.
Qed.

Lemma problem_of_form st r :
  Shape st → Walked st → ref_ok st r →
  truthy (problem_of (deref st r) (fields_of st r)) = true →
  problem_form st r (problem_of (deref st r) (fields_of st r)).
Proof.
  intros HS HW Hok.
  assert (∀ k, r = RObj k →
            (∃ n e, RNode n ∈ seen st ∧ e ∈ node_edgesOut (g !!! n) ∧
                    edge_kept (RNode n) e = true ∧ unmet e = true ∧
                    tagged st r e ∧ is_missing (fields_of st r) = true) ∨
            (is_missing (fields_of st r) = false ∧
             _invalid (fields_of st r) = false)) as Hobj.
  { intros k ->. simpl in Hok. apply lookup_lt_is_Some_2 in Hok as [o Ho].
    destruct o as [name pkgid | p pkg].
    - left. by eapply made_placeholder; [apply HW |].
    - right. destruct (w_made _ HW _ _ Ho) as (n & i & _ & _ & _ & _ & _ & Hmi & Hi).
      unfold is_missing. by rewrite Hmi. }
  unfold problem_of.
  destruct (is_missing (fields_of st r)) eqn:Hmis.
  - intros _. destruct r as [n|k].
    { unfold is_missing in Hmis. by rewrite (sh_node_missing _ HS n) in Hmis. }
    destruct (Hobj k eq_refl) as [(n & e & Hn & He & Hkept & Hu & Ht & _) | [? _]];
      [|done].
    left. exists n, e. split_and!; [done.. |].
    rewrite <- (tagged_problem _ _ _ Ht). unfold problem_of. by rewrite Hmis.
  - destruct (_invalid (fields_of st r)) eqn:Hi.
    + intros _. destruct r as [n|k].
      * destruct (w_invalid _ HW n Hi) as (m & e & ? & ? & ? & ? & ? & ?).
        right. left. exists n, m, e. by split_and!.
      * destruct (Hobj k eq_refl) as [(_ & _ & _ & _ & _ & _ & _ & ?) | [_ ?]];
          congruence.
    + destruct (obj_extraneous (deref st r)) eqn:He; [|done]. intros _.
      destruct r as [n|k]; [|done]. right. right. by exists n.
Qed.

Lemma problem_of_extraneous st n :
  _missing (fields_of st (RNode n)) = None →
  node_extraneous (g !!! n) = true →
  problem_of (deref st (RNode n)) (fields_of st (RNode n)) = invalid_problem n ∨
  problem_of (deref st (RNode n)) (fields_of st (RNode n)) =
    extraneous_problem n.
Proof.
  intros Hm He. unfold problem_of, is_missing. rewrite Hm. simpl. rewrite He.
  destruct (_invalid _); [by left | by right].
Qed.

Lemma Shape_init : Shape (upd_queue (λ q, (q ++ [RNode tree])%list) init).
Proof.
  assert (∀ r, _parent (fields_of init r) = None ∧
               _missing (fields_of init r) = None) as Hf.
  { intros r. unfold fields_of, init. simpl.
    destruct (decide (r = RNode tree)) as [->|Hne].
    - by rewrite lookup_singleton_eq.
    - by rewrite lookup_singleton_ne. }
  split; simpl; rewrite ?fields_of_upd_queue.
  - apply Hf.
  - unfold fields_of, init. simpl. by rewrite lookup_singleton_eq.
  - intros Hr. by apply not_elem_of_nil in Hr.
  - intros r p. rewrite fields_of_upd_queue. by rewrite (proj1 (Hf r)).
  - intros r p. rewrite fields_of_upd_queue. by rewrite (proj1 (Hf r)).
  - intros r i. by rewrite lookup_empty.
  - done.
  - intros p Hp. lia.
  - intros n. rewrite fields_of_upd_queue. apply Hf.
Qed.

Lemma Walked_init : Walked (upd_queue (λ q, (q ++ [RNode tree])%list) init).
Proof.
  assert (∀ r, fields_of init r = no_fields ∨
               fields_of init r =
                 with_include (bool_decide (args = [])) no_fields) as Hf.
  { intros r. unfold fields_of, init. simpl.
    destruct (decide (r = RNode tree)) as [->|Hne].
    - right. by rewrite lookup_singleton_eq.
    - left. by rewrite lookup_singleton_ne. }
  split; simpl.
  - intros r Hr. by apply not_elem_of_nil in Hr.
  - by right.
  - by left.
  - intros r [Hr | Hr%list_elem_of_singleton] Hne; [|done].
    by apply not_elem_of_nil in Hr.
  - intros n [Hr | [= ->]%list_elem_of_singleton]; [|constructor].
    by apply not_elem_of_nil in Hr.
  - intros n k m Hr. by apply not_elem_of_nil in Hr.
  - intros n k e Hr. by apply not_elem_of_nil in Hr.
  - intros y e Hr. by apply not_elem_of_nil in Hr.
  - intros n Hr. by apply not_elem_of_nil in Hr.
  - intros p Hp. by apply not_elem_of_nil in Hp.
  - intros n Hn. rewrite fields_of_upd_queue in Hn.
    by destruct (Hf (RNode n)) as [Hx | Hx]; rewrite Hx in Hn.
  - done.
  - intros _ r Hr. by apply not_elem_of_nil in Hr.
  - intros _. split; [done |]. intros r. rewrite fields_of_upd_queue.
    by destruct (Hf r) as [-> | ->].
  - intros k o Hk. simpl in Hk. done.
  - intros i k Hi. simpl in Hi. done.
Qed.

Lemma walk_turn st r q st' :
  Inv st → Shape st ∧ Walked st → queue st = r :: q →
  visitNode r (upd_queue (λ _, q) st) = Ok (tt, st') →
  Shape st' ∧ Walked st'.
Proof.
  intros HI [HS HW] Hq H.
  assert (∀ x, x ∈ q → x ∈ queue st) as Hqq.
  { intros x Hx. rewrite Hq. by right. }
  assert (r ∈ queue st) as Hrq by (rewrite Hq; by left).
  apply visitNode_Ok in H as
    [[Hsome ->] | (Hnone & res & s1 & kids & s3 & Hv & Hg & ->)].
  { (* [r] was visited before *)
    simpl in Hsome. destruct Hsome as [i Hi].
    pose proof (Shape_index_seen _ _ _ HS Hi) as Hrs.
    split; [by apply Shape_upd_queue |].
    split; simpl.
    - apply HW.
    - destruct (w_root _ HW) as [? | [Hnil _]]; [by left |].
      rewrite Hnil in Hrs. by apply not_elem_of_nil in Hrs.
    - apply HW.
    - intros x [Hx | Hx]; apply (w_hung _ HW); auto.
    - intros n [Hx | Hx]; apply (w_reach _ HW); auto.
    - intros n k m Hn Hk Hw Hm.
      destruct (w_closed _ HW n k m Hn Hk Hw Hm) as [? | Hin]; [by left |].
      rewrite Hq in Hin. apply elem_of_cons in Hin as [-> | ?]; auto.
    - intros n k e Hn Hk Hw He Hkept Hu.
      destruct (w_unmet _ HW n k e Hn Hk Hw He Hkept Hu) as (y & Hy & Ht).
      exists y. split; [|done]. destruct Hy as [? | Hy]; [by left |].
      rewrite Hq in Hy. apply elem_of_cons in Hy as [-> | ?]; auto.
    - apply HW.
    - apply HW.
    - apply HW.
    - apply HW.
    - apply HW.
    - apply HW.
    - apply HW.
    - apply HW.
    - apply HW. }
  destruct (turn_facts st r q res s1 kids s3 HI HS HW Hq Hnone Hv Hg) as
    (lbl & HG & Hnr & Hok & Hse & Hpr & Hqu & Htv & Hpre & Hargs & HS3 &
     Hdep & Hmis & Hhung & Hkids & K1 & K2 & Hinv3 & Hmis3 & HM3 & Hlbl &
     Hlbl' & Hobjs & Hpold).
  set (pb := problem_of (deref st r) (fields_of st r)) in *.
  assert (∀ x, x ∈ seen st ∨ x ∈ queue st → ref_ok st x) as Hfresh.
  { apply (inv_fresh _ HI). }
  assert (∀ p, p ∈ problems st → p ∈ problems s3) as Hpmono.
  { intros p Hp. rewrite Hpr. destruct (truthy pb); [|done].
    by apply set_add_mono. }
  assert (truthy pb = true → pb ∈ problems s3) as Hpnew.
  { intros Ht. rewrite Hpr, Ht. apply set_add_elem. by left. }
  split; [by apply Shape_upd_queue |].
  split; simpl; rewrite ?fields_of_upd_queue.
  - (* w_tv *)
    intros x. rewrite Hse, Htv.
    intros [Hx | ->%list_elem_of_singleton]%elem_of_app.
    + destruct (decide (r = x)) as [->|Hne].
      * by rewrite lookup_insert_eq.
      * rewrite lookup_insert_ne by done. by apply (w_tv _ HW).
    + by rewrite lookup_insert_eq.
  - (* w_root *)
    left. rewrite Hse. apply elem_of_app.
    destruct (w_root _ HW) as [? | [_ Hqt]]; [by left |].
    right. rewrite Hq in Hqt. injection Hqt as -> _. by left.
  - (* w_first *)
    right. rewrite Hse. destruct (w_first _ HW) as [Hnil | H0].
    + rewrite Hnil. simpl. f_equal.
      destruct (w_root _ HW) as [Hin | [_ Hqt]].
      * rewrite Hnil in Hin. by apply not_elem_of_nil in Hin.
      * rewrite Hq in Hqt. by injection Hqt as -> _.
    + by apply lookup_app_l_Some.
  - (* w_hung *)
    intros x Hx Hne. rewrite fields_of_upd_queue.
    assert (x ∈ seen st ∨ x ∈ queue st ∨ x ∈ kids) as [Hx' | [Hx' | Hx']].
    { rewrite Hse, Hqu in Hx.
      destruct Hx as [[? | ->%list_elem_of_singleton]%elem_of_app
                     | [? | ?]%elem_of_app]; auto. }
    + apply Hhung; [by apply Hfresh; left |]. apply (w_hung _ HW); auto.
    + apply Hhung; [by apply Hfresh; right |]. apply (w_hung _ HW); auto.
    + rewrite Forall_forall in Hkids. by apply Hkids.
  - (* w_reach *)
    intros n Hx.
    assert (RNode n ∈ seen st ∨ RNode n ∈ queue st ∨ RNode n ∈ kids)
      as [Hx' | [Hx' | Hx']].
    { rewrite Hse, Hqu in Hx.
      destruct Hx as [[? | ->%list_elem_of_singleton]%elem_of_app
                     | [? | ?]%elem_of_app]; auto. }
    + apply (w_reach _ HW); auto.
    + apply (w_reach _ HW); auto.
    + destruct (K1 n Hx') as (n' & -> & Hc).
      eapply reach_step; [|done]. apply (w_reach _ HW); auto.
  - (* w_closed *)
    intros n k m. rewrite fields_of_upd_queue, Hse, Hqu.
    intros [Hn | Hn%list_elem_of_singleton]%elem_of_app Hk Hw Hm.
    + rewrite Hdep in Hk by done.
      destruct (w_closed _ HW n k m Hn Hk Hw Hm) as [? | Hin].
      * left. apply elem_of_app. by left.
      * rewrite Hq in Hin. apply elem_of_cons in Hin as [-> | ?].
        -- left. apply elem_of_app. right. by left.
        -- right. apply elem_of_app. by left.
    + subst r. destruct (K2 n k eq_refl Hk Hw) as [K _].
      destruct (K m Hm) as [? | [-> | ?]].
      * left. apply elem_of_app. by left.
      * left. apply elem_of_app. right. by left.
      * right. apply elem_of_app. by right.
  - (* w_unmet *)
    intros n k e. rewrite fields_of_upd_queue, Hse, Hqu.
    intros [Hn | Hn%list_elem_of_singleton]%elem_of_app Hk Hw He Hkept Hu.
    + rewrite Hdep in Hk by done.
      destruct (w_unmet _ HW n k e Hn Hk Hw He Hkept Hu)
        as (y & Hy & Ht & p & Hp & Hyp).
      exists y. split_and!.
      * destruct Hy as [? | Hin].
        -- left. apply elem_of_app. by left.
        -- rewrite Hq in Hin. apply elem_of_cons in Hin as [-> | ?].
           ++ left. apply elem_of_app. right. by left.
           ++ right. apply elem_of_app. by left.
      * apply (tagged_forward st); [done | by apply Hfresh | | done].
        apply Hmis. by apply Hfresh.
      * exists p. rewrite Htv. split.
        -- rewrite lookup_insert_ne; [done |]. by intros ->.
        -- rewrite fields_of_upd_queue.
           destruct Ht as (k0 & -> & Hk0 & _). rewrite Hpold; [done |].
           by eapply lookup_lt_Some.
    + subst r. destruct (K2 n k eq_refl Hk Hw) as [_ K].
      destruct (K e He Hkept Hu) as (y & Hy & Ht & Hyp).
      exists y. split_and!; [right; apply elem_of_app; by right | done |].
      exists res. rewrite Htv, lookup_insert_eq, fields_of_upd_queue. done.
  - (* w_reported *)
    intros y e. rewrite Hse.
    intros [Hy | ->%list_elem_of_singleton]%elem_of_app Ht.
    + apply Hpmono, (w_reported _ HW y e Hy).
      apply (tagged_back st s3); [done | by apply Hfresh; left | | done].
      apply Hmis. apply Hfresh. by left.
    + assert (tagged st r e) as Ht0.
      { apply (tagged_back st s3); [done.. | by apply Hmis | done]. }
      rewrite <- (tagged_problem _ _ _ Ht0). apply Hpnew.
      fold pb. unfold pb. rewrite (tagged_problem _ _ _ Ht0).
      apply truthy_missing_problem.
  - (* w_extraneous *)
    intros n. rewrite Hse.
    intros [Hn | Hn%list_elem_of_singleton]%elem_of_app He.
    + destruct (w_extraneous _ HW n Hn He); auto.
    + subst r.
      destruct (problem_of_extraneous st n (sh_node_missing _ HS n) He)
        as [Hp | Hp]; [left | right]; rewrite <- Hp; apply Hpnew;
        fold pb; unfold pb; by rewrite Hp.
  - (* w_source *)
    intros p Hp.
    assert (∀ x, ref_ok st x → problem_form st x p → problem_form s3 x p)
      as Hform.
    { intros x Hx
        [(n & e & Hn & He & Hk & Hu & Ht & ->) |
         [(n & m & e & -> & Hm & ? & ? & ? & ? & ? & ?) | (n & -> & ? & ?)]].
      - left. exists n, e. split_and!; try done.
        + rewrite Hse. apply elem_of_app. by left.
        + apply (tagged_forward st); [done | done | by apply Hmis | done].
      - right. left. exists n, m, e. split_and!; try done.
        rewrite Hse. apply elem_of_app. by left.
      - right. right. by exists n. }
    assert (p ∈ problems st ∨ (p = pb ∧ truthy pb = true)) as [Hold | [-> Ht]].
    { rewrite Hpr in Hp. destruct (truthy pb); [|by left].
      apply set_add_elem in Hp as [-> | ?]; auto. }
    + destruct (w_source _ HW p Hold) as (x & Hx & Hf). exists x. split.
      * rewrite Hse. apply elem_of_app. by left.
      * apply Hform; [by apply Hfresh; left | done].
    + exists r. split.
      * rewrite Hse. apply elem_of_app. right. by left.
      * apply Hform; [done |]. by apply problem_of_form.
  - (* w_invalid *)
    intros n Hi. rewrite fields_of_upd_queue in Hi.
    destruct (Hinv3 _ Hi) as [Ho | (n' & e & -> & He & Hie & Hk & Hm)].
    + destruct (w_invalid _ HW n Ho) as (m & e & Hm & ?). exists m, e.
      split; [|done]. rewrite Hse. apply elem_of_app. by left.
    + destruct (Hm n eq_refl) as [Hu Ht]. exists n', e.
      split_and!; try done. rewrite Hse. apply elem_of_app. right. by left.
  - (* w_filter *)
    intros Ha. rewrite (Hargs Ha). by apply HW.
  - (* w_long *)
    intros Hl x. rewrite Hse.
    intros [Hx | ->%list_elem_of_singleton]%elem_of_app.
    + change (deref (upd_queue (λ q0, (q0 ++ kids)%list) s3) x)
        with (deref s3 x).
      rewrite (deref_prefix st s3 x Hpre) by (by apply Hfresh; left).
      by apply (w_long _ HW).
    + change (deref (upd_queue (λ q0, (q0 ++ kids)%list) s3) r)
        with (deref s3 r).
      rewrite (deref_prefix st s3 r Hpre) by done.
      by eapply getHumanOutputItem_long.
  - (* w_healthy *)
    intros Hh. destruct (w_healthy _ HW Hh) as [Hp0 Hf0].
    assert (truthy pb = false) as Hpb.
    { unfold pb, problem_of. destruct (Hf0 r) as [-> ->].
      destruct r as [n|k]; [|done]. simpl.
      by rewrite (proj1 (healthy_node n Hh)). }
    split; [by rewrite Hpr, Hpb |].
    intros x. rewrite fields_of_upd_queue. split.
    + destruct (is_missing (fields_of s3 x)) eqn:Hm; [|done].
      destruct (Hmis3 x Hm) as [Ho | (n & e & _ & He & Hu)].
      * by rewrite (proj1 (Hf0 x)) in Ho.
      * destruct (proj2 (healthy_node n Hh) e He). congruence.
    + destruct (_invalid (fields_of s3 x)) eqn:Hm; [|done].
      destruct (Hinv3 x Hm) as [Ho | (n & e & _ & He & Hu & _)].
      * by rewrite (proj2 (Hf0 x)) in Ho.
      * destruct (proj2 (healthy_node n Hh) e He). congruence.
  - (* w_made *)
    apply HM3.
  - (* w_label *)
    intros i k Hi. rewrite ?fields_of_upd_queue.
    change (OSynth (synth s3 !!! k)) with (deref s3 (RObj k)).
    assert (ref_ok st (RObj k) →
            getHumanOutputItem (deref s3 (RObj k)) (fields_of s3 (RObj k)) =
            getHumanOutputItem (deref st (RObj k)) (fields_of st (RObj k)))
      as Hsame.
    { intros Hk. rewrite (deref_prefix st s3 _ Hpre Hk).
      destruct (Hobjs k Hk) as (? & ? & ?).
      apply label_marks; [by apply Hmis | done..]. }
    rewrite Hse in Hi. apply lookup_app_Some in Hi as [Hi | [Hge Hi]].
    + rewrite Hsame by (apply Hfresh; left; by eapply list_elem_of_lookup_2).
      rewrite Hlbl.
      * by apply (w_label _ HW).
      * rewrite (sh_items _ HS). by eapply lookup_lt_Some.
    + apply list_lookup_singleton_Some in Hi as [Hi ->].
      rewrite Hsame by done.
      replace i with (length (items st)) by (rewrite (sh_items _ HS); lia).
      rewrite Hlbl'. by eexists.
Qed.

(** What holds of the store when the walk has returned *)
Lemma walk_Walked res st :
  walk = Ok (res, st) →
  Inv st ∧ Shape st ∧ Walked st ∧ queue st = [] ∧
  res = tv_seen st !! RNode tree.
Proof.
  intros Hw. destruct (walk_Inv _ _ Hw) as (HI & _ & _).
  destruct (walk_ind (λ s, Shape s ∧ Walked s)) with (res := res) (st := st)
    as ([HS HW] & Hq & Hr).
  - split; [apply Shape_init | apply Walked_init].
  - intros s r q s' HIs HJ Hqs Hv. by eapply walk_turn.
  - done.
  - done.
Qed.

(** ** The problems *)

Lemma truthy_ne s : truthy s = true ↔ s ≠ "".
Proof.
  unfold truthy. destruct (String.eqb_spec s "") as [->|Hne]; simpl.
  - split; [done | by intros H].
  - done.
Qed.

Lemma set_add_prefix {A} `{EqDecision A} (x : A) s : s `prefix_of` set_add x s.
Proof.
  unfold set_add. destruct (decide (x ∈ s)); [done | by apply prefix_app_r].
Qed.

Lemma set_add_length {A} `{EqDecision A} (x : A) s :
  length (set_add x s) = if decide (x ∈ s) then length s else S (length s).
Proof.
  unfold set_add. destruct (decide (x ∈ s)); [done |].
  rewrite length_app. simpl. lia.
Qed.

(** C6.  For every traversal node visited, included or not, the problem
    derived is the first that applies of: missing (the node carries the
    missing marker), invalid, extraneous, none; a placeholder always
    carries the marker, and the stand-in of a deduped position carries
    neither mark nor flag: none is derived for it.  The visit collects the
    problem, when there is one, in a set: the problem is a member
    afterwards, what was collected before stays, in its order, nothing else
    comes in, and a string that is a member already is not added again.
    When the walk has returned the collected problems hold no string twice;
    the problem of every visited placeholder is among them, and so is a
    problem for every visited extraneous node. *)
Theorem problem_priority :
  (∀ o f lbl problem,
     getHumanOutputItem o f = Ok (lbl, problem) →
     problem =
       if is_missing f
       then "missing: " +:+ obj_pkgid o +:+ ", required by " +:+
            show (_missing f)
       else if _invalid f
       then "invalid: " +:+ obj_pkgid o +:+ " " +:+ show (obj_path o)
       else if obj_extraneous o
       then "extraneous: " +:+ obj_pkgid o +:+ " " +:+ show (obj_path o)
       else "") ∧
  (∀ e st k st',
     edgesToNodes e st = Ok (RObj k, st') →
     is_missing (fields_of st' (RObj k)) = true) ∧
  (∀ node nodeResult i st r st',
     augment node nodeResult i st = Ok (r, st') → i ∈ seen st →
     _dedupe (fields_of st' r) = true ∧
     problem_of (deref st' r) (fields_of st' r) = "") ∧
  (∀ r st item st',
     visit r st = Ok (item, st') →
     ∃ lbl problem,
       getHumanOutputItem (deref st r) (fields_of st r) = Ok (lbl, problem) ∧
       (∀ q, q ∈ problems st' ↔
             q ∈ problems st ∨ (q = problem ∧ problem ≠ "")) ∧
       problems st `prefix_of` problems st' ∧
       length (problems st') =
         (if decide (problem = "" ∨ problem ∈ problems st)
          then length (problems st) else S (length (problems st))) ∧
       (NoDup (problems st) → NoDup (problems st'))) ∧
  (∀ res st,
     walk = Ok (res, st) →
     NoDup (problems st) ∧
     ∀ r, r ∈ seen st →
       (is_missing (fields_of st r) = true →
        "missing: " +:+ obj_pkgid (deref st r) +:+ ", required by " +:+
          show (_missing (fields_of st r)) ∈ problems st) ∧
       (obj_extraneous (deref st r) = true →
        "invalid: " +:+ obj_pkgid (deref st r) +:+ " " +:+
          show (obj_path (deref st r)) ∈ problems st ∨
        "extraneous: " +:+ obj_pkgid (deref st r) +:+ " " +:+
          show (obj_path (deref st r)) ∈ problems st)).
Proof.
  split_and!.
  - intros o f lbl problem H. by apply getHumanOutputItem_Ok in H.
  - intros e st k st'. unfold edgesToNodes. cbn zeta.
    destruct (edge_missing e || _) eqn:Hm.
    + intros H. unfold bind, alloc, set_fields, modify, ret in H.
      injection H as <- <-. unfold is_missing. fields_simpl.
      apply truthy_pkgid.
    + intros H. unfold bind, ret in H. simpl in H.
      destruct (edge_to e); simpl in H; [|done].
      unfold set_fields, modify in H. by injection H.
  - intros node nodeResult i st r st' H Hin.
    destruct (augment_seen _ _ _ _ _ _ H Hin) as (-> & Hd & Hm & Hi).
    split; [done |]. unfold problem_of, is_missing. by rewrite Hm, Hi.
  - intros r st item st' H.
    apply visit_Ok in H as (lbl & pb & HG & _ & _ & _ & Hpr & _).
    exists lbl, pb. split; [done |]. rewrite Hpr.
    destruct (truthy pb) eqn:Ht.
    + apply truthy_ne in Ht. split_and!.
      * intros q. rewrite set_add_elem. tauto.
      * apply set_add_prefix.
      * rewrite set_add_length.
        destruct (decide (pb ∈ problems st)), (decide (pb = "" ∨ _)); tauto.
      * apply set_add_NoDup.
    + assert (pb = "") as Hpb.
      { destruct (decide (pb = "")); [done |]. apply truthy_ne in n.
        congruence. }
      split_and!; [intros q; tauto | done | | done].
      rewrite decide_True; [done | by left].
  - intros res st Hw.
    pose proof (walk_Walked _ _ Hw) as (HI & HS & HW & _).
    split; [apply HI |]. intros r Hr. split.
    + intros Hmis. destruct r as [n|k].
      { unfold is_missing in Hmis. by rewrite (sh_node_missing _ HS n) in Hmis. }
      pose proof (inv_fresh _ HI _ (or_introl Hr)) as Hok. simpl in Hok.
      apply lookup_lt_is_Some_2 in Hok as [o Ho].
      destruct o as [name pkgid | p pkg].
      * destruct (made_placeholder st k name pkgid (w_made _ HW) Ho)
          as (n & e & _ & _ & _ & _ & Ht & _).
        pose proof (w_reported _ HW _ _ Hr Ht) as Hin.
        rewrite <- (tagged_problem _ _ _ Ht) in Hin.
        unfold problem_of in Hin. by rewrite Hmis in Hin.
      * destruct (w_made _ HW _ _ Ho) as (n & i & _ & _ & _ & _ & _ & Hmi & _).
        unfold is_missing in Hmis. by rewrite Hmi in Hmis.
    + intros He. destruct r as [n|k]; [|done].
      by apply (w_extraneous _ HW n).
Qed.

(** ** What the walk can raise *)

Lemma tame_bind {A B} (c : M A) (k : A → M B) :
  tame c → (∀ a, tame (k a)) → tame (bind c k).
Proof.
  intros Hc Hk st e. unfold bind.
  destruct (c st) as [[a s]|e'|] eqn:Hcs; [apply Hk | | done].
  intros [= <-]. by eapply Hc.
Qed.

Lemma tame_ret {A} (a : A) : tame (ret a).
Proof. by intros st e. Qed.

Lemma tame_get : tame get.
Proof. by intros st e. Qed.

Lemma tame_modify f : tame (modify f).
Proof. by intros st e. Qed.

Lemma tame_alloc o : tame (alloc o).
Proof. by intros st e. Qed.

Lemma tame_throw {A} : tame (throw (A:=A) TypeError).
Proof. intros st e [= <-]. by left. Qed.

Lemma tame_raise {A} e : raised e → tame (throw (A:=A) e).
Proof. intros He st e' [= <-]. by right. Qed.

Lemma tame_mapM {A B} (f : A → M B) l : (∀ x, tame (f x)) → tame (mapM f l).
Proof.
  intros Hf. induction l as [|x l IH]; [apply tame_ret |].
  simpl. apply tame_bind; [done |]. intros y.
  apply tame_bind; [done |]. intros ys. apply tame_ret.
Qed.

Lemma tame_some {A} (f : A → M bool) l :
  (∀ x, x ∈ l → tame (f x)) → tame (some f l).
Proof.
  induction l as [|x l IH]; intros Hf; [apply tame_ret |].
  simpl. apply tame_bind; [apply Hf; by left |].
  intros []; [apply tame_ret |]. apply IH. intros y Hy. apply Hf. by right.
Qed.

Ltac tame_step :=
  lazymatch goal with
  | |- tame (bind _ _) => apply tame_bind; [|intros ?]
  | |- tame (ret _) => apply tame_ret
  | |- tame get => apply tame_get
  | |- tame (modify _) => apply tame_modify
  | |- tame (set_fields _ _) => apply tame_modify
  | |- tame (set_items _) => apply tame_modify
  | |- tame (alloc _) => apply tame_alloc
  | |- tame (throw TypeError) => apply tame_throw
  | |- tame (if ?b then _ else _) => destruct b
  | |- tame (match ?x with _ => _ end) => destruct x
  end.

Lemma tame_mark_parents fuel p : tame (mark_parents fuel p).
Proof.
  revert p. induction fuel as [|fuel IH]; intros [i|]; simpl;
    try (by intros st e); repeat tame_step. apply IH.
Qed.

Lemma tame_filterByPositionalArgs node : tame (filterByPositionalArgs node).
Proof.
  unfold filterByPositionalArgs. destruct args as [|a l] eqn:Ha;
    [apply tame_ret |].
  rewrite <- Ha. apply tame_some. intros spec Hspec. unfold shouldInclude.
  apply tame_bind; [apply tame_get |]. intros st.
  destruct (deref st node) as [n|o] eqn:Hd; [|apply tame_throw].
  destruct (node_satisfies n spec) as [[]|e] eqn:Hs.
  - repeat tame_step. apply tame_mark_parents.
  - apply tame_ret.
  - apply tame_raise. left. destruct node as [m|k]; [|done].
    injection Hd as <-. by exists m, spec.
Qed.

Lemma tame_edgesToNodes e : tame (edgesToNodes e).
Proof. unfold edgesToNodes. cbn zeta. repeat tame_step. Qed.

Lemma tame_augment node res i : tame (augment node res i).
Proof.
  unfold augment. repeat tame_step; try apply tame_filterByPositionalArgs;
    repeat tame_step.
Qed.

Lemma tame_getChildren node res : tame (getChildren node res).
Proof.
  unfold getChildren. repeat tame_step;
    try (apply tame_mapM; intros ?;
         first [apply tame_edgesToNodes | apply tame_augment]);
    repeat tame_step.
Qed.

Lemma tame_visit r : tame (visit r).
Proof.
  unfold visit. apply tame_bind; [apply tame_modify |]. intros [].
  apply tame_bind; [apply tame_get |]. intros st0.
  destruct (getHumanOutputItem _ _) as [[lbl problem]|e|] eqn:HG.
  - cbn zeta. repeat tame_step.
  - intros st e' [= <-].
    apply getHumanOutputItem_Throw in HG as [HG | (_ & _ & ->)]; [|by left].
    right. right. destruct r as [n|k]; [by exists n | done].
  - by intros st e.
Qed.

Lemma tame_visitNode r : tame (visitNode r).
Proof.
  unfold visitNode. repeat tame_step;
    first [apply tame_visit | apply tame_getChildren].
Qed.

Lemma tame_next fuel : tame (next fuel).
Proof.
  induction fuel as [|fuel IH]; intros st e; simpl;
    destruct (queue st); try done.
  apply tame_bind; [apply tame_visitNode | done].
Qed.

Lemma walk_Throw e : walk = Throw e → e = TypeError ∨ raised e.
Proof.
  unfold walk, breadth. apply tame_bind; [apply tame_modify |].
  intros []. apply tame_bind; [apply tame_next |]. intros [].
  repeat tame_step.
Qed.

(** How the walk can end *)
Lemma walk_cases :
  (∃ e, walk = Throw e ∧ (e = TypeError ∨ raised e)) ∨
  ∃ res st, walk = Ok (Some res, st).
Proof.
  destruct walk as [[res st]|e|] eqn:Hw.
  - right. destruct (walk_Inv _ _ Hw) as (_ & _ & [r ->]). eauto.
  - left. exists e. split; [done |]. by apply walk_Throw.
  - pose proof (walk_wp True (λ _, I)) as Hd. by rewrite Hw in Hd.
Qed.

(** ** The walk as a whole *)

Lemma walk_root res st :
  walk = Ok (res, st) →
  RNode tree ∈ seen st ∧ _depth (fields_of st (RNode tree)) = Some 0.
Proof.
  intros (_ & HS & HW & Hq & _)%walk_Walked.
  assert (RNode tree ∈ seen st) as Hr.
  { destruct (w_root _ HW) as [? | [_ Hqt]]; [done | congruence]. }
  split; [done | by apply HS].
Qed.

Lemma walk_closed res st n k m :
  walk = Ok (res, st) → RNode n ∈ seen st →
  _depth (fields_of st (RNode n)) = Some k → within k → child_of n m →
  RNode m ∈ seen st.
Proof.
  intros (_ & _ & HW & Hq & _)%walk_Walked Hn Hk Hw Hm.
  destruct (w_closed _ HW n k m Hn Hk Hw Hm) as [? | Hin]; [done |].
  rewrite Hq in Hin. by apply not_elem_of_nil in Hin.
Qed.

Lemma walk_unlimited res st n :
  depth cfg = Infinity → walk = Ok (res, st) → reach n → RNode n ∈ seen st.
Proof.
  intros Hd Hw. induction 1 as [|n m _ IH Hm]; [by apply (walk_root res) |].
  destruct (walk_Inv _ _ Hw) as (HI & _).
  destruct (inv_seen_depth _ HI _ IH) as [k Hk].
  eapply walk_closed; [done.. | | done]. unfold within. by rewrite Hd.
Qed.

Lemma walk_unmet res st n k e :
  walk = Ok (res, st) → RNode n ∈ seen st →
  _depth (fields_of st (RNode n)) = Some k → within k →
  e ∈ node_edgesOut (g !!! n) → edge_kept (RNode n) e = true →
  unmet e = true →
  ∃ y, y ∈ seen st ∧ tagged st y e ∧
       ∃ p, tv_seen st !! RNode n = Some p ∧ _parent (fields_of st y) = Some p.
Proof.
  intros (_ & _ & HW & Hq & _)%walk_Walked Hn Hk Hw He Hkept Hu.
  destruct (w_unmet _ HW n k e Hn Hk Hw He Hkept Hu) as (y & [? | Hin] & Ht);
    [by exists y |].
  rewrite Hq in Hin. by apply not_elem_of_nil in Hin.
Qed.

(** Under a filter or in the long form a walk that returns has visited no
    placeholder. *)
Lemma strict_no_placeholder res st y e :
  walk = Ok (res, st) → args ≠ [] ∨ long cfg = true →
  y ∈ seen st → tagged st y e → False.
Proof.
  intros (_ & _ & HW & _)%walk_Walked Hstrict Hy (k & -> & Hk & _).
  destruct Hstrict as [Ha | Hl].
  - by rewrite (w_filter _ HW Ha) in Hk.
  - destruct (w_long _ HW Hl _ Hy) as [p Hp]. simpl in Hp.
    by rewrite (list_lookup_total_correct _ _ _ Hk) in Hp.
Qed.

(** X5.  Every node that the walk visits is reachable from the root: it is
    the root, or [getChildren] handed it out for a visited node, as the
    target of an edge that passed the filters or as an extraneous child. *)
Theorem visited_nodes_reachable res st n :
  walk = Ok (res, st) → RNode n ∈ seen st → reach n.
Proof.
  intros (_ & _ & HW & _)%walk_Walked Hn. apply (w_reach _ HW). by left.
Qed.

(** X6.  Nothing within the depth limit is missed: when a visited node is
    within the limit, every node that [getChildren] hands out for it has
    been visited too; with an unlimited depth every node reachable from the
    root is visited. *)
Theorem walk_covers_children res st :
  walk = Ok (res, st) →
  (∀ n k m, RNode n ∈ seen st → _depth (fields_of st (RNode n)) = Some k →
            within k → child_of n m → RNode m ∈ seen st) ∧
  (depth cfg = Infinity → ∀ n, reach n → RNode n ∈ seen st).
Proof.
  intros Hw. split.
  - intros n k m. by apply (walk_closed res).
  - intros Hd n. by apply (walk_unlimited res).
Qed.

(** X7.  The [_include] mark of a visited object is the answer of the
    positional filters for that object alone, whatever matched below it;
    the mark of the root says whether there is no filter.  So the flat
    rendering lists the visited nodes that have a path and satisfy a filter
    themselves, and the root only without filters. *)
Theorem include_mark_is_filter_match res st :
  walk = Ok (res, st) →
  _include (fields_of st (RNode tree)) = bool_decide (args = []) ∧
  (∀ r, r ∈ seen st → r ≠ RNode tree →
        _include (fields_of st r) = included r) ∧
  (∀ n, n ∈ parseable_deps st ↔
        RNode n ∈ seen st ∧ truthy (node_path (g !!! n)) = true ∧
        if decide (n = tree) then args = [] else included (RNode n) = true).
Proof.
  intros (_ & HS & HW & _)%walk_Walked.
  assert (∀ r, r ∈ seen st → r ≠ RNode tree →
               _include (fields_of st r) = included r) as Hinc.
  { intros r Hr Hne. destruct (w_hung _ HW r (or_introl Hr) Hne) as [p Hp].
    by apply (sh_include _ HS r p). }
  split_and!; [apply HS | done |].
  intros n. unfold parseable_deps. rewrite list_elem_of_omap. split.
  - intros ([n'|k] & Hin & H); [|done].
    destruct (truthy _ && _) eqn:Hb; [|done]. injection H as ->.
    apply andb_prop in Hb as [Ht Hi]. split_and!; [done.. |].
    case_decide as Hn.
    + subst n. rewrite (sh_root_include _ HS) in Hi.
      by apply bool_decide_eq_true in Hi.
    + rewrite <- Hinc; [done.. |]. by intros [= ->].
  - intros (Hin & Ht & Hi). exists (RNode n). split; [done |].
    rewrite Ht. simpl. case_decide as Hn.
    + subst n. rewrite (sh_root_include _ HS).
      by rewrite bool_decide_true.
    + rewrite Hinc, Hi; [done.. |]. by intros [= ->].
Qed.

Lemma walk_index res st i r :
  walk = Ok (res, st) → seen st !! i = Some r ↔ tv_seen st !! r = Some i.
Proof.
  intros (HI & HS & HW & _)%walk_Walked. split; [|apply HS].
  intros Hi. destruct (w_tv _ HW r) as [j Hj].
  { by eapply list_elem_of_lookup_2. }
  rewrite Hj. f_equal.
  eapply NoDup_lookup; [apply (inv_seen _ HI) | by apply (sh_index _ HS) | done].
Qed.

(** X8.  The result items mirror the visits: the i-th visited object made
    the i-th item, the root made the item that the driver returns, and the
    entries pushed under an item are, in the order of the visits, the
    visited objects whose [_parent] is that item and whose [_include] mark
    is set. *)
Theorem result_items_mirror_visits res st :
  walk = Ok (res, st) →
  res = Some 0 ∧ length (items st) = length (seen st) ∧
  (∀ i r, seen st !! i = Some r ↔ tv_seen st !! r = Some i) ∧
  (∀ p, p < length (items st) →
        nodes (items st !!! p) =
        filter (λ c, under st p c = true) (seq 0 (length (seen st)))).
Proof.
  intros Hw. pose proof (walk_Walked _ _ Hw) as (HI & HS & HW & Hq & Hres).
  split_and!.
  - rewrite Hres. apply (walk_index res); [done |].
    destruct (w_first _ HW) as [Hnil | H0]; [|done].
    destruct (walk_root _ _ Hw) as [Hr _]. rewrite Hnil in Hr.
    by apply not_elem_of_nil in Hr.
  - apply HS.
  - intros i r. by apply (walk_index res).
  - apply HS.
Qed.

(** X9.  The root has depth 0 and no parent; every other visited object
    hangs under the item of a visited node that is within the depth limit,
    one level above it.  So an item with entries belongs to a node within
    the limit: the objects made during the walk, and the nodes beyond the
    limit, are leaves. *)
Theorem entries_hang_one_level_down res st :
  walk = Ok (res, st) →
  (_parent (fields_of st (RNode tree)) = None ∧
   _depth (fields_of st (RNode tree)) = Some 0) ∧
  (∀ r, r ∈ seen st → r ≠ RNode tree →
     ∃ n k p, seen st !! p = Some (RNode n) ∧
              _parent (fields_of st r) = Some p ∧
              _depth (fields_of st (RNode n)) = Some k ∧ within k ∧
              _depth (fields_of st r) = Some (S k)) ∧
  (∀ i, nodes (items st !!! i) ≠ [] →
     ∃ n k, seen st !! i = Some (RNode n) ∧
            _depth (fields_of st (RNode n)) = Some k ∧ within k).
Proof.
  intros Hw. pose proof (walk_Walked _ _ Hw) as (HI & HS & HW & Hq & _).
  split; [|split].
  - split; [apply HS | by apply (walk_root res)].
  - intros r Hr Hne. destruct (w_hung _ HW r (or_introl Hr) Hne) as [p Hp].
    destruct (sh_parent _ HS r p Hp) as (n & k & Hn & Hk & Hwi & Hd).
    exists n, k, p. split_and!; [by apply (sh_index _ HS) | done..].
  - intros i Hi.
    destruct (decide (i < length (items st))) as [Hlt|Hge].
    + rewrite (sh_nodes _ HS i Hlt) in Hi.
      destruct (filter _ _) as [|c l] eqn:Hf; [done |].
      assert (c ∈ filter (λ c, under st i c = true)
                     (seq 0 (length (seen st)))) as Hc.
      { rewrite Hf. by left. }
      apply list_elem_of_filter in Hc as [[Hp _]%andb_prop _].
      apply bool_decide_eq_true in Hp.
      destruct (sh_parent _ HS _ _ Hp) as (n & k & Hn & Hk & Hwi & _).
      exists n, k. split_and!; [by apply (sh_index _ HS) | done..].
    + rewrite list_lookup_total_alt in Hi.
      rewrite (proj2 (lookup_ge_None _ _)) in Hi by lia. done.
Qed.

(** X10.  Under a positional filter a walk that returns has made no object
    of its own, placeholder or deduped stand-in: what it visited are nodes,
    and no visited node within the depth limit has an unmet edge that passed
    the filters. *)
Theorem filtered_walk_makes_no_object res st :
  args ≠ [] → walk = Ok (res, st) →
  synth st = [] ∧ (∀ r, r ∈ seen st → is_node r = true) ∧
  (∀ n k e, RNode n ∈ seen st → _depth (fields_of st (RNode n)) = Some k →
            within k → e ∈ node_edgesOut (g !!! n) →
            edge_kept (RNode n) e = true → unmet e = false).
Proof.
  intros Ha Hw. pose proof (walk_Walked _ _ Hw) as (HI & HS & HW & Hq & _).
  split_and!.
  - by apply HW.
  - intros [n|k] Hr; [done |].
    pose proof (inv_fresh _ HI _ (or_introl Hr)) as Hok. simpl in Hok.
    rewrite (w_filter _ HW Ha) in Hok. simpl in Hok. lia.
  - intros n k e Hn Hk Hwi He Hkept. destruct (unmet e) eqn:Hu; [|done].
    destruct (walk_unmet _ _ n k e Hw Hn Hk Hwi He Hkept Hu)
      as (y & Hy & Ht & _).
    destruct (strict_no_placeholder _ _ y e Hw (or_introl Ha) Hy Ht).
Qed.

(** X11.  In the long form a walk that returns has visited only objects with
    a [package], nodes and deduped stand-ins: no visited node within the
    depth limit has an unmet edge that passed the filters. *)
Theorem long_walk_meets_no_unmet_edge res st :
  long cfg = true → walk = Ok (res, st) →
  (∀ r, r ∈ seen st → is_Some (obj_package (deref st r))) ∧
  (∀ n k e, RNode n ∈ seen st → _depth (fields_of st (RNode n)) = Some k →
            within k → e ∈ node_edgesOut (g !!! n) →
            edge_kept (RNode n) e = true → unmet e = false).
Proof.
  intros Hl Hw. pose proof (walk_Walked _ _ Hw) as (HI & HS & HW & Hq & _).
  split.
  - by apply HW.
  - intros n k e Hn Hk Hwi He Hkept. destruct (unmet e) eqn:Hu; [|done].
    destruct (walk_unmet _ _ n k e Hw Hn Hk Hwi He Hkept Hu)
      as (y & Hy & Ht & _).
    destruct (strict_no_placeholder _ _ y e Hw (or_intror Hl) Hy Ht).
Qed.

(** X12.  Under a positional filter, or in the long form, an unmet edge that
    passes the filters makes the report fail before it prints: when the
    edge leaves the root (and the depth limit is not negative), or any
    reachable node (and the depth is unlimited), [ls] is left by an
    exception, nothing is printed and the exit status is left alone.  The
    exception is a [TypeError], unless a call of [satisfies] or of [npa]
    has thrown before: then it is what that call threw. *)
Theorem unmet_edge_raises n e :
  args ≠ [] ∨ long cfg = true →
  (n = tree ∧ within 0) ∨ (depth cfg = Infinity ∧ reach n) →
  e ∈ node_edgesOut (g !!! n) → edge_kept (RNode n) e = true →
  unmet e = true →
  ∃ x, ls = {| printed := []; exitCode := None; completion := Throw x |} ∧
       (x = TypeError ∨ raised x).
Proof.
  intros Hstrict Hn He Hkept Hu.
  destruct walk_cases as [(x & Hw & Hx) | (res & st & Hw)].
  { exists x. split; [|done]. unfold ls. by rewrite Hw. }
  exfalso.
  assert (∃ k, RNode n ∈ seen st ∧ _depth (fields_of st (RNode n)) = Some k ∧
               within k) as (k & Hs & Hk & Hwi).
  { destruct Hn as [[-> Hwi] | [Hd Hr]].
    - exists 0. destruct (walk_root _ _ Hw). done.
    - pose proof (walk_unlimited _ _ n Hd Hw Hr) as Hs.
      destruct (walk_Inv _ _ Hw) as (HI & _).
      destruct (inv_seen_depth _ HI _ Hs) as [k Hk]. exists k.
      split_and!; [done.. |]. unfold within. by rewrite Hd. }
  destruct (walk_unmet _ _ n k e Hw Hs Hk Hwi He Hkept Hu)
    as (y & Hy & Ht & _).
  by destruct (strict_no_placeholder _ _ y e Hw Hstrict Hy Ht).
Qed.

(** X13.  Every unmet edge that passes the filters at a visited node within
    the depth limit is reported, as missing and required by the edge's
    source; every visited extraneous node is reported, as invalid when its
    [_invalid] mark was set at its visit and as extraneous otherwise. *)
Theorem unmet_and_extraneous_reported res st :
  walk = Ok (res, st) →
  (∀ n k e, RNode n ∈ seen st → _depth (fields_of st (RNode n)) = Some k →
            within k → e ∈ node_edgesOut (g !!! n) →
            edge_kept (RNode n) e = true → unmet e = true →
            missing_problem e ∈ problems st) ∧
  (∀ n, RNode n ∈ seen st → node_extraneous (g !!! n) = true →
        invalid_problem n ∈ problems st ∨ extraneous_problem n ∈ problems st).
Proof.
  intros Hw. pose proof (walk_Walked _ _ Hw) as (HI & HS & HW & Hq & _).
  split.
  - intros n k e Hn Hk Hwi He Hkept Hu.
    destruct (walk_unmet _ _ n k e Hw Hn Hk Hwi He Hkept Hu)
      as (y & Hy & Ht & _).
    by apply (w_reported _ HW y e).
  - apply HW.
Qed.

(** X14.  Every collected problem comes from a visited object and has one of
    three forms for it: missing, and the object is the placeholder of an
    unmet edge, kept by the filters, of a visited node; invalid, and the
    object is a node that an invalid edge, kept by the filters, of a visited
    node leads to; extraneous, and the object is an extraneous node. *)
Theorem problems_come_from_visits res st p :
  walk = Ok (res, st) → p ∈ problems st →
  ∃ r, r ∈ seen st ∧ problem_form st r p.
Proof. intros (_ & _ & HW & _)%walk_Walked. apply HW. Qed.

(** X15.  On a healthy tree (nothing extraneous, every edge with its target
    and neither missing nor invalid) whose [resolved] locations [npa] all
    parses, without filters, in the short form and without a parse error of
    the root manifest, [ls] prints once, leaves the exit status alone and
    resolves. *)
Theorem healthy_tree_resolves :
  healthy → Forall (λ n, resolved_ok n = true) g →
  args = [] → long cfg = false →
  (∀ e, e ∈ node_errors (g !!! tree) → is_rootError e = false) →
  ∃ out, ls = {| printed := [out]; exitCode := None; completion := Ok tt |}.
Proof.
  intros Hh Hres Ha Hl Hroot.
  assert (calm) as Hc.
  { split_and!; [done.. | | done]. unfold healthy in Hh.
    eapply Forall_impl; [exact Hh |]. intros nd [_ Hes].
    eapply Forall_impl; [exact Hes |]. intros e (_ & _ & [t Ht]).
    unfold edge_wf. rewrite Ht. by rewrite orb_true_r. }
  pose proof (walk_wp False (λ H, H Hc)) as Hw.
  destruct walk as [[res st]| |] eqn:Hwalk; simpl in Hw; [|done..].
  destruct Hw as (_ & _ & [r ->]).
  pose proof (walk_Walked _ _ Hwalk) as (_ & _ & HW & _).
  eexists. rewrite (ls_Ok _ _ Hwalk). f_equal.
  - unfold exit_status. rewrite Ha. by destruct (nodes _).
  - unfold settle. rewrite (proj1 (w_healthy _ HW Hh)).
    rewrite filter_none; [done |]. intros e He. by rewrite (Hroot e He).
Qed.

(** ** The positional filters on a node *)

Lemma mark_parents_run fuel p st :
  Forall no_parent (items st) →
  mark_parents (S fuel) p st =
  Ok (tt, match p with
          | Some i => upd_items (alter (item_with_include true) i) st
          | None => st
          end).
Proof.
  intros Hits. destruct p as [i|]; [|done]. simpl.
  unfold bind, set_items, modify, get. simpl.
  rewrite no_parent_lookup by (by apply no_parent_alter).
  by rewrite mark_parents_None.
Qed.

Lemma shouldInclude_run n spec st :
  Forall no_parent (items st) →
  shouldInclude (RNode n) spec st =
  match node_satisfies (g !!! n) spec with
  | Raises e => Throw e
  | Returns b =>
      Ok (b, if b && negb (parseable cfg)
             then mark_parent_item (RNode n) st else st)
  end.
Proof.
  intros Hits. unfold shouldInclude, bind, get. cbn -[mark_parents].
  destruct (node_satisfies (g !!! n) spec) as [[]|e]; [|done..].
  destruct (parseable cfg); cbn -[mark_parents]; [done |].
  by rewrite mark_parents_run.
Qed.

Lemma some_shouldInclude_run n l st :
  Forall no_parent (items st) →
  some (shouldInclude (RNode n)) l st =
  match asked (node_satisfies (g !!! n)) l with
  | Raises e => Throw e
  | Returns b =>
      Ok (b, if b && negb (parseable cfg)
             then mark_parent_item (RNode n) st else st)
  end.
Proof.
  intros Hits. induction l as [|x l IH]; [done |].
  cbn [some asked]. unfold bind. rewrite shouldInclude_run by done.
  destruct (node_satisfies (g !!! n) x) as [[]|e]; [done | | done].
  cbn [andb]. apply IH.
Qed.

Lemma asked_yes (f : string → Call bool) l b :
  asked f l = Returns b → b = existsb (λ spec, yes (f spec)) l.
Proof.
  induction l as [|x l IH]; simpl; [by intros [= <-] |].
  destruct (f x) as [[]|e]; simpl; [by intros [= <-] | done | done].
Qed.

Lemma asked_raises (f : string → Call bool) l e :
  asked f l = Raises e → ∃ spec, spec ∈ l ∧ f spec = Raises e.
Proof.
  induction l as [|x l IH]; simpl; [done |].
  destruct (f x) as [[]|e'] eqn:Hx; [done | |].
  - intros (spec & Hs & Hf)%IH. exists spec. split; [by right | done].
  - intros [= ->]. exists x. split; [by left | done].
Qed.

(** X16.  On a node the positional filters raise nothing of their own: they
    are asked in order, up to the first that the node satisfies or that
    [satisfies] throws on, and what it throws leaves the call.  Without
    filters the answer is yes and the store is left alone; with filters the
    answer is whether some filter is satisfied by the node, and on a match
    in tree mode the only change is the [_include] mark of one result item,
    the one in the node's [_parent]: the loop over the ancestors stops
    there. *)
Theorem filterByPositionalArgs_on_node n st :
  Forall no_parent (items st) →
  filterByPositionalArgs (RNode n) st =
    match answer n with
    | Raises e => Throw e
    | Returns b =>
        Ok (b, if negb (bool_decide (args = [])) && b && negb (parseable cfg)
               then mark_parent_item (RNode n) st else st)
    end ∧
  (∀ b, answer n = Returns b → b = included (RNode n)) ∧
  (∀ e, answer n = Raises e → raised e).
Proof.
  intros Hits. unfold filterByPositionalArgs, answer, included.
  destruct args as [|a l] eqn:Ha.
  { split_and!; [done | by intros b [= <-] | done]. }
  rewrite <- Ha. split_and!.
  - rewrite some_shouldInclude_run by done.
    rewrite bool_decide_false by (by rewrite Ha). done.
  - apply asked_yes.
  - intros e (spec & Hs & Hf)%asked_raises. left. by exists n, spec.
Qed.

(** ** How the report ends *)

(** X17.  The report ends in one of five ways, and never fails to end: an
    exception from the walk, a [TypeError] or what a call of [satisfies] or
    of [npa] threw, with nothing printed and the exit status left alone; or
    one call of [output], after which the call resolves or is rejected with
    code EJSONPARSE or with code ELSPROBLEMS. *)
Theorem ls_outcomes :
  ls = {| printed := []; exitCode := None; completion := Throw TypeError |} ∨
  (∃ e, raised e ∧
        ls = {| printed := []; exitCode := None; completion := Throw e |}) ∨
  ∃ out, printed ls = [out] ∧
    (completion ls = Ok tt ∨
     completion ls =
       Throw (LsError "Failed to parse root package.json" "EJSONPARSE") ∨
     ∃ msg, completion ls = Throw (LsError msg "ELSPROBLEMS")).
Proof.
  destruct walk_cases as [(e & Hw & [-> | He]) | (res & st & Hw)].
  { left. unfold ls. by rewrite Hw. }
  { right. left. exists e. split; [done |]. unfold ls. by rewrite Hw. }
  right. right. rewrite (ls_Ok _ _ Hw). simpl. eexists. split; [done |].
  unfold settle. destruct (filter _ _); [|by right; left].
  destruct (problems st); [by left |]. right. right. by eexists.
Qed.

(** X18.  With filters, the exit status is set to 1 exactly when no visited
    object that hangs under the item of the root satisfies a filter itself:
    a match deeper in the tree does not count. *)
Theorem exit_status_counts_direct_matches res st :
  walk = Ok (Some res, st) →
  exitCode ls = Some 1 ↔
  args ≠ [] ∧
  ∀ r, r ∈ seen st → _parent (fields_of st r) = Some res →
       included r = false.
Proof.
  intros Hw. pose proof (walk_Walked _ _ Hw) as (HI & HS & HW & Hq & Hres).
  assert (res = 0) as ->.
  { assert (seen st !! 0 = Some (RNode tree)) as H0.
    { destruct (w_first _ HW) as [Hnil | H0]; [|done].
      destruct (walk_root _ _ Hw) as [Hr _]. rewrite Hnil in Hr.
      by apply not_elem_of_nil in Hr. }
    apply (walk_index _ _ _ _ Hw) in H0. congruence. }
  assert (0 < length (items st)) as Hlen.
  { rewrite (sh_items _ HS). destruct (walk_root _ _ Hw) as [Hr _].
    destruct (seen st); [by apply not_elem_of_nil in Hr | simpl; lia]. }
  assert (nodes (items st !!! 0) = [] ↔
          ∀ r, r ∈ seen st → _parent (fields_of st r) = Some 0 →
               included r = false) as Hnodes.
  { rewrite (sh_nodes _ HS 0 Hlen). split.
    - intros Hf r [c Hc]%list_elem_of_lookup_1 Hp.
      destruct (included r) eqn:Hi; [|done]. exfalso.
      apply (filter_nil_not_elem_of _ _ c Hf).
      + unfold under. rewrite (list_lookup_total_correct _ _ _ Hc).
        rewrite (sh_include _ HS r 0 Hp), Hi, Hp. by rewrite bool_decide_true.
      + apply elem_of_seq. apply lookup_lt_Some in Hc. lia.
    - intros Hall. apply filter_none. intros c [_ Hc]%elem_of_seq.
      intros [Hp Hi]%andb_prop. apply bool_decide_eq_true in Hp.
      assert (seen st !!! c ∈ seen st) as Hin.
      { apply list_elem_of_lookup_total_2. lia. }
      rewrite (sh_include _ HS _ _ Hp) in Hi.
      by rewrite (Hall _ Hin Hp) in Hi. }
  rewrite (ls_Ok _ _ Hw). simpl. unfold exit_status. rewrite <- Hnodes.
  destruct (nodes (items st !!! 0)), args; split; try done;
    try (by intros [? ?]).
Qed.

(** ** The objects made during the walk *)

(** X19.  Every object made during the walk has a source among the visited
    nodes: a placeholder stands for an unmet edge, kept by the filters, of a
    visited node, and carries the marks of that edge; a deduped stand-in
    carries the pkgid and the package of a node that was visited before the
    stand-in itself. *)
Theorem made_objects_have_sources res st k o :
  walk = Ok (res, st) → synth st !! k = Some o → made_ok st k o.
Proof. intros (_ & _ & HW & _)%walk_Walked. apply HW. Qed.

(** X20.  What the tree shows for an object made during the walk.  A deduped
    stand-in is labelled with its pkgid and the word deduped (and the
    description in the long form), never with invalid, extraneous, a
    repository or a link target.  A placeholder is only ever visited in the
    short form; it stands for an unmet edge, kept by the filters, of a
    visited node, whose type and invalid flag it carries, and it is labelled
    UNMET DEPENDENCY, or UNMET OPTIONAL DEPENDENCY when that edge is
    optional, then name [@] spec of that edge, then invalid when that edge
    is invalid. *)
Theorem made_objects_labels res st i k :
  walk = Ok (res, st) → seen st !! i = Some (RObj k) →
  match synth st !!! k with
  | Deduped p pkg =>
      label (items st !!! i) =
      (p +:+ " deduped") +:+
      (if long cfg then EOL rt +:+ default "" (pkg ≫= pkg_description)
       else "")
  | Placeholder name pkgid =>
      long cfg = false ∧
      ∃ n e, RNode n ∈ seen st ∧ e ∈ node_edgesOut (g !!! n) ∧
             edge_kept (RNode n) e = true ∧ unmet e = true ∧
             name = edge_name e ∧
             pkgid = edge_name e +:+ "@" +:+ edge_spec e ∧
             _missing (fields_of st (RObj k)) =
               Some (node_pkgid (g !!! edge_from e)) ∧
             _type (fields_of st (RObj k)) = Some (edge_type e) ∧
             _invalid (fields_of st (RObj k)) = edge_invalid e ∧
             label (items st !!! i) =
             (let msg := "UNMET " +:+
                         (if decide (edge_type e = TOptional)
                          then "OPTIONAL " else "") +:+
                         "DEPENDENCY " in
              if color cfg then chalk_yellow_bgBlack rt msg else msg) +:+
             pkgid +:+
             (if edge_invalid e
              then (if color cfg then chalk_red_bgBlack rt " invalid"
                    else " invalid")
              else "")
  end.
Proof.
  intros Hw Hi. pose proof (walk_Walked _ _ Hw) as (HI & _ & HW & _).
  destruct (w_label _ HW i k Hi) as [pb Hl].
  assert (k < length (synth st)) as Hk.
  { apply (inv_fresh _ HI (RObj k)). left. by eapply list_elem_of_lookup_2. }
  apply lookup_lt_is_Some_2 in Hk as [o Ho].
  pose proof (w_made _ HW k o Ho) as Hm.
  simpl in Hl. rewrite (list_lookup_total_correct _ _ _ Ho) in *.
  unfold getHumanOutputItem, is_missing, missingMsg in Hl.
  destruct o as [name pkgid | p pkg]; simpl in Hm.
  - destruct Hm as
      (n & e & Hn & He & Hkept & Hu & -> & -> & Hmi & Hin & Hty & Hde).
    rewrite Hmi, Hin, Hty, Hde, truthy_pkgid in Hl. simpl in Hl.
    destruct (long cfg); [done |]. split; [done |]. exists n, e.
    split_and!; [done.. |].
    injection Hl as <- _. cbn zeta.
    assert ((if decide (Some (edge_type e) = Some TOptional)
             then "OPTIONAL " else "") =
            (if decide (edge_type e = TOptional)
             then "OPTIONAL " else "")) as ->.
    { destruct (decide (Some (edge_type e) = Some TOptional)),
        (decide (edge_type e = TOptional)); congruence. }
    change ("" +:+ "" +:+ "") with "".
    by rewrite (append_nil_r (if edge_invalid e then _ else _)).
  - destruct Hm as (n & i0 & _ & -> & -> & _ & Hde & Hmi & Hin).
    rewrite Hmi, Hin, Hde in Hl. simpl in Hl.
    destruct (long cfg); injection Hl as <- _; [done |].
    by rewrite (append_nil_r (node_pkgid (g !!! n) +:+ " deduped")).
Qed.

(** ** What the tree lists without filters *)

(** X21.  Without positional filters every visited object other than the
    root is an entry of the tree, once: its item was pushed under the item
    in its [_parent], an item made before its own, and under no other. *)
Theorem no_filter_lists_every_visit res st c r :
  args = [] → walk = Ok (res, st) →
  seen st !! c = Some r → r ≠ RNode tree →
  ∃ p, _parent (fields_of st r) = Some p ∧ p < c ∧
       c ∈ nodes (items st !!! p) ∧
       ∀ p', p' < length (items st) → c ∈ nodes (items st !!! p') → p' = p.
Proof.
  intros Ha Hw Hc Hne.
  pose proof (walk_Walked _ _ Hw) as (HI & HS & HW & Hq & _).
  assert (r ∈ seen st) as Hr by (by eapply list_elem_of_lookup_2).
  destruct (w_hung _ HW r (or_introl Hr) Hne) as [p Hp].
  pose proof (inv_parents _ HI _ _ Hp) as Hlt.
  assert (∀ p', p' < length (items st) →
            c ∈ nodes (items st !!! p') ↔
            _parent (fields_of st r) = Some p') as Hin.
  { intros p' Hp'. rewrite (sh_nodes _ HS p' Hp'), list_elem_of_filter.
    unfold under. rewrite (list_lookup_total_correct _ _ _ Hc). split.
    - intros [[Hpar _]%andb_prop _]. by apply bool_decide_eq_true in Hpar.
    - intros Hpar. split.
      + rewrite (sh_include _ HS r p' Hpar). unfold included. rewrite Ha.
        by rewrite bool_decide_true.
      + apply elem_of_seq. apply lookup_lt_Some in Hc. lia. }
  exists p. split_and!; [done | | by apply Hin |].
  - destruct (lookup_lt_is_Some_2 (items st) p Hlt) as [it Hit].
    assert (c ∈ nodes it) as Hcit.
    { rewrite <- (list_lookup_total_correct _ _ _ Hit). by apply Hin. }
    destruct (inv_forward _ HI p it c Hit Hcit). lia.
  - intros p' Hp' Hc'. apply Hin in Hc'; [|done]. congruence.
Qed.

(** X22.  Without positional filters a missing dependency is shown where it
    is required: for every unmet edge that passes the filters at a visited
    node within the depth limit, a placeholder with the name and the spec of
    the edge has been visited, and its item is an entry under the item of
    that node. *)
Theorem unmet_edges_shown res st n k e :
  args = [] → walk = Ok (res, st) →
  RNode n ∈ seen st → _depth (fields_of st (RNode n)) = Some k → within k →
  e ∈ node_edgesOut (g !!! n) → edge_kept (RNode n) e = true →
  unmet e = true →
  ∃ i k' p,
    seen st !! i = Some (RObj k') ∧
    synth st !! k' =
      Some (Placeholder (edge_name e) (edge_name e +:+ "@" +:+ edge_spec e)) ∧
    seen st !! p = Some (RNode n) ∧
    i ∈ nodes (items st !!! p).
Proof.
  intros Ha Hw Hn Hk Hwi He Hkept Hu.
  pose proof (walk_Walked _ _ Hw) as (HI & HS & HW & Hq & _).
  destruct (walk_unmet _ _ n k e Hw Hn Hk Hwi He Hkept Hu)
    as (y & Hy & (k' & -> & Hk' & _) & p & Hp & Hyp).
  apply list_elem_of_lookup_1 in Hy as [i Hi].
  exists i, k', p. split_and!; [done | done | by apply (sh_index _ HS) |].
  pose proof (inv_parents _ HI _ _ Hyp) as Hlt.
  rewrite (sh_nodes _ HS p Hlt), list_elem_of_filter. split.
  - unfold under. rewrite (list_lookup_total_correct _ _ _ Hi), Hyp.
    rewrite (sh_include _ HS _ _ Hyp). unfold included. rewrite Ha.
    by rewrite bool_decide_true.
  - apply elem_of_seq. apply lookup_lt_Some in Hi. lia.
Qed.

End Ls.

(** * Runs on the small graphs *)

Lemma collate_primary_antisym a b :
  collate_primary b a = CompOpp (collate_primary a b).
Proof.
  revert b. induction a as [|x a IH]; intros [|y b]; simpl; try done.
  rewrite (Nat.compare_antisym (fold_case x) (fold_case y)).
  destruct (fold_case x ?= fold_case y); simpl; auto.
Qed.

Lemma collate_total a b : (collate a b ≤ 0)%Z ∨ (collate b a ≤ 0)%Z.
Proof.
  unfold collate.
  rewrite (collate_primary_antisym a b), (String.compare_antisym a b).
  destruct (collate_primary a b), (String.compare b a); simpl; lia.
Qed.

(** The chain as a tree and as a flat list *)
Example chain_as_tree :
  ls posix defaults chain 0 [] =
  {| printed := ["root@1.0.0 /p" +:+ nl +:+
                 "`-- foo@1.0.0" +:+ nl +:+
                 "  `-- bar@1.0.0" +:+ nl];
     exitCode := None; completion := Ok tt |}.
Proof. vm_compute. reflexivity. Qed.

Example chain_as_list :
  ls posix flat chain 0 [] =
  {| printed := ["/p" +:+ nl +:+ "/p/node_modules/foo" +:+ nl +:+
                 "/p/node_modules/bar"];
     exitCode := None; completion := Ok tt |}.
Proof. vm_compute. reflexivity. Qed.

(** A missing dependency: its line in the tree, then the failure *)
Example missing_dependency_reported :
  ls posix defaults broken 0 [] =
  {| printed := ["root@1.0.0 /p" +:+ nl +:+
                 "`-- UNMET DEPENDENCY bar@^1.0.0" +:+ nl];
     exitCode := None;
     completion :=
       Throw (LsError "missing: bar@^1.0.0, required by root@1.0.0"
                "ELSPROBLEMS") |}.
Proof. vm_compute. reflexivity. Qed.

(** An installed package that no edge brings *)
Example extraneous_package_reported :
  ls posix defaults stray 0 [] =
  {| printed := ["root@1.0.0 /p" +:+ nl +:+
                 "`-- stray@1.0.0 extraneous" +:+ nl];
     exitCode := None;
     completion :=
       Throw (LsError "extraneous: stray@1.0.0 /p/node_modules/stray"
                "ELSPROBLEMS") |}.
Proof. vm_compute. reflexivity. Qed.

(** A Node met again after its visit is shown as deduped. *)
Example later_position_deduped :
  printed (ls posix defaults later 0 []) =
  ["root@1.0.0 /p" +:+ nl +:+
   "+-- a@1.0.0" +:+ nl +:+
   "| `-- z@1.0.0" +:+ nl +:+
   "|   `-- c@1.0.0 deduped" +:+ nl +:+
   "`-- c@1.0.0" +:+ nl].
Proof. vm_compute. reflexivity. Qed.

(** C1: with [--depth=0] and no filter, the walk of the chain visits the
    root and foo; their depths are at most 1. *)
Lemma visited_depth_within_limit_witness :
  depth depth_zero = Finite 0 ∧
  ∃ res st,
    walk posix depth_zero chain 0 [] = Ok (res, st) ∧
    ∀ r, r ∈ seen st →
      ∃ k, _depth (fields_of st r) = Some k ∧ (Z.of_nat k ≤ Z.max 0 (0 + 1))%Z.
Proof.
  split; [reflexivity |].
  destruct (walk posix depth_zero chain 0 []) as [[res st]| |] eqn:Hw;
    [| vm_compute in Hw; discriminate Hw..].
  exists res, st. split; [reflexivity |].
  exact (proj1 (visited_depth_within_limit posix depth_zero chain 0 [] 0 res st
                  eq_refl Hw)).
Defined.

(** C1 as stated fails: with [--depth=0] foo, a direct dependency of the
    root, is visited at depth 1 and rendered under the root. *)
Lemma depth_zero_renders_direct_dependencies :
  ∃ res st,
    walk posix depth_zero chain 0 [] = Ok (Some res, st) ∧
    seen st = [RNode 0; RNode 1] ∧
    _depth (fields_of st (RNode 1)) = Some 1 ∧
    result_tree (items st) res = AObj "root@1.0.0 /p" [AObj "foo@1.0.0" []].
Proof.
  eexists _, _. split; [vm_compute; reflexivity |].
  split_and!; vm_compute; reflexivity.
Qed.

(** C2: on the chain with the filter bar, in tree mode, bar matches and is
    marked included, foo and the root stay unmarked: the tree shows
    (empty) and the exit status is 1. *)
Lemma nested_match_leaves_ancestors_unmarked :
  ∃ res st,
    walk posix defaults chain 0 ["bar"] = Ok (Some res, st) ∧
    _include (fields_of st (RNode 2)) = true ∧
    _parent (fields_of st (RNode 2)) = Some 1 ∧
    _include (fields_of st (RNode 1)) = false ∧
    _include (fields_of st (RNode 0)) = false ∧
    item_include <$> items st = [false; true; false] ∧
    result_tree (items st) res = AObj "root@1.0.0 /p" [AString "(empty)"] ∧
    exitCode (ls posix defaults chain 0 ["bar"]) = Some 1.
Proof.
  eexists _, _. split; [vm_compute; reflexivity |].
  split_and!; vm_compute; reflexivity.
Qed.

(** C3: on the diamond c is listed once, under b, the later of its two
    positions; a shows no child, and no deduped object is made. *)
Lemma diamond_never_deduped :
  ∃ res st,
    walk posix defaults diamond 0 [] = Ok (Some res, st) ∧
    synth st = [] ∧
    seen st = [RNode 0; RNode 1; RNode 2; RNode 3] ∧
    result_tree (items st) res =
      AObj "root@1.0.0 /p"
        [AObj "a@1.0.0" []; AObj "b@1.0.0" [AObj "c@1.0.0" []]].
Proof.
  eexists _, _. split; [vm_compute; reflexivity |].
  split_and!; vm_compute; reflexivity.
Qed.

(** C4: the children of the root of the mixed-case graph are sorted under
    the collation of the runtime. *)
Lemma children_sorted_by_localeCompare_witness :
  (∀ a b, (localeCompare posix a b ≤ 0)%Z ∨ (localeCompare posix b a ≤ 0)%Z) ∧
  ∃ kids st',
    getChildren posix defaults mixed_case 0 [] (RNode 0) 0 (init 0 []) =
      Ok (kids, st') ∧
    Sorted (λ a b, (localeCompare posix (obj_pkgid (deref mixed_case st' a))
                                        (obj_pkgid (deref mixed_case st' b)) ≤ 0)%Z)
      kids.
Proof.
  split; [exact collate_total |].
  destruct (getChildren posix defaults mixed_case 0 [] (RNode 0) 0 (init 0 []))
    as [[kids st']| |] eqn:H; [| vm_compute in H; discriminate H..].
  exists kids, st'. split; [reflexivity |].
  exact (children_sorted_by_localeCompare posix defaults mixed_case 0 []
           (RNode 0) 0 (init 0 []) kids st' collate_total H).
Defined.

(** C4 as stated fails: the children of the root come out as a, B, and
    a is greater than B in the byte order. *)
Lemma children_not_in_byte_order :
  ∃ kids st',
    getChildren posix defaults mixed_case 0 [] (RNode 0) 0 (init 0 []) =
      Ok (kids, st') ∧
    (λ r, obj_pkgid (deref mixed_case st' r)) <$> kids = ["a@1.0.0"; "B@1.0.0"] ∧
    String.compare "a@1.0.0" "B@1.0.0" = Gt.
Proof.
  eexists _, _. split; [vm_compute; reflexivity |].
  split; vm_compute; reflexivity.
Qed.

(** C5: with the filter foo, the walk of the graph that misses bar makes a
    placeholder, asks it [satisfies], and ends in a [TypeError]: nothing
    is printed. *)
Lemma filter_on_placeholder_raises :
  ls posix defaults broken 0 ["foo"] =
  {| printed := []; exitCode := None; completion := Throw TypeError |}.
Proof. vm_compute. reflexivity. Qed.

(** C7: the flat rendering of the chain. *)
Lemma parseable_output_witness :
  parseable flat = true ∧
  ∃ res st,
    walk posix flat chain 0 [] = Ok (Some res, st) ∧
    printed (ls posix flat chain 0 []) =
      [trim posix (concat_lines
         ((λ n, parseable_line posix flat (chain !!! n) (fields_of st (RNode n)))
          <$> parseable_deps chain st))] ∧
    parseable_deps chain st = [0; 1; 2].
Proof.
  split; [reflexivity |].
  destruct (walk posix flat chain 0 []) as [[[res|] st]| |] eqn:Hw;
    [| vm_compute in Hw; discriminate Hw..].
  exists res, st. split; [reflexivity |].
  split.
  - exact (proj1 (parseable_output posix flat chain 0 [] res st eq_refl Hw)).
  - vm_compute in Hw. injection Hw as <- <-. vm_compute. reflexivity.
Defined.

(** C8 as stated fails.  "devel" begins with dev, yet the dev-only filter
    is off and foo, which no dev edge brings, stays a child of the root;
    and under link-only stray, installed and no link, is a child of the
    root. *)
Lemma kind_filters_counterexample :
  (test_dev (Some "devel") = false ∧
   ∃ st',
     getChildren posix only_devel chain 0 [] (RNode 0) 0 (init 0 []) =
       Ok ([RNode 1], st')) ∧
  (node_isLink (stray !!! 1) = false ∧
   ∃ st',
     getChildren posix links_only stray 0 [] (RNode 0) 0 (init 0 []) =
       Ok ([RNode 1], st')).
Proof.
  split; (split; [reflexivity |]); eexists; vm_compute; reflexivity.
Qed.

(** C9: on the chain the filter nope matches nothing: (empty), status 1. *)
Lemma empty_result_placeholder_witness :
  ∃ res st,
    walk posix defaults chain 0 ["nope"] = Ok (Some res, st) ∧
    nodes (items st !!! res) = [] ∧
    result_tree (items st) res =
      AObj (label (items st !!! res)) [AString "(empty)"] ∧
    exitCode (ls posix defaults chain 0 ["nope"]) = Some 1.
Proof.
  destruct (walk posix defaults chain 0 ["nope"]) as [[[res|] st]| |] eqn:Hw;
    [| vm_compute in Hw; discriminate Hw..].
  assert (nodes (items st !!! res) = []) as He.
  { vm_compute in Hw. injection Hw as <- <-. reflexivity. }
  exists res, st. split; [reflexivity |]. split; [exact He |].
  destruct (empty_result_placeholder posix defaults chain 0 ["nope"] res st
              Hw He) as (Ht & _ & Hexit & _).
  split; [exact Ht |]. apply Hexit. discriminate.
Defined.

(** X2: the chain, without filters, is walked to the end. *)
Lemma walk_calm_witness :
  calm posix defaults chain [] ∧
  ∃ res st, walk posix defaults chain 0 [] = Ok (Some res, st).
Proof.
  assert (calm posix defaults chain []) as Hc.
  { split_and!; [reflexivity | reflexivity | |]; by repeat constructor. }
  split; [exact Hc |]. exact (walk_calm posix defaults chain 0 [] Hc).
Defined.

(** X3: the root's manifest did not parse and foo is extraneous: the tree
    is printed, then the call is rejected for the manifest, not for the
    problem. *)
Lemma ls_settles_after_rendering_witness :
  ∃ res st,
    walk posix defaults unparsed 0 [] = Ok (Some res, st) ∧
    problems st = ["extraneous: foo@1.0.0 /p/node_modules/foo"] ∧
    (∃ out, printed (ls posix defaults unparsed 0 []) = [out]) ∧
    completion (ls posix defaults unparsed 0 []) =
      Throw (LsError "Failed to parse root package.json" "EJSONPARSE").
Proof.
  destruct (walk posix defaults unparsed 0 []) as [[[res|] st]| |] eqn:Hw;
    [| vm_compute in Hw; discriminate Hw..].
  exists res, st. split; [reflexivity |].
  destruct (ls_settles_after_rendering posix defaults unparsed 0 [] res st Hw)
    as [Hout Hc].
  split; [| split; [exact Hout |]].
  - vm_compute in Hw. injection Hw as <- <-. reflexivity.
  - rewrite Hc. rewrite bool_decide_true; [reflexivity |].
    left. split; reflexivity.
Defined.


(** * The walk on the small graphs, property by property *)

(** X5: bar, visited on the chain, is reachable from the root. *)
Lemma visited_nodes_reachable_witness :
  ∃ res st,
    walk posix defaults chain 0 [] = Ok (res, st) ∧
    RNode 2 ∈ seen st ∧ reach defaults chain 0 2.
Proof.
  destruct (walk posix defaults chain 0 []) as [[res st]| |] eqn:Hw;
    [| vm_compute in Hw; discriminate Hw..].
  assert (RNode 2 ∈ seen st) as Hs.
  { vm_compute in Hw. injection Hw as <- <-. cbn. set_solver. }
  exists res, st. split; [reflexivity |]. split; [exact Hs |].
  exact (visited_nodes_reachable posix defaults chain 0 [] res st 2 Hw Hs).
Defined.

(** X6: on the diamond, walked without a depth limit, whatever is handed out
    for a visited node is visited, and so is every reachable node. *)
Lemma walk_covers_children_witness :
  ∃ res st,
    walk posix defaults diamond 0 [] = Ok (res, st) ∧
    (∀ n k m, RNode n ∈ seen st → _depth (fields_of st (RNode n)) = Some k →
              within defaults k → child_of defaults diamond 0 n m →
              RNode m ∈ seen st) ∧
    (depth defaults = Infinity →
     ∀ n, reach defaults diamond 0 n → RNode n ∈ seen st).
Proof.
  destruct (walk posix defaults diamond 0 []) as [[res st]| |] eqn:Hw;
    [| vm_compute in Hw; discriminate Hw..].
  exists res, st. split; [reflexivity |].
  exact (walk_covers_children posix defaults diamond 0 [] res st Hw).
Defined.

(** X7: the chain under the filter bar. *)
Lemma include_mark_is_filter_match_witness :
  ∃ res st,
    walk posix defaults chain 0 ["bar"] = Ok (res, st) ∧
    _include (fields_of st (RNode 0)) = bool_decide (["bar"] = []) ∧
    (∀ r, r ∈ seen st → r ≠ RNode 0 →
          _include (fields_of st r) = included chain ["bar"] r) ∧
    (∀ n, n ∈ parseable_deps chain st ↔
          RNode n ∈ seen st ∧ truthy (node_path (chain !!! n)) = true ∧
          if decide (n = 0) then ["bar"] = []
          else included chain ["bar"] (RNode n) = true).
Proof.
  destruct (walk posix defaults chain 0 ["bar"]) as [[res st]| |] eqn:Hw;
    [| vm_compute in Hw; discriminate Hw..].
  exists res, st. split; [reflexivity |].
  exact (include_mark_is_filter_match posix defaults chain 0 ["bar"] res st Hw).
Defined.

(** X8: the items of the walk of the diamond. *)
Lemma result_items_mirror_visits_witness :
  ∃ res st,
    walk posix defaults diamond 0 [] = Ok (res, st) ∧
    res = Some 0 ∧ length (items st) = length (seen st) ∧
    (∀ i r, seen st !! i = Some r ↔ tv_seen st !! r = Some i) ∧
    (∀ p, p < length (items st) →
          nodes (items st !!! p) =
          filter (λ c, under st p c = true) (seq 0 (length (seen st)))).
Proof.
  destruct (walk posix defaults diamond 0 []) as [[res st]| |] eqn:Hw;
    [| vm_compute in Hw; discriminate Hw..].
  exists res, st. split; [reflexivity |].
  exact (result_items_mirror_visits posix defaults diamond 0 [] res st Hw).
Defined.

(** X9: with [--depth=0] foo hangs under the root, one level down, and has
    no entry of its own. *)
Lemma entries_hang_one_level_down_witness :
  ∃ res st,
    walk posix depth_zero chain 0 [] = Ok (res, st) ∧
    (_parent (fields_of st (RNode 0)) = None ∧
     _depth (fields_of st (RNode 0)) = Some 0) ∧
    (∀ r, r ∈ seen st → r ≠ RNode 0 →
       ∃ n k p, seen st !! p = Some (RNode n) ∧
                _parent (fields_of st r) = Some p ∧
                _depth (fields_of st (RNode n)) = Some k ∧
                within depth_zero k ∧
                _depth (fields_of st r) = Some (S k)) ∧
    (∀ i, nodes (items st !!! i) ≠ [] →
       ∃ n k, seen st !! i = Some (RNode n) ∧
              _depth (fields_of st (RNode n)) = Some k ∧
              within depth_zero k).
Proof.
  destruct (walk posix depth_zero chain 0 []) as [[res st]| |] eqn:Hw;
    [| vm_compute in Hw; discriminate Hw..].
  exists res, st. split; [reflexivity |].
  exact (entries_hang_one_level_down posix depth_zero chain 0 [] res st Hw).
Defined.

(** X10: the chain under the filter foo. *)
Lemma filtered_walk_makes_no_object_witness :
  ["foo"] ≠ [] ∧
  ∃ res st,
    walk posix defaults chain 0 ["foo"] = Ok (res, st) ∧
    synth st = [] ∧ (∀ r, r ∈ seen st → is_node r = true) ∧
    (∀ n k e, RNode n ∈ seen st → _depth (fields_of st (RNode n)) = Some k →
              within defaults k → e ∈ node_edgesOut (chain !!! n) →
              edge_kept defaults chain 0 (RNode n) e = true →
              unmet e = false).
Proof.
  assert (["foo"] ≠ @nil string) as Ha by discriminate.
  split; [exact Ha |].
  destruct (walk posix defaults chain 0 ["foo"]) as [[res st]| |] eqn:Hw;
    [| vm_compute in Hw; discriminate Hw..].
  exists res, st. split; [reflexivity |].
  exact (filtered_walk_makes_no_object posix defaults chain 0 ["foo"] res st
           Ha Hw).
Defined.

(** X11: the walk of [later] in the long form: the stand-in for c has a
    package. *)
Lemma long_walk_meets_no_unmet_edge_witness :
  long long_form = true ∧
  ∃ res st,
    walk posix long_form later 0 [] = Ok (res, st) ∧
    (∀ r, r ∈ seen st → is_Some (obj_package (deref later st r))) ∧
    (∀ n k e, RNode n ∈ seen st → _depth (fields_of st (RNode n)) = Some k →
              within long_form k → e ∈ node_edgesOut (later !!! n) →
              edge_kept long_form later 0 (RNode n) e = true →
              unmet e = false).
Proof.
  split; [reflexivity |].
  destruct (walk posix long_form later 0 []) as [[res st]| |] eqn:Hw;
    [| vm_compute in Hw; discriminate Hw..].
  exists res, st. split; [reflexivity |].
  exact (long_walk_meets_no_unmet_edge posix long_form later 0 [] res st
           eq_refl Hw).
Defined.

(** X12: in the long form, the report on the graph that misses bar fails
    before it prints. *)
Lemma unmet_edge_raises_witness :
  long long_form = true ∧ within long_form 0 ∧
  missing_dep 0 "bar" "^1.0.0" ∈ node_edgesOut (broken !!! 0) ∧
  edge_kept long_form broken 0 (RNode 0) (missing_dep 0 "bar" "^1.0.0") = true ∧
  unmet (missing_dep 0 "bar" "^1.0.0") = true ∧
  ∃ x, ls posix long_form broken 0 [] =
       {| printed := []; exitCode := None; completion := Throw x |} ∧
       (x = TypeError ∨ raised posix broken [] x).
Proof.
  assert (within long_form 0) as Hd by reflexivity.
  assert (missing_dep 0 "bar" "^1.0.0" ∈ node_edgesOut (broken !!! 0)) as He.
  { cbn. set_solver. }
  split_and!; [reflexivity | exact Hd | exact He | reflexivity | reflexivity |].
  exact (unmet_edge_raises posix long_form broken 0 [] 0
           (missing_dep 0 "bar" "^1.0.0")
           (or_intror eq_refl) (or_introl (conj eq_refl Hd)) He
           eq_refl eq_refl).
Defined.

(** X13: the root misses bar and stray is extraneous: both are visited
    and both are reported. *)
Lemma unmet_and_extraneous_reported_witness :
  ∃ res st,
    walk posix defaults troubled 0 [] = Ok (res, st) ∧
    (RNode 0 ∈ seen st ∧ _depth (fields_of st (RNode 0)) = Some 0 ∧
     within defaults 0 ∧
     missing_dep 0 "bar" "^1.0.0" ∈ node_edgesOut (troubled !!! 0) ∧
     edge_kept defaults troubled 0 (RNode 0) (missing_dep 0 "bar" "^1.0.0")
       = true ∧
     unmet (missing_dep 0 "bar" "^1.0.0") = true) ∧
    (RNode 1 ∈ seen st ∧ node_extraneous (troubled !!! 1) = true) ∧
    (∀ n k e, RNode n ∈ seen st → _depth (fields_of st (RNode n)) = Some k →
              within defaults k → e ∈ node_edgesOut (troubled !!! n) →
              edge_kept defaults troubled 0 (RNode n) e = true →
              unmet e = true → missing_problem troubled e ∈ problems st) ∧
    (∀ n, RNode n ∈ seen st → node_extraneous (troubled !!! n) = true →
          invalid_problem troubled n ∈ problems st ∨
          extraneous_problem troubled n ∈ problems st) ∧
    problems st = ["missing: bar@^1.0.0, required by root@1.0.0";
                   "extraneous: stray@1.0.0 /p/node_modules/stray"].
Proof.
  destruct (walk posix defaults troubled 0 []) as [[res st]| |] eqn:Hw;
    [| vm_compute in Hw; discriminate Hw..].
  assert ((RNode 0 ∈ seen st ∧ _depth (fields_of st (RNode 0)) = Some 0) ∧
          RNode 1 ∈ seen st ∧
          problems st = ["missing: bar@^1.0.0, required by root@1.0.0";
                         "extraneous: stray@1.0.0 /p/node_modules/stray"])
    as ([Hs Hk] & Hs1 & Hp).
  { vm_compute in Hw. injection Hw as <- <-.
    split_and!; [cbn; set_solver | reflexivity | cbn; set_solver
                 | reflexivity]. }
  assert (missing_dep 0 "bar" "^1.0.0" ∈ node_edgesOut (troubled !!! 0)) as He.
  { cbn. set_solver. }
  exists res, st. split; [reflexivity |].
  split; [by split_and! |]. split; [by split |].
  destruct (unmet_and_extraneous_reported posix defaults troubled 0 [] res st
              Hw) as [Hm Hx].
  split_and!; [exact Hm | exact Hx | exact Hp].
Defined.

(** X14: the problem of the walk of [stray] comes from the visit of the
    extraneous node. *)
Lemma problems_come_from_visits_witness :
  ∃ res st,
    walk posix defaults stray 0 [] = Ok (res, st) ∧
    extraneous_problem stray 1 ∈ problems st ∧
    ∃ r, r ∈ seen st ∧
         problem_form defaults stray 0 st r (extraneous_problem stray 1).
Proof.
  destruct (walk posix defaults stray 0 []) as [[res st]| |] eqn:Hw;
    [| vm_compute in Hw; discriminate Hw..].
  assert (extraneous_problem stray 1 ∈ problems st) as Hp.
  { vm_compute in Hw. injection Hw as <- <-. vm_compute. set_solver. }
  exists res, st. split; [reflexivity |]. split; [exact Hp |].
  exact (problems_come_from_visits posix defaults stray 0 [] res st _ Hw Hp).
Defined.

(** X15: the diamond is healthy: its report prints once and resolves. *)
Lemma healthy_tree_resolves_witness :
  healthy diamond ∧ Forall (λ n, resolved_ok posix n = true) diamond ∧
  long defaults = false ∧
  (∀ e, e ∈ node_errors (diamond !!! 0) → is_rootError posix defaults e = false) ∧
  ∃ out, ls posix defaults diamond 0 [] =
         {| printed := [out]; exitCode := None; completion := Ok tt |}.
Proof.
  assert (healthy diamond) as Hh.
  { repeat (constructor || (eexists; reflexivity)). }
  assert (Forall (λ n, resolved_ok posix n = true) diamond) as Hr.
  { by repeat constructor. }
  assert (∀ e, e ∈ node_errors (diamond !!! 0) →
               is_rootError posix defaults e = false) as He.
  { intros e H. cbn in H. by apply elem_of_nil in H. }
  split_and!; [exact Hh | exact Hr | reflexivity | exact He |].
  exact (healthy_tree_resolves posix defaults diamond 0 [] Hh Hr eq_refl
           eq_refl He).
Defined.

(** X16: at the end of the walk of the chain under the filter bar, asking
    again for bar answers yes and touches the item of foo only. *)
Lemma filterByPositionalArgs_on_node_witness :
  ∃ res st,
    walk posix defaults chain 0 ["bar"] = Ok (res, st) ∧
    Forall no_parent (items st) ∧
    filterByPositionalArgs defaults chain ["bar"] (RNode 2) st =
      match answer chain ["bar"] 2 with
      | Raises e => Throw e
      | Returns b =>
          Ok (b, if negb (bool_decide (["bar"] = [])) && b &&
                    negb (parseable defaults)
                 then mark_parent_item (RNode 2) st else st)
      end ∧
    (∀ b, answer chain ["bar"] 2 = Returns b →
          b = included chain ["bar"] (RNode 2)) ∧
    (∀ e, answer chain ["bar"] 2 = Raises e → raised posix chain ["bar"] e).
Proof.
  destruct (walk posix defaults chain 0 ["bar"]) as [[res st]| |] eqn:Hw;
    [| vm_compute in Hw; discriminate Hw..].
  assert (Forall no_parent (items st)) as Hi.
  { vm_compute in Hw. injection Hw as <- <-. by repeat constructor. }
  exists res, st. split; [reflexivity |]. split; [exact Hi |].
  exact (filterByPositionalArgs_on_node posix defaults chain ["bar"] 2 st Hi).
Defined.

(** X18: under the filter bar the chain has its match two levels down: the
    exit status is 1. *)
Lemma exit_status_counts_direct_matches_witness :
  ∃ res st,
    walk posix defaults chain 0 ["bar"] = Ok (Some res, st) ∧
    (exitCode (ls posix defaults chain 0 ["bar"]) = Some 1 ↔
     ["bar"] ≠ [] ∧
     ∀ r, r ∈ seen st → _parent (fields_of st r) = Some res →
          included chain ["bar"] r = false).
Proof.
  destruct (walk posix defaults chain 0 ["bar"]) as [[[res|] st]| |] eqn:Hw;
    [| vm_compute in Hw; discriminate Hw..].
  exists res, st. split; [reflexivity |].
  exact (exit_status_counts_direct_matches posix defaults chain 0 ["bar"]
           res st Hw).
Defined.

(** X19: the stand-in made on [later] has its source. *)
Lemma made_objects_have_sources_witness :
  ∃ res st o,
    walk posix defaults later 0 [] = Ok (res, st) ∧
    synth st !! 0 = Some o ∧ made_ok defaults later 0 st 0 o.
Proof.
  destruct (walk posix defaults later 0 []) as [[res st]| |] eqn:Hw;
    [| vm_compute in Hw; discriminate Hw..].
  destruct (synth st !! 0) as [o|] eqn:Ho;
    [| vm_compute in Hw; injection Hw as <- <-; discriminate Ho].
  exists res, st, o. split; [reflexivity |]. split; [exact Ho |].
  exact (made_objects_have_sources posix defaults later 0 [] res st 0 o Hw Ho).
Defined.

(** X20: the label of the placeholder made on [broken]. *)
Lemma made_objects_labels_witness :
  ∃ res st,
    walk posix defaults broken 0 [] = Ok (res, st) ∧
    seen st !! 1 = Some (RObj 0) ∧
    synth st !!! 0 = Placeholder "bar" "bar@^1.0.0" ∧
    label (items st !!! 1) = "UNMET DEPENDENCY bar@^1.0.0" ∧
    match synth st !!! 0 with
    | Deduped p pkg =>
        label (items st !!! 1) =
        (p +:+ " deduped") +:+
        (if long defaults
         then EOL posix +:+ default "" (pkg ≫= pkg_description) else "")
    | Placeholder name pkgid =>
        long defaults = false ∧
        ∃ n e, RNode n ∈ seen st ∧ e ∈ node_edgesOut (broken !!! n) ∧
               edge_kept defaults broken 0 (RNode n) e = true ∧
               unmet e = true ∧
               name = edge_name e ∧
               pkgid = edge_name e +:+ "@" +:+ edge_spec e ∧
               _missing (fields_of st (RObj 0)) =
                 Some (node_pkgid (broken !!! edge_from e)) ∧
               _type (fields_of st (RObj 0)) = Some (edge_type e) ∧
               _invalid (fields_of st (RObj 0)) = edge_invalid e ∧
               label (items st !!! 1) =
               (let msg := "UNMET " +:+
                           (if decide (edge_type e = TOptional)
                            then "OPTIONAL " else "") +:+
                           "DEPENDENCY " in
                if color defaults then chalk_yellow_bgBlack posix msg
                else msg) +:+
               pkgid +:+
               (if edge_invalid e
                then (if color defaults then chalk_red_bgBlack posix " invalid"
                      else " invalid")
                else "")
    end.
Proof.
  destruct (walk posix defaults broken 0 []) as [[res st]| |] eqn:Hw;
    [| vm_compute in Hw; discriminate Hw..].
  assert (seen st !! 1 = Some (RObj 0) ∧
          synth st !!! 0 = Placeholder "bar" "bar@^1.0.0" ∧
          label (items st !!! 1) = "UNMET DEPENDENCY bar@^1.0.0")
    as (Hs & Ho & Hl).
  { vm_compute in Hw. injection Hw as <- <-. by split_and!. }
  exists res, st. split; [reflexivity |].
  split_and!; [exact Hs | exact Ho | exact Hl |].
  exact (made_objects_labels posix defaults broken 0 [] res st 1 0 Hw Hs).
Defined.

(** X21: bar, third to be visited on the chain, is listed under foo and
    nowhere else. *)
Lemma no_filter_lists_every_visit_witness :
  ∃ res st,
    walk posix defaults chain 0 [] = Ok (res, st) ∧
    seen st !! 2 = Some (RNode 2) ∧ RNode 2 ≠ RNode 0 ∧
    ∃ p, _parent (fields_of st (RNode 2)) = Some p ∧ p < 2 ∧
         2 ∈ nodes (items st !!! p) ∧
         ∀ p', p' < length (items st) → 2 ∈ nodes (items st !!! p') → p' = p.
Proof.
  destruct (walk posix defaults chain 0 []) as [[res st]| |] eqn:Hw;
    [| vm_compute in Hw; discriminate Hw..].
  assert (seen st !! 2 = Some (RNode 2)) as Hs.
  { vm_compute in Hw. injection Hw as <- <-. reflexivity. }
  assert (RNode 2 ≠ RNode 0) as Hne by discriminate.
  exists res, st. split; [reflexivity |]. split; [exact Hs |].
  split; [exact Hne |].
  exact (no_filter_lists_every_visit posix defaults chain 0 [] res st 2
           (RNode 2) eq_refl Hw Hs Hne).
Defined.

(** X22: the missing bar is shown under the root. *)
Lemma unmet_edges_shown_witness :
  ∃ res st,
    walk posix defaults broken 0 [] = Ok (res, st) ∧
    RNode 0 ∈ seen st ∧ _depth (fields_of st (RNode 0)) = Some 0 ∧
    within defaults 0 ∧
    missing_dep 0 "bar" "^1.0.0" ∈ node_edgesOut (broken !!! 0) ∧
    edge_kept defaults broken 0 (RNode 0) (missing_dep 0 "bar" "^1.0.0") = true ∧
    unmet (missing_dep 0 "bar" "^1.0.0") = true ∧
    ∃ i k' p,
      seen st !! i = Some (RObj k') ∧
      synth st !! k' = Some (Placeholder "bar" "bar@^1.0.0") ∧
      seen st !! p = Some (RNode 0) ∧
      i ∈ nodes (items st !!! p).
Proof.
  destruct (walk posix defaults broken 0 []) as [[res st]| |] eqn:Hw;
    [| vm_compute in Hw; discriminate Hw..].
  assert (RNode 0 ∈ seen st) as Hs.
  { vm_compute in Hw. injection Hw as <- <-. cbn. set_solver. }
  assert (_depth (fields_of st (RNode 0)) = Some 0) as Hk.
  { vm_compute in Hw. injection Hw as <- <-. reflexivity. }
  assert (within defaults 0) as Hd by reflexivity.
  assert (missing_dep 0 "bar" "^1.0.0" ∈ node_edgesOut (broken !!! 0)) as He.
  { cbn. set_solver. }
  exists res, st. split; [reflexivity |].
  split_and!; [exact Hs | exact Hk | exact Hd | exact He | reflexivity
              | reflexivity |].
  exact (unmet_edges_shown posix defaults broken 0 [] res st 0 0
           (missing_dep 0 "bar" "^1.0.0") eq_refl Hw Hs Hk Hd He
           eq_refl eq_refl).
Defined.

(** * What the libraries throw *)

(** A filter that npm-package-arg does not parse: [satisfies] throws at the
    first dependency that is asked, and the error leaves [ls] before
    anything is printed. *)
Example unparsable_filter_rejected :
  ls posix defaults chain 0 ["foo bar"] =
  {| printed := []; exitCode := None;
     completion := Throw (LibError "EINVALIDTAGNAME") |}.
Proof. vm_compute. reflexivity. Qed.

(** A [resolved] that npm-package-arg does not parse: [isGitNode] throws at
    the visit of foo. *)
Example unparsable_resolved_rejected :
  ls posix defaults unresolved 0 [] =
  {| printed := []; exitCode := None;
     completion := Throw (LibError "EINVALIDTAGNAME") |}.
Proof. vm_compute. reflexivity. Qed.
